(** * Blender2UrhoPBR: the asset-translation pipeline, embedded and verified

    Each module below embeds one source file of the exporter (the module
    names the file) and then states and proves the properties of that
    file.  Python lists are [list]s, dictionaries are [gmap]s or
    association lists, sets are [gset]s, [None]-able fields are [option]s;
    an operation that can raise returns [option] or an explicit outcome. *)

From Stdlib Require Import ZArith List String Ascii QArith Qcanon Reals Lra Lia Bool.
From stdpp Require Import base list gmap strings sorting pretty.

Local Open Scope string_scope.
Local Open Scope list_scope.

(** ** Python sequence indexing *)

Module PySeq.

(** [l[i]] for a Python int [i]: a negative index counts from the end,
    anything outside [-len, len) raises [IndexError] ([None]). *)
Definition py_index {A} (l : list A) (i : Z) : option A :=
  if (0 <=? i)%Z then l !! Z.to_nat i
  else if (0 <=? Z.of_nat (length l) + i)%Z
       then l !! Z.to_nat (Z.of_nat (length l) + i)
       else None.

(** [l[i] = x], same index rule. *)
Definition py_store {A} (l : list A) (i : Z) (x : A) : option (list A) :=
  if (0 <=? i)%Z then
    if (i <? Z.of_nat (length l))%Z then Some (<[Z.to_nat i := x]> l) else None
  else if (0 <=? Z.of_nat (length l) + i)%Z
       then Some (<[Z.to_nat (Z.of_nat (length l) + i) := x]> l)
       else None.

(** [range(n)] as Python ints. *)
Definition py_range (n : Z) : list Z := Z.of_nat <$> seq 0 (Z.to_nat n).

Lemma py_index_valid {A} (l : list A) (i : Z) :
  (- Z.of_nat (length l) ≤ i < Z.of_nat (length l))%Z →
  is_Some (py_index l i).
Proof.
  intros Hi. unfold py_index.
  destruct (0 <=? i)%Z eqn:H0.
  - apply lookup_lt_is_Some. lia.
  - destruct (0 <=? Z.of_nat (length l) + i)%Z eqn:H1; [|lia].
    apply lookup_lt_is_Some. lia.
Qed.

Lemma py_store_valid {A} (l : list A) (i : Z) (x : A) :
  (- Z.of_nat (length l) ≤ i < Z.of_nat (length l))%Z →
  ∃ l', py_store l i x = Some l' ∧ length l' = length l.
Proof.
  intros Hi. unfold py_store.
  destruct (0 <=? i)%Z eqn:H0.
  - destruct (i <? Z.of_nat (length l))%Z eqn:H1; [|lia].
    eexists. split; [reflexivity|]. apply length_insert.
  - destruct (0 <=? Z.of_nat (length l) + i)%Z eqn:H1; [|lia].
    eexists. split; [reflexivity|]. apply length_insert.
Qed.

End PySeq.

(** ** core/name_parser.py *)

Module NameParser.

Definition KNOWN_SUFFIXES : gset string :=
  list_to_set ["nocol"; "2side"; "noshadow"; "alpha"; "occluder";
               "lod1"; "lod2"; "navmesh"; "trigger"; "billboard"].

Record ParsedName := {
  clean_name : string;
  original_name : string;
  nocol : bool;
  two_side : bool;
  noshadow : bool;
  alpha : bool;
  occluder : bool;
  lod_level : Z;
  navmesh : bool;
  trigger : bool;
  billboard : bool
}.

Definition has_any_suffix (p : ParsedName) : bool :=
  negb (String.eqb (clean_name p) (original_name p)).

(** [str.lower()] on the characters of a [string]: the letters A..Z move
    to a..z, every other character stays. *)
Definition lower_char (c : ascii) : ascii :=
  let n := nat_of_ascii c in
  if (65 <=? n)%nat && (n <=? 90)%nat then ascii_of_nat (n + 32) else c.

Fixpoint lower (s : string) : string :=
  match s with
  | EmptyString => EmptyString
  | String c s' => String (lower_char c) (lower s')
  end.

(** [name.split('_')]: never empty, one more part than there are
    underscores. *)
Fixpoint split (s : string) : list string :=
  match s with
  | EmptyString => [EmptyString]
  | String c s' =>
      if Ascii.eqb c "_" then EmptyString :: split s'
      else match split s' with
           | p :: ps => String c p :: ps
           | [] => [String c EmptyString]
           end
  end.

(** ['_'.join(parts)]. *)
Definition join (parts : list string) : string := String.concat "_" parts.

(** [range(len(parts) - 1, 0, -1)]: the indices n-1, n-2, ..., 1. *)
Definition scan_indices (n : nat) : list nat := reverse (seq 1 (n - 1)).

(** The [for] loop with its [break]: the state is [(found, suffix_count)]. *)
Fixpoint scan (parts : list string) (idx : list nat)
    (found : gset string) (suffix_count : nat) : gset string * nat :=
  match idx with
  | [] => (found, suffix_count)
  | i :: rest =>
      let lower_i := lower (nth i parts EmptyString) in
      if bool_decide (lower_i ∈ KNOWN_SUFFIXES)
      then scan parts rest ({[lower_i]} ∪ found) (S suffix_count)
      else (found, suffix_count)
  end.

Definition parse_object_name (name : string) : ParsedName :=
  let parts := split name in
  let '(found, suffix_count) := scan parts (scan_indices (length parts)) ∅ 0 in
  let clean :=
    match suffix_count with
    | O => name
    | _ => join (take (length parts - suffix_count) parts)
    end in
  let lod :=
    if bool_decide ("lod1" ∈ found) then 1%Z
    else if bool_decide ("lod2" ∈ found) then 2%Z
    else 0%Z in
  {| clean_name := clean;
     original_name := name;
     nocol := bool_decide ("nocol" ∈ found);
     two_side := bool_decide ("2side" ∈ found);
     noshadow := bool_decide ("noshadow" ∈ found);
     alpha := bool_decide ("alpha" ∈ found);
     occluder := bool_decide ("occluder" ∈ found);
     lod_level := lod;
     navmesh := bool_decide ("navmesh" ∈ found);
     trigger := bool_decide ("trigger" ∈ found);
     billboard := bool_decide ("billboard" ∈ found) |}.

Definition material_suffix (parsed : ParsedName) : string :=
  let parts := ((if two_side parsed then ["2side"] else [])
                ++ (if alpha parsed then ["alpha"] else []))%list in
  match parts with
  | [] => ""
  | _ => String.append "_" (join parts)
  end.

(** A segment is recognized when its lower-cased text is a known suffix. *)
Definition recognized (p : string) : Prop := lower p ∈ KNOWN_SUFFIXES.

Example parse_bush :
  clean_name (parse_object_name "Bush_nocol_2side_alpha") = "Bush".
Proof. vm_compute. reflexivity. Qed.

Example parse_stone_wall :
  clean_name (parse_object_name "Stone_Wall_nocol") = "Stone_Wall".
Proof. vm_compute. reflexivity. Qed.

Example parse_all_suffixes :
  clean_name (parse_object_name "NoCol_alpha") = "NoCol".
Proof. vm_compute. reflexivity. Qed.

Lemma split_nonempty (s : string) : split s <> [].
Proof.
  induction s as [|c s IH]; simpl; [discriminate|].
  destruct (Ascii.eqb c "_"); [discriminate|].
  destruct (split s); discriminate.
Qed.

Lemma join_cons_char (c : ascii) (p : string) (ps : list string) :
  join (String c p :: ps) = String c (join (p :: ps)).
Proof. unfold join. simpl. destruct ps; reflexivity. Qed.

(** Splitting at the underscores and joining with underscores gives the
    name back. *)
Lemma join_split (s : string) : join (split s) = s.
Proof.
  induction s as [|c s IH]; [reflexivity|].
  simpl. destruct (Ascii.eqb_spec c "_") as [->|Hc].
  - pose proof (split_nonempty s) as Hne.
    unfold join in *. simpl.
    destruct (split s) as [|p ps]; [contradiction|].
    simpl. rewrite <- IH. reflexivity.
  - pose proof (split_nonempty s) as Hne.
    destruct (split s) as [|p ps]; [contradiction|].
    rewrite join_cons_char, IH. reflexivity.
Qed.

(** What the loop computes, for any index list: it consumes a prefix of
    recognized segments and stops at the end of the list or at the first
    segment that is not recognized. *)
Lemma scan_spec (parts : list string) (idx : list nat) :
  forall (found : gset string) (c : nat),
  exists m : nat,
    (scan parts idx found c).2 = (c + m)%nat /\
    (m <= length idx)%nat /\
    (forall j i, (j < m)%nat -> idx !! j = Some i ->
                 recognized (nth i parts EmptyString)) /\
    (m = length idx \/
     exists i, idx !! m = Some i /\ ~ recognized (nth i parts EmptyString)).
Proof.
  induction idx as [|i rest IH]; intros found c.
  - exists 0%nat. simpl. repeat split; [lia|lia| |left; reflexivity].
    intros j i Hj. lia.
  - simpl. case_bool_decide as Hk.
    + destruct (IH ({[lower (nth i parts "")]} ∪ found) (S c))
        as (m & Hm & Hle & Hall & Hstop).
      exists (S m). repeat split.
      * rewrite Hm. lia.
      * lia.
      * intros [|j] i' Hj Hi'; simpl in Hi'.
        -- injection Hi' as <-. exact Hk.
        -- apply (Hall j); [lia|exact Hi'].
      * destruct Hstop as [->|Hstop]; [left; reflexivity|right; exact Hstop].
    + exists 0%nat. simpl. repeat split; [lia|lia| |].
      * intros j i' Hj. lia.
      * right. exists i. split; [reflexivity|exact Hk].
Qed.

Lemma scan_indices_lookup (n j : nat) :
  (j < n - 1)%nat -> scan_indices n !! j = Some (n - 1 - j)%nat.
Proof.
  intros Hj. unfold scan_indices.
  rewrite reverse_lookup by (rewrite length_seq; exact Hj).
  rewrite length_seq, lookup_seq. 
  split_and?; [f_equal; lia|lia].
Qed.

Lemma scan_indices_length (n : nat) : length (scan_indices n) = (n - 1)%nat.
Proof. unfold scan_indices. rewrite length_reverse, length_seq. reflexivity. Qed.

(** C10. [parse_object_name] is total and never consumes the leftmost
    segment: the clean name is the underscore-join of the first [k >= 1]
    segments of the input; every dropped segment is a recognized suffix;
    scanning stopped either at segment 0 or at a segment that is not
    recognized; and a name made of recognized suffixes only keeps its
    first segment as its clean name. *)
Theorem parse_object_name_keeps_first_segment (name : string) :
  exists k : nat,
    (1 <= k <= length (split name))%nat /\
    clean_name (parse_object_name name) = join (take k (split name)) /\
    Forall recognized (drop k (split name)) /\
    (k = 1%nat \/
     exists p, split name !! (k - 1)%nat = Some p /\ ~ recognized p) /\
    (Forall recognized (split name) ->
     clean_name (parse_object_name name) = hd EmptyString (split name)).
Proof.
  set (parts := split name).
  assert (Hlen : (1 <= length parts)%nat).
  { pose proof (split_nonempty name). subst parts.
    destruct (split name); [contradiction|simpl; lia]. }
  destruct (scan_spec parts (scan_indices (length parts)) ∅ 0)
    as (m & Hm & Hle & Hall & Hstop).
  rewrite scan_indices_length in Hle, Hstop.
  assert (Hclean : clean_name (parse_object_name name)
                   = join (take (length parts - m) parts)).
  { unfold parse_object_name. fold parts.
    destruct (scan parts (scan_indices (length parts)) ∅ 0) as [found c].
    simpl in Hm. subst c. simpl.
    destruct m as [|m']; [|reflexivity].
    rewrite Nat.sub_0_r, firstn_all. subst parts. symmetry. apply join_split. }
  assert (Hstop' : (length parts - m)%nat = 1%nat \/
     exists p, parts !! (length parts - m - 1)%nat = Some p /\ ~ recognized p).
  { destruct Hstop as [->|(i & Hi & Hnot)]; [left; lia|right].
    assert (Hlt : (m < length parts - 1)%nat).
    { apply lookup_lt_Some in Hi. rewrite scan_indices_length in Hi. exact Hi. }
    rewrite scan_indices_lookup in Hi by exact Hlt. injection Hi as <-.
    destruct (lookup_lt_is_Some_2 parts (length parts - m - 1)) as [p Hp]; [lia|].
    exists p. split; [exact Hp|].
    rewrite (nth_lookup_Some _ _ EmptyString p) in Hnot; [exact Hnot|].
    replace (length parts - 1 - m)%nat with (length parts - m - 1)%nat by lia.
    exact Hp. }
  assert (Hdrop : Forall recognized (drop (length parts - m) parts)).
  { apply Forall_lookup_2. intros j p Hp.
    rewrite lookup_drop in Hp.
    assert (Hj : (length parts - m + j < length parts)%nat)
      by (apply lookup_lt_Some in Hp; exact Hp).
    specialize (Hall (length parts - 1 - (length parts - m + j))%nat
                     (length parts - m + j)%nat).
    rewrite (nth_lookup_Some _ _ EmptyString p) in Hall by exact Hp.
    apply Hall; [lia|].
    rewrite scan_indices_lookup by lia. f_equal. lia. }
  exists (length parts - m)%nat. split_and!; try assumption; try lia.
  intros Hrec. rewrite Hclean.
  destruct Hstop' as [->|(p & Hp & Hnot)].
  - destruct parts as [|p0 ps]; [simpl in Hlen; lia|].
    simpl. rewrite take_0. reflexivity.
  - exfalso. apply Hnot. eapply Forall_lookup_1; eauto.
Qed.

End NameParser.

(** ** materials/technique_map.py *)

Module TechniqueMap.

(** Python floats are idealised as rationals in this module: the mapper
    passes scalars through, multiplies and squares them. *)

Record TextureInfo := {
  image_name : string;
  filepath : string;
  uv_map_name : string
}.

Record PBRProperties := {
  base_color : Q * Q * Q;
  base_color_alpha : Q;
  metallic : Q;
  roughness : Q;
  specular_ior_level : Q;
  emission_color : Q * Q * Q;
  emission_strength : Q;
  alpha : Q;
  base_color_texture : option TextureInfo;
  metallic_texture : option TextureInfo;
  roughness_texture : option TextureInfo;
  normal_texture : option TextureInfo;
  emission_texture : option TextureInfo;
  ao_texture : option TextureInfo;
  has_transparency : bool;
  uses_alpha_clip : bool;
  is_two_sided : bool;
  is_unlit : bool
}.

Record UrhoMaterialResult := {
  technique_name : string;
  textures : gmap string string;
  mat_diff_color : option (Q * Q * Q * Q);
  mat_spec_color : option (Q * Q * Q * Q);
  mat_emissive_color : option (Q * Q * Q);
  res_metallic : option Q;
  res_roughness : option Q;
  vs_defines : string;
  ps_defines : string;
  cull_mode : string;
  shadow_cull : string
}.

(** [UrhoMaterialResult()] with the dataclass defaults. *)
Definition default_result : UrhoMaterialResult :=
  {| technique_name := "Techniques/NoTexture.xml";
     textures := ∅;
     mat_diff_color := None;
     mat_spec_color := None;
     mat_emissive_color := None;
     res_metallic := None;
     res_roughness := None;
     vs_defines := "";
     ps_defines := "";
     cull_mode := "ccw";
     shadow_cull := "ccw" |}.

Record TechniqueMapper := {
  prefer_pbr : bool;
  pack_textures : bool
}.

(** [t.image_name] for a texture slot [t]: [AttributeError] on [None]. *)
Definition image_of (t : option TextureInfo) : option string :=
  image_name <$> t.

(** [a > b] on scalars. *)
Definition gt (a b : Q) : bool := if Qlt_le_dec b a then true else false.

(** [any(c > 0.0 for c in color)]. *)
Definition any_positive (c : Q * Q * Q) : bool :=
  let '(r, g, b) := c in
  gt r 0 || gt g 0 || gt b 0.

Definition scale3 (c : Q * Q * Q) (s : Q) : Q * Q * Q :=
  let '(r, g, b) := c in (r * s, g * s, b * s)%Q.

(** [tech += token] when [flag] holds. *)
Definition add_if (flag : bool) (token : string) (tech : string) : string :=
  if flag then String.append tech token else tech.

(** [textures[unit] = slot.image_name] when [flag] holds. *)
Definition put_if (flag : bool) (unit : string) (slot : option TextureInfo)
    (tex : gmap string string) : option (gmap string string) :=
  if flag then name ← image_of slot; Some (<[unit := name]> tex) else Some tex.

Definition _map_pbr (props : PBRProperties) (result : UrhoMaterialResult)
    (has_diff has_norm has_spec has_ao has_emissive has_alpha : bool)
    : option UrhoMaterialResult :=
  let tex0 := textures result in
  '(tech, tex) ←
    (if has_spec then
       let tech := "PBR/PBRMetallicRough" in
       let tech := add_if has_diff "Diff" tech in
       tex ← put_if has_diff "diffuse" (base_color_texture props) tex0;
       let tech := add_if has_norm "Normal" tech in
       tex ← put_if has_norm "normal" (normal_texture props) tex;
       let tech := String.append tech "Spec" in
       let tex :=
         match metallic_texture props, roughness_texture props with
         | Some m, _ => <["specular" := image_name m]> tex
         | None, Some r => <["specular" := image_name r]> tex
         | None, None => tex
         end in
       Some (tech, tex)
     else if negb has_diff && negb has_norm then
       Some ("PBR/PBRNoTexture", tex0)
     else
       let tech := "PBR/PBR" in
       let tech := add_if has_diff "Diff" tech in
       tex ← put_if has_diff "diffuse" (base_color_texture props) tex0;
       let tech := add_if has_norm "Normal" tech in
       tex ← put_if has_norm "normal" (normal_texture props) tex;
       Some (tech, tex));
  let tech := add_if has_ao "AO" tech in
  tex ← put_if has_ao "emissive" (ao_texture props) tex;
  let tech := add_if has_emissive "Emissive" tech in
  let tex :=
    if has_emissive then
      match emission_texture props with
      | Some e => <["emissive" := image_name e]> tex
      | None => tex
      end
    else tex in
  let tech := add_if has_alpha "Alpha" tech in
  let '(r, g, b) := base_color props in
  Some {| technique_name := tech;
          textures := tex;
          mat_diff_color := Some (r, g, b, alpha props);
          mat_spec_color := Some (1, 1, 1, 1)%Q;
          mat_emissive_color :=
            if any_positive (emission_color props)
               && gt (emission_strength props) 0
            then Some (scale3 (emission_color props) (emission_strength props))
            else mat_emissive_color result;
          res_metallic := Some (if has_spec then 0%Q else metallic props);
          res_roughness := Some (if has_spec then 0%Q else roughness props);
          vs_defines := vs_defines result;
          ps_defines := ps_defines result;
          cull_mode := cull_mode result;
          shadow_cull := shadow_cull result |}.

(** [max(1.0, ((1.0 - roughness) * 30.0) ** 2.0)]. *)
Definition legacy_power (rough : Q) : Q :=
  let p := (((1 - rough) * 30) ^ 2)%Q in
  if gt p 1 then p else 1%Q.

Definition _map_legacy (props : PBRProperties) (result : UrhoMaterialResult)
    (has_diff has_norm has_emission has_spec has_alpha : bool)
    : option UrhoMaterialResult :=
  let tex0 := textures result in
  '(tech, tex) ←
    (if negb has_diff then Some ("NoTexture", tex0)
     else
       let tech := "Diff" in
       tex ← put_if true "diffuse" (base_color_texture props) tex0;
       let tech := add_if has_norm "Normal" tech in
       tex ← put_if has_norm "normal" (normal_texture props) tex;
       let tech := add_if has_spec "Spec" tech in
       let tex :=
         if has_spec then
           match metallic_texture props, roughness_texture props with
           | Some m, _ => <["specular" := image_name m]> tex
           | None, Some r => <["specular" := image_name r]> tex
           | None, None => tex
           end
         else tex in
       Some (tech, tex));
  let tech := add_if has_emission "Emissive" tech in
  tex ← put_if has_emission "emissive" (emission_texture props) tex;
  let tech := add_if (is_unlit props) "Unlit" tech in
  let tech := add_if has_alpha "Alpha" tech in
  let '(r, g, b) := base_color props in
  let spec := specular_ior_level props in
  Some {| technique_name := tech;
          textures := tex;
          mat_diff_color := Some (r, g, b, alpha props);
          mat_spec_color := Some (spec, spec, spec, legacy_power (roughness props));
          mat_emissive_color :=
            if any_positive (emission_color props)
            then Some (scale3 (emission_color props) (emission_strength props))
            else mat_emissive_color result;
          res_metallic := res_metallic result;
          res_roughness := res_roughness result;
          vs_defines := vs_defines result;
          ps_defines := ps_defines result;
          cull_mode := cull_mode result;
          shadow_cull := shadow_cull result |}.

Definition _append_define (existing new_define : string) : string :=
  match existing with
  | EmptyString => new_define
  | _ => String.append existing (String.append " " new_define)
  end.

Definition map_material (self : TechniqueMapper) (props : PBRProperties)
    : option UrhoMaterialResult :=
  let result := default_result in
  let has_diffuse_tex := bool_decide (is_Some (base_color_texture props)) in
  let has_normal_tex := bool_decide (is_Some (normal_texture props)) in
  let has_metallic_tex := bool_decide (is_Some (metallic_texture props)) in
  let has_roughness_tex := bool_decide (is_Some (roughness_texture props)) in
  let has_spec_tex :=
    (has_metallic_tex || has_roughness_tex) && pack_textures self in
  let has_emission_tex := bool_decide (is_Some (emission_texture props)) in
  let has_ao_tex := bool_decide (is_Some (ao_texture props)) in
  let has_alpha := has_transparency props in
  let is_pbr := prefer_pbr self && negb (is_unlit props) in
  result ←
    (if is_pbr then
       _map_pbr props result has_diffuse_tex has_normal_tex has_spec_tex
                has_ao_tex has_emission_tex has_alpha
     else
       _map_legacy props result has_diffuse_tex has_normal_tex
                   has_emission_tex has_spec_tex has_alpha);
  let two := is_two_sided props in
  let clip := uses_alpha_clip props in
  let name := technique_name result in
  Some {| technique_name :=
            if String.prefix "Techniques/" name then name
            else String.append "Techniques/" (String.append name ".xml");
          textures := textures result;
          mat_diff_color := mat_diff_color result;
          mat_spec_color := mat_spec_color result;
          mat_emissive_color := mat_emissive_color result;
          res_metallic := res_metallic result;
          res_roughness := res_roughness result;
          vs_defines := vs_defines result;
          ps_defines :=
            if clip then _append_define (ps_defines result) "ALPHAMASK"
            else ps_defines result;
          cull_mode := if two then "none" else cull_mode result;
          shadow_cull := if two then "none" else shadow_cull result |}.

(** The technique is a [PBRMetallicRough...Spec] variant. *)
Definition is_spec_variant (name : string) : bool :=
  String.prefix "Techniques/PBR/PBRMetallicRough" name
  && bool_decide (is_Some (String.index 0 "Spec" name)).

Example spec_variant_name :
  is_spec_variant "Techniques/PBR/PBRMetallicRoughDiffNormalSpecAOAlpha.xml" = true
  /\ is_spec_variant "Techniques/PBR/PBRDiffNormalEmissive.xml" = false
  /\ is_spec_variant "Techniques/DiffNormalSpec.xml" = false.
Proof. vm_compute. auto. Qed.

(** C6. With prefer-PBR on and a material that is not unlit, the mapper
    returns a result whose technique is a [PBRMetallicRough...Spec]
    variant exactly when a metallic or roughness texture is present and
    the pack-textures flag is set; in that case the metallic and
    roughness parameters are 0, otherwise they are the input values. *)
Theorem spec_variant_iff_packed_textures
    (self : TechniqueMapper) (props : PBRProperties) :
  prefer_pbr self = true ->
  is_unlit props = false ->
  exists r : UrhoMaterialResult,
    map_material self props = Some r /\
    (is_spec_variant (technique_name r) = true <->
     (is_Some (metallic_texture props) \/ is_Some (roughness_texture props))
     /\ pack_textures self = true) /\
    (is_spec_variant (technique_name r) = true ->
     res_metallic r = Some 0%Q /\ res_roughness r = Some 0%Q) /\
    (is_spec_variant (technique_name r) = false ->
     res_metallic r = Some (metallic props)
     /\ res_roughness r = Some (roughness props)).
Proof.
  destruct self as [pbr pack].
  destruct props as [bc bca met rough sil ec es al bct mt rt nt et aot tr clip two unlit].
  simpl. intros -> ->.
  unfold map_material, _map_pbr. simpl.
  destruct bc as [[r g] b].
  destruct bct, mt, rt, nt, et, aot, pack, tr; simpl;
    (eexists; split; [reflexivity|]); simpl;
    match goal with
    | |- context [is_spec_variant ?n] =>
        let v := eval vm_compute in (is_spec_variant n) in
        change (is_spec_variant n) with v
    end;
    (split_and!;
      [ split;
        [ intros H; first [discriminate H | split; [eauto|reflexivity]]
        | intros [[[? H]|[? H]] Hp]; first [reflexivity | discriminate] ]
      | intros H; first [discriminate H | split; reflexivity]
      | intros H; first [discriminate H | split; reflexivity] ]).
Qed.

(** The theorem at a material with a roughness texture, packing on. *)
Lemma spec_variant_iff_packed_textures_witness :
  exists r : UrhoMaterialResult,
    map_material {| prefer_pbr := true; pack_textures := true |}
      {| base_color := (1, 1, 1)%Q; base_color_alpha := 1; metallic := 1 # 2;
         roughness := 1 # 4; specular_ior_level := 1 # 2;
         emission_color := (0, 0, 0)%Q; emission_strength := 1; alpha := 1;
         base_color_texture := None; metallic_texture := None;
         roughness_texture :=
           Some {| image_name := "rough.png"; filepath := ""; uv_map_name := "" |};
         normal_texture := None; emission_texture := None; ao_texture := None;
         has_transparency := false; uses_alpha_clip := false;
         is_two_sided := false; is_unlit := false |} = Some r /\
    technique_name r = "Techniques/PBR/PBRMetallicRoughSpec.xml" /\
    res_metallic r = Some 0%Q /\ res_roughness r = Some 0%Q.
Proof.
  destruct (spec_variant_iff_packed_textures
              {| prefer_pbr := true; pack_textures := true |}
              {| base_color := (1, 1, 1)%Q; base_color_alpha := 1; metallic := 1 # 2;
                 roughness := 1 # 4; specular_ior_level := 1 # 2;
                 emission_color := (0, 0, 0)%Q; emission_strength := 1; alpha := 1;
                 base_color_texture := None; metallic_texture := None;
                 roughness_texture :=
                   Some {| image_name := "rough.png"; filepath := "";
                           uv_map_name := "" |};
                 normal_texture := None; emission_texture := None;
                 ao_texture := None;
                 has_transparency := false; uses_alpha_clip := false;
                 is_two_sided := false; is_unlit := false |}
              eq_refl eq_refl) as (r & Hr & Hiff & Hzero & _).
  exists r. split; [exact Hr|].
  assert (Hname : technique_name r = "Techniques/PBR/PBRMetallicRoughSpec.xml").
  { vm_compute in Hr. injection Hr as <-. reflexivity. }
  split; [exact Hname|].
  apply Hzero. rewrite Hname. vm_compute. reflexivity.
Defined.

End TechniqueMap.

(** ** data/intermediate.py and mesh/decompose.py *)

Module Decompose.

(** Python floats are idealised as canonical rationals ([Qc]) in this
    module, so that [==] on floats is equality of values. *)

Abbreviation vec2 := (Qc * Qc)%type.
Abbreviation vec3 := (Qc * Qc * Qc)%type.
Abbreviation vec4 := (Qc * Qc * Qc * Qc)%type.
Abbreviation ubyte4 := (Z * Z * Z * Z)%type.
Abbreviation triangle := (Z * Z * Z)%type.

Record IntermediateVertex := {
  position : vec3;
  normal : option vec3;
  uv : option vec2;
  uv2 : option vec2;
  tangent : option vec4;
  color : option ubyte4;
  bone_weights : option (list Qc);
  bone_indices : option (list Z);
  blender_index : option Z
}.

Abbreviation vertex_key :=
  (vec3 * option vec3 * option vec2 * option vec2 * option ubyte4)%type.

Definition hash_key (v : IntermediateVertex) : vertex_key :=
  (position v, normal v, uv v, uv2 v, color v).

Record IntermediateLodLevel := {
  distance : Qc;
  triangles : list triangle
}.

Record IntermediateGeometry := {
  material_name : string;
  material_index : Z;
  lod_levels : list IntermediateLodLevel
}.

Definition _blender_to_urho_pos (co : vec3) (scale : Qc) : vec3 :=
  let '(x, y, z) := co in (x * scale, z * scale, y * scale)%Qc.

Definition _blender_to_urho_normal (n : vec3) : vec3 :=
  let '(x, y, z) := n in (x, z, y).

Definition _blender_to_urho_uv (t : vec2) : vec2 :=
  let '(u, v) := t in (u, 1 - v)%Qc.

(** [max(0, min(255, int(c * 255.0 + 0.5)))]; [int] truncates toward zero. *)
Definition to_ubyte (c : Qc) : Z :=
  let q := (c * Q2Qc 255 + Q2Qc (1 # 2))%Qc in
  Z.max 0 (Z.min 255 (Z.quot (Qnum q) (Z.pos (Qden q)))).

Definition _color_to_ubyte4 (c : Qc * Qc * Qc * option Qc) : ubyte4 :=
  let '(r, g, b, a) := c in
  (to_ubyte r, to_ubyte g, to_ubyte b,
   match a with Some a => to_ubyte a | None => 255%Z end).

(** What the loop of [decompose_mesh] reads for one triangle corner:
    [vert_idx], the vertex coordinate and the corner normal (already moved
    to armature space for a skinned mesh), and the corner's entries in the
    exported UV and colour layers ([None] when the layer is not exported). *)
Record MeshLoop := {
  vert_idx : Z;
  co : vec3;
  corner_normal : vec3;
  loop_uv : option vec2;
  loop_uv2 : option vec2;
  loop_color : option (Qc * Qc * Qc * option Qc)
}.

Record LoopTriangle := {
  tri_material_index : Z;
  loops : MeshLoop * MeshLoop * MeshLoop
}.

Record ExportSettings := {
  scale : Qc;
  export_normal : bool
}.

Abbreviation weight_lookup := (gmap Z (list Qc * list Z)).

(** The candidate vertex record built for one corner. *)
Definition candidate (settings : ExportSettings)
    (bone_weights_lookup : weight_lookup) (l : MeshLoop) : IntermediateVertex :=
  let bw := bone_weights_lookup !! vert_idx l in
  {| position := _blender_to_urho_pos (co l) (scale settings);
     normal := if export_normal settings
               then Some (_blender_to_urho_normal (corner_normal l)) else None;
     uv := _blender_to_urho_uv <$> loop_uv l;
     uv2 := _blender_to_urho_uv <$> loop_uv2 l;
     tangent := None;
     color := _color_to_ubyte4 <$> loop_color l;
     bone_weights := fst <$> bw;
     bone_indices := snd <$> bw;
     blender_index := Some (vert_idx l) |}.

(** The state of the triangle loop: [vertex_map], [model.vertices] and
    [geom_triangles]. *)
Record DState := {
  vertex_map : gmap vertex_key Z;
  vertices : list IntermediateVertex;
  geom_triangles : gmap Z (list triangle)
}.

Definition init_state : DState :=
  {| vertex_map := ∅; vertices := []; geom_triangles := ∅ |}.

(** The "Deduplicate" step on [(vertex_map, model.vertices)]: the index
    of [iv], appending it when its key is new. *)
Definition dedup (vs : gmap vertex_key Z * list IntermediateVertex)
    (iv : IntermediateVertex)
    : gmap vertex_key Z * list IntermediateVertex * Z :=
  let key := hash_key iv in
  match vs.1 !! key with
  | Some idx => (vs, idx)
  | None =>
      let idx := Z.of_nat (length vs.2) in
      (<[key := idx]> vs.1, vs.2 ++ [iv], idx)
  end.

(** One iteration of [for tri in mesh.loop_triangles], given the three
    candidate records; also returns [tri_indices]. *)
Definition add_triangle (st : DState) (mat_idx : Z)
    (c0 c1 c2 : IntermediateVertex) : DState * triangle :=
  let gt := geom_triangles st in
  let gt := match gt !! mat_idx with
            | Some _ => gt
            | None => <[mat_idx := []]> gt
            end in
  let '(vs, a) := dedup (vertex_map st, vertices st) c0 in
  let '(vs, b) := dedup vs c1 in
  let '(vs, c) := dedup vs c2 in
  ({| vertex_map := vs.1; vertices := vs.2;
      geom_triangles := alter (λ l, l ++ [(a, c, b)]) mat_idx gt |},
   (a, b, c)).

(** A triangle with its three candidate records, in corner order. *)
Abbreviation corner_triangle :=
  (Z * (IntermediateVertex * IntermediateVertex * IntermediateVertex))%type.

Definition candidates (settings : ExportSettings)
    (bone_weights_lookup : weight_lookup) (t : LoopTriangle) : corner_triangle :=
  let '(l0, l1, l2) := loops t in
  let cand := candidate settings bone_weights_lookup in
  (tri_material_index t, (cand l0, cand l1, cand l2)).

(** The whole triangle loop; the second component lists [tri_indices] of
    every iteration. *)
Fixpoint triangle_loop (tris : list corner_triangle) (st : DState)
    : DState * list triangle :=
  match tris with
  | [] => (st, [])
  | (mat_idx, (c0, c1, c2)) :: rest =>
      let '(st1, abc) := add_triangle st mat_idx c0 c1 c2 in
      let '(st2, more) := triangle_loop rest st1 in
      (st2, abc :: more)
  end.

(** "Build geometries (one per material)": slots in ascending order. *)
Definition build_geometries (mat_names : list (option string))
    (gt : gmap Z (list triangle)) : list IntermediateGeometry :=
  (λ mat_idx,
     {| material_name :=
          if bool_decide (0 ≤ mat_idx)%Z then
            default "" (mjoin (mat_names !! Z.to_nat mat_idx))
          else "";
        material_index := mat_idx;
        lod_levels := [ {| distance := 0; triangles := gt !!! mat_idx |} ] |})
  <$> merge_sort Z.le (elements (dom gt)).

Definition decompose_triangles (settings : ExportSettings)
    (bone_weights_lookup : weight_lookup) (mat_names : list (option string))
    (mesh_triangles : list LoopTriangle)
    : list IntermediateVertex * list IntermediateGeometry :=
  let st := (triangle_loop
               (candidates settings bone_weights_lookup <$> mesh_triangles)
               init_state).1 in
  (vertices st, build_geometries mat_names (geom_triangles st)).

(** The corners of the mesh in the order the loop visits them. *)
Definition corners_of (t : corner_triangle) : list IntermediateVertex :=
  let '(_, (c0, c1, c2)) := t in [c0; c1; c2].

Definition indices_of (t : triangle) : list Z :=
  let '(a, b, c) := t in [a; b; c].

(** *** [_build_bone_weights] *)

Record VertexGroup := { vg_name : string; vg_index : Z }.
Record GroupElement := { group : Z; weight : Qc }.
Record MeshVertex := { mv_index : Z; groups : list GroupElement }.

Definition MAX_BONES : nat := 4.

(** [bone_index_map]: bone name to its position in [armature.bones]. *)
Definition bone_index_map (bones : list string) : gmap string Z :=
  foldl (λ m p, <[p.2 := Z.of_nat p.1]> m) ∅ (imap pair bones).

(** [group_to_bone]: vertex-group index to bone index, for the groups
    named after a bone. *)
Definition group_to_bone (bones : list string) (vgs : list VertexGroup)
    : gmap Z Z :=
  foldl (λ m vg,
           match bone_index_map bones !! vg_name vg with
           | Some i => <[vg_index vg := i]> m
           | None => m
           end) ∅ vgs.

Definition weight_threshold : Qc := Q2Qc (1 # 10000).

(** The inner loop over [vert.groups]. *)
Definition collect_weights (g2b : gmap Z Z) (gs : list GroupElement)
    : list (Qc * Z) :=
  omap (λ g, match g2b !! group g with
             | Some b => if bool_decide (weight_threshold < weight g)%Qc
                         then Some (weight g, b) else None
             | None => None
             end) gs.

(** [weights.sort(key=lambda x: x[0], reverse=True)]: a stable sort,
    larger weights first, equal weights in their original order. *)
Fixpoint insert_desc (x : Qc * Z) (l : list (Qc * Z)) : list (Qc * Z) :=
  match l with
  | [] => [x]
  | y :: l' => if bool_decide (y.1 ≤ x.1)%Qc then x :: y :: l'
               else y :: insert_desc x l'
  end.

Definition sort_desc (l : list (Qc * Z)) : list (Qc * Z) :=
  foldr insert_desc [] l.

Definition sum_weights (l : list Qc) : Qc := foldl Qcplus 0%Qc l.

Definition normalize (ws : list (Qc * Z)) : list (Qc * Z) :=
  let total := sum_weights ws.*1 in
  if bool_decide (0 < total)%Qc
  then (λ p, (p.1 / total, p.2)%Qc) <$> ws
  else ws.

Definition pad (ws : list (Qc * Z)) : list (Qc * Z) :=
  ws ++ replicate (MAX_BONES - length ws) (0%Qc, 0%Z).

(** From the collected pairs of a vertex to its [(w_tuple, i_tuple)]. *)
Definition vertex_entry (ws : list (Qc * Z)) : list Qc * list Z :=
  let ws := sort_desc ws in
  let ws := take MAX_BONES ws in
  let ws := normalize ws in
  let ws := pad ws in
  (ws.*1, ws.*2).

(** [armature] is [None] when [obj.find_armature()] finds nothing, else
    the bone names in armature order. *)
Definition _build_bone_weights (armature : option (list string))
    (vertex_groups : list VertexGroup) (mesh_vertices : list MeshVertex)
    : weight_lookup :=
  match armature with
  | None => ∅
  | Some bones =>
      let g2b := group_to_bone bones vertex_groups in
      foldl (λ result vert,
               match collect_weights g2b (groups vert) with
               | [] => result
               | ws => <[mv_index vert := vertex_entry ws]> result
               end) ∅ mesh_vertices
  end.


(** *** Deduplication *)

(** The dedup step run over a list of corners, with the indices it
    returns. *)
Fixpoint dedup_list (cs : list IntermediateVertex)
    (vs : gmap vertex_key Z * list IntermediateVertex)
    : gmap vertex_key Z * list IntermediateVertex * list Z :=
  match cs with
  | [] => (vs, [])
  | c :: cs' =>
      let '(vs1, x) := dedup vs c in
      let '(vs2, xs) := dedup_list cs' vs1 in
      (vs2, x :: xs)
  end.

(** The invariant of the loop after the corners [seen]: the map is the
    inverse of "key of the vertex at an index", every corner seen has its
    key in the map, and every stored vertex is the first corner seen with
    its key. *)
Definition consistent (seen : list IntermediateVertex)
    (vs : gmap vertex_key Z * list IntermediateVertex) : Prop :=
  (∀ k idx, vs.1 !! k = Some idx ↔
            ∃ n v, idx = Z.of_nat n ∧ vs.2 !! n = Some v ∧ hash_key v = k) ∧
  (∀ c, c ∈ seen → is_Some (vs.1 !! hash_key c)) ∧
  (∀ n v, vs.2 !! n = Some v →
          ∃ f, list_find (λ c, hash_key c = hash_key v) seen = Some (f, v)).

Lemma consistent_init : consistent [] (∅, []).
Proof.
  split_and!; simpl.
  - intros k idx. rewrite lookup_empty. split; [discriminate|].
    intros (n & v & _ & Hn & _). rewrite lookup_nil in Hn. discriminate.
  - intros c Hc. apply elem_of_nil in Hc. contradiction.
  - intros n v Hn. rewrite lookup_nil in Hn. discriminate.
Qed.

Lemma dedup_consistent seen vs c vs' x :
  consistent seen vs →
  dedup vs c = (vs', x) →
  consistent (seen ++ [c]) vs' ∧
  vs.2 `prefix_of` vs'.2 ∧
  ∃ n v, x = Z.of_nat n ∧ vs'.2 !! n = Some v ∧ hash_key v = hash_key c.
Proof.
  intros (Hmap & Hseen & Hfirst) Hd. unfold dedup in Hd.
  destruct (vs.1 !! hash_key c) as [idx|] eqn:Hk.
  - injection Hd as <- <-. split_and!.
    + split_and!; [exact Hmap| |].
      * intros c' [Hc'|Hc']%elem_of_app; [auto|].
        apply list_elem_of_singleton in Hc' as ->. eauto.
      * intros n v Hn. destruct (Hfirst n v Hn) as [f Hf].
        exists f. apply list_find_app_Some. left. exact Hf.
    + reflexivity.
    + apply Hmap in Hk. exact Hk.
  - injection Hd as <- <-. simpl. split_and!.
    + split_and!; simpl.
      * intros k idx. destruct (decide (hash_key c = k)) as [<-|Hne].
        -- rewrite lookup_insert_eq. split.
           ++ intros [= <-]. exists (length vs.2), c.
              split_and!; [reflexivity| |reflexivity].
              rewrite lookup_app_r, Nat.sub_diag by lia. reflexivity.
           ++ intros (n & v & -> & Hn & Hv).
              destruct (decide (n < length vs.2)%nat) as [Hlt|Hge].
              ** rewrite lookup_app_l in Hn by exact Hlt.
                 assert (vs.1 !! hash_key c = Some (Z.of_nat n)) as Hc
                   by (apply Hmap; eauto).
                 congruence.
              ** apply lookup_lt_Some in Hn as Hn'.
                 rewrite length_app in Hn'. simpl in Hn'.
                 do 2 f_equal. lia.
        -- rewrite lookup_insert_ne by exact Hne. rewrite Hmap. split.
           ++ intros (n & v & -> & Hn & Hv). exists n, v.
              split_and!; [reflexivity| |exact Hv].
              apply lookup_app_l_Some. exact Hn.
           ++ intros (n & v & -> & Hn & Hv). exists n, v.
              split_and!; [reflexivity| |exact Hv].
              apply lookup_app_Some in Hn as [Hn|[Hlen Hn]]; [exact Hn|].
              destruct (n - length vs.2)%nat; simpl in Hn; [|discriminate].
              injection Hn as <-. contradiction.
      * intros c' [Hc'|Hc']%elem_of_app.
        -- destruct (decide (hash_key c = hash_key c')) as [Heq|Hne].
           ++ rewrite <- Heq, lookup_insert_eq. eauto.
           ++ rewrite lookup_insert_ne by exact Hne. auto.
        -- apply list_elem_of_singleton in Hc' as ->.
           rewrite lookup_insert_eq. eauto.
      * intros n v Hn.
        apply lookup_app_Some in Hn as [Hn|[Hlen Hn]].
        -- destruct (Hfirst n v Hn) as [f Hf].
           exists f. apply list_find_app_Some. left. exact Hf.
        -- destruct (n - length vs.2)%nat; simpl in Hn; [|discriminate].
           injection Hn as <-.
           exists (length seen + 0)%nat. apply list_find_app_Some. right.
           split_and!; [lia| |].
           ++ apply list_find_None, Forall_forall. intros c' Hc' Heq.
              destruct (Hseen c' Hc') as [i Hi]. congruence.
           ++ replace (length seen + 0 - length seen)%nat with 0%nat by lia.
              simpl. rewrite decide_True by reflexivity. reflexivity.
    + apply prefix_app_r. reflexivity.
    + exists (length vs.2), c. split_and!; [reflexivity| |reflexivity].
      rewrite lookup_app_r, Nat.sub_diag by lia. reflexivity.
Qed.

Lemma dedup_list_spec cs : ∀ seen vs vs' xs,
  consistent seen vs →
  dedup_list cs vs = (vs', xs) →
  consistent (seen ++ cs) vs' ∧
  length xs = length cs ∧
  vs.2 `prefix_of` vs'.2 ∧
  ∀ i c x, cs !! i = Some c → xs !! i = Some x →
    ∃ n v, x = Z.of_nat n ∧ vs'.2 !! n = Some v ∧ hash_key v = hash_key c.
Proof.
  induction cs as [|c cs IH]; intros seen vs vs' xs Hinv Hrun; simpl in Hrun.
  - injection Hrun as <- <-. rewrite app_nil_r.
    split_and!; [exact Hinv|reflexivity|reflexivity|].
    intros i c x Hc. rewrite lookup_nil in Hc. discriminate.
  - destruct (dedup vs c) as [vs1 x] eqn:Hd.
    destruct (dedup_list cs vs1) as [vs2 xs2] eqn:Hl.
    injection Hrun as <- <-.
    destruct (dedup_consistent _ _ _ _ _ Hinv Hd)
      as (Hinv1 & Hpre1 & n & v & -> & Hn & Hv).
    destruct (IH _ _ _ _ Hinv1 Hl) as (Hinv2 & Hlen & Hpre2 & Hidx).
    rewrite <- app_assoc in Hinv2. simpl in Hinv2.
    split_and!; [exact Hinv2|simpl; congruence|etrans; eauto|].
    intros [|i] c' x' Hc' Hx'; simpl in Hc', Hx'.
    + injection Hc' as <-. injection Hx' as <-.
      exists n, v. split_and!; [reflexivity| |exact Hv].
      eapply prefix_lookup_Some; eauto.
    + eauto.
Qed.

(** The triangle loop deduplicates the corners of its triangles in
    order. *)
Lemma triangle_loop_dedup tris : ∀ st,
  let r := triangle_loop tris st in
  let d := dedup_list (tris ≫= corners_of) (vertex_map st, vertices st) in
  (vertex_map r.1, vertices r.1) = d.1 ∧ r.2 ≫= indices_of = d.2.
Proof.
  induction tris as [|[m [[c0 c1] c2]] tris IH]; intros st.
  - split; reflexivity.
  - cbn [triangle_loop]. unfold add_triangle.
    rewrite bind_cons. cbn [corners_of app dedup_list].
    destruct (dedup (vertex_map st, vertices st) c0) as [vs0 a] eqn:H0.
    destruct (dedup vs0 c1) as [vs1 b] eqn:H1.
    destruct (dedup vs1 c2) as [vs2 c] eqn:H2.
    match goal with
    | |- context [triangle_loop tris ?s] =>
        specialize (IH s); destruct (triangle_loop tris s) as [st2 more] eqn:Hl
    end.
    cbn [vertex_map vertices fst snd] in IH. destruct IH as [IH1 IH2].
    replace (vs2.1, vs2.2) with vs2 in * by (destruct vs2; reflexivity).
    destruct (dedup_list (tris ≫= corners_of) vs2) as [vs3 xs] eqn:Hd.
    cbn [fst snd] in *. split; [exact IH1|].
    rewrite bind_cons, IH2. reflexivity.
Qed.

(** *** Winding *)

(** The triangles stored for slot [m]: the index triples of the input
    triangles of that slot, in order, each with its second and third
    index exchanged. *)
Definition stored (m : Z) (tris : list corner_triangle) (trace : list triangle)
    : list triangle :=
  omap (λ p, if bool_decide (p.1.1 = m)
             then Some (let '(a, b, c) := p.2 in (a, c, b)) else None)
       (zip tris trace).

Lemma triangle_loop_length tris : ∀ st,
  length (triangle_loop tris st).2 = length tris.
Proof.
  induction tris as [|[m [[c0 c1] c2]] tris IH]; intros st; simpl; [reflexivity|].
  destruct (add_triangle st m c0 c1 c2) as [st1 abc].
  specialize (IH st1). destruct (triangle_loop tris st1) as [st2 more].
  simpl in *. congruence.
Qed.

Lemma add_triangle_geom st m c0 c1 c2 :
  let r := add_triangle st m c0 c1 c2 in
  let '(a, b, c) := r.2 in
  ∀ m', geom_triangles r.1 !! m' =
        if bool_decide (m' = m)
        then Some (default [] (geom_triangles st !! m) ++ [(a, c, b)])
        else geom_triangles st !! m'.
Proof.
  unfold add_triangle.
  destruct (dedup (vertex_map st, vertices st) c0) as [vs0 a].
  destruct (dedup vs0 c1) as [vs1 b].
  destruct (dedup vs1 c2) as [vs2 c]. simpl.
  intros m'.
  destruct (geom_triangles st !! m) as [l|] eqn:Hl;
    case_bool_decide as Hm; subst; simpl.
  - rewrite lookup_alter_eq, Hl. reflexivity.
  - rewrite lookup_alter_ne by congruence. reflexivity.
  - rewrite lookup_alter_eq, lookup_insert_eq. reflexivity.
  - rewrite lookup_alter_ne, lookup_insert_ne by congruence. reflexivity.
Qed.

Lemma stored_cons m m0 cs tris a b c more :
  stored m ((m0, cs) :: tris) ((a, b, c) :: more) =
  (if bool_decide (m0 = m) then [(a, c, b)] else []) ++ stored m tris more.
Proof. unfold stored. simpl. case_bool_decide; reflexivity. Qed.

Lemma triangle_loop_geom tris : ∀ st m,
  let r := triangle_loop tris st in
  geom_triangles r.1 !! m =
    if bool_decide (m ∈ tris.*1)
    then Some (default [] (geom_triangles st !! m) ++ stored m tris r.2)
    else geom_triangles st !! m.
Proof.
  induction tris as [|[m0 [[c0 c1] c2]] tris IH]; intros st m.
  - cbn. case_bool_decide as H; [apply elem_of_nil in H; contradiction|].
    reflexivity.
  - cbn [triangle_loop].
    pose proof (add_triangle_geom st m0 c0 c1 c2) as Hadd.
    destruct (add_triangle st m0 c0 c1 c2) as [st1 [[a b] c]].
    cbn [fst snd] in Hadd.
    specialize (IH st1 m). cbv zeta in IH.
    destruct (triangle_loop tris st1) as [st2 more].
    cbn [fst snd] in *. rewrite IH, Hadd, stored_cons, fmap_cons.
    cbn [fst].
    destruct (decide (m = m0)) as [->|Hne].
    + rewrite !(bool_decide_eq_true_2 (m0 = m0)) by reflexivity.
      rewrite (bool_decide_eq_true_2 (m0 ∈ m0 :: _)) by set_solver.
      case_bool_decide as Hin; simpl; unfold Datatypes.id;
        rewrite <- ?app_assoc; [reflexivity|].
      do 3 f_equal. clear -Hin. revert more.
      induction tris as [|[m1 cs1] tris IHt]; intros [|[[a b] c] more];
        try reflexivity.
      rewrite stored_cons. rewrite bool_decide_eq_false_2 by set_solver.
      apply IHt. set_solver.
    + rewrite !(bool_decide_eq_false_2 (m = m0)) by exact Hne.
      rewrite (bool_decide_eq_false_2 (m0 = m)) by congruence.
      cbn [app].
      destruct (decide (m ∈ tris.*1)) as [Hin|Hnin].
      * rewrite !bool_decide_eq_true_2 by set_solver. reflexivity.
      * rewrite !bool_decide_eq_false_2 by set_solver. reflexivity.
Qed.

Lemma hash_key_fields (v w : IntermediateVertex) :
  hash_key v = hash_key w ↔
  position v = position w ∧ normal v = normal w ∧ uv v = uv w
  ∧ uv2 v = uv2 w ∧ color v = color w.
Proof.
  unfold hash_key. split.
  - intros [= -> -> -> -> ->]. auto.
  - intros (-> & -> & -> & -> & ->). reflexivity.
Qed.

(** C2. The loop gives two corners the same vertex index exactly when
    their candidate records agree on position, normal, uv, uv2 and colour
    (so weights, bone indices, tangent and the source index play no part),
    and the vertex stored at that index is the first corner, in loop
    order, that has this key. *)
Theorem dedup_same_index_iff_same_key (cts : list corner_triangle) :
  let cs := cts ≫= corners_of in
  let r := triangle_loop cts init_state in
  let xs := r.2 ≫= indices_of in
  length xs = length cs ∧
  ∀ i j ci cj xi xj,
    cs !! i = Some ci → cs !! j = Some cj →
    xs !! i = Some xi → xs !! j = Some xj →
    (xi = xj ↔
     position ci = position cj ∧ normal ci = normal cj ∧ uv ci = uv cj
     ∧ uv2 ci = uv2 cj ∧ color ci = color cj) ∧
    ∃ n f v, xi = Z.of_nat n ∧ vertices r.1 !! n = Some v ∧
             list_find (λ c, hash_key c = hash_key ci) cs = Some (f, v).
Proof.
  intros cs r xs.
  destruct (triangle_loop_dedup cts init_state) as [Hst Hxs].
  fold r in Hst, Hxs. fold xs in Hxs. fold cs in Hst, Hxs.
  cbn [init_state vertex_map vertices] in Hst, Hxs.
  destruct (dedup_list cs (∅, [])) as [vs' xs'] eqn:Hrun.
  cbn [fst snd] in Hst, Hxs. subst xs'.
  destruct (dedup_list_spec cs [] (∅, []) vs' xs consistent_init Hrun)
    as ((Hmap & _ & Hfirst) & Hlen & _ & Hidx).
  rewrite app_nil_l in Hfirst.
  split; [exact Hlen|].
  intros i j ci cj xi xj Hci Hcj Hxi Hxj.
  destruct (Hidx i ci xi Hci Hxi) as (ni & vi & -> & Hni & Hki).
  destruct (Hidx j cj xj Hcj Hxj) as (nj & vj & -> & Hnj & Hkj).
  assert (Hvs : vertices r.1 = vs'.2) by (rewrite <- Hst; reflexivity).
  split.
  - rewrite <- hash_key_fields. split.
    + intros Heq. apply Nat2Z.inj in Heq. subst nj.
      rewrite Hni in Hnj. injection Hnj as <-. congruence.
    + intros Heq.
      assert (vs'.1 !! hash_key ci = Some (Z.of_nat ni)) as H1
        by (apply Hmap; eauto).
      assert (vs'.1 !! hash_key ci = Some (Z.of_nat nj)) as H2
        by (apply Hmap; exists nj, vj; rewrite Heq; auto).
      congruence.
  - destruct (Hfirst ni vi Hni) as [f Hf].
    exists ni, f, vi. split_and!; [reflexivity|rewrite Hvs; exact Hni|].
    erewrite list_find_ext; [exact Hf|].
    intros c. simpl. rewrite Hki. reflexivity.
Qed.

(** C3. For the k-th input triangle, of material slot [m], whose corners
    deduplicate in corner order to [(a, b, c)], the model has a geometry
    for slot [m] whose one LOD level holds the index triples of the
    slot's triangles in input order with second and third index
    exchanged; in particular it holds [(a, c, b)]. *)
Theorem winding_second_third_swapped
    (settings : ExportSettings) (bone_weights_lookup : weight_lookup)
    (mat_names : list (option string)) (mesh_triangles : list LoopTriangle) :
  let cts := candidates settings bone_weights_lookup <$> mesh_triangles in
  let r := triangle_loop cts init_state in
  let model :=
    decompose_triangles settings bone_weights_lookup mat_names mesh_triangles in
  length r.2 = length cts ∧
  ∀ k m cs a b c,
    cts !! k = Some (m, cs) → r.2 !! k = Some (a, b, c) →
    (a, c, b) ∈ stored m cts r.2 ∧
    ∃ g, g ∈ model.2 ∧ material_index g = m ∧
         lod_levels g = [ {| distance := 0; triangles := stored m cts r.2 |} ].
Proof.
  intros cts r model.
  split; [apply triangle_loop_length|].
  intros k m cs a b c Hk Htr.
  assert (Hin : m ∈ cts.*1).
  { apply list_elem_of_fmap. exists (m, cs). split; [reflexivity|].
    eapply list_elem_of_lookup_2; eauto. }
  pose proof (triangle_loop_geom cts init_state m) as Hg.
  fold r in Hg. cbv zeta in Hg.
  rewrite bool_decide_eq_true_2 in Hg by exact Hin.
  cbn [init_state geom_triangles] in Hg. rewrite lookup_empty in Hg.
  cbn [default app] in Hg. simpl in Hg.
  split.
  - unfold stored. apply list_elem_of_omap.
    exists ((m, cs), (a, b, c)). split.
    + apply list_elem_of_lookup. exists k.
      apply lookup_zip_with_Some. eauto.
    + simpl. rewrite bool_decide_eq_true_2 by reflexivity. reflexivity.
  - eexists. split_and!.
    + unfold model, decompose_triangles, build_geometries. cbn [snd].
      fold cts. fold r.
      apply list_elem_of_fmap. exists m. split; [reflexivity|].
      rewrite merge_sort_Permutation. apply elem_of_elements, elem_of_dom.
      rewrite Hg. eauto.
    + reflexivity.
    + cbn [lod_levels]. rewrite (lookup_total_correct _ _ _ Hg). reflexivity.
Qed.

(** *** Bone weights *)


Lemma insert_desc_perm x l : insert_desc x l ≡ₚ x :: l.
Proof.
  induction l as [|y l IH]; simpl; [reflexivity|].
  case_bool_decide; [reflexivity|].
  rewrite IH. apply Permutation_swap.
Qed.

Lemma sort_desc_perm l : sort_desc l ≡ₚ l.
Proof.
  induction l as [|x l IH]; simpl; [reflexivity|].
  rewrite insert_desc_perm, IH. reflexivity.
Qed.









Lemma collect_weights_positive g2b gs :
  Forall (λ p, 0 < p.1)%Qc (collect_weights g2b gs).
Proof.
  apply Forall_forall. intros p Hp.
  apply list_elem_of_omap in Hp as (g & _ & Hg).
  destruct (g2b !! group g); [|discriminate].
  case_bool_decide as Hw; [|discriminate].
  injection Hg as <-. simpl.
  eapply Qclt_trans; [|exact Hw]. reflexivity.
Qed.



(** *** Worked examples *)

Definition ex_vertex (x y z : Z) (bw : option (list Qc)) : IntermediateVertex :=
  {| position := (Q2Qc (inject_Z x), Q2Qc (inject_Z y), Q2Qc (inject_Z z));
     normal := Some (Q2Qc 0, Q2Qc 1, Q2Qc 0);
     uv := None; uv2 := None; tangent := None; color := None;
     bone_weights := bw; bone_indices := None; blender_index := None |}.

(** A quad of two triangles in slot 0 that share two corners; the shared
    corner of the second triangle carries different bone weights. *)
Definition ex_quad : list corner_triangle :=
  [ (0%Z, (ex_vertex 0 0 0 None, ex_vertex 1 0 0 None, ex_vertex 1 0 1 None));
    (0%Z, (ex_vertex 0 0 0 (Some [Q2Qc 1]), ex_vertex 1 0 1 None,
           ex_vertex 0 0 1 None)) ].

Example ex_quad_indices :
  (triangle_loop ex_quad init_state).2 = [(0, 1, 2); (0, 2, 3)]%Z
  ∧ length (vertices (triangle_loop ex_quad init_state).1) = 4%nat
  ∧ geom_triangles (triangle_loop ex_quad init_state).1 !! 0%Z
    = Some [(0, 2, 1); (0, 3, 2)]%Z.
Proof. vm_compute. auto. Qed.

(** The deduplication theorem at corner 0 and corner 3 of the quad: same
    key (the bone weights differ), same index. *)
Lemma dedup_same_index_iff_same_key_witness :
  ∃ x0 x3,
    ((triangle_loop ex_quad init_state).2 ≫= indices_of) !! 0%nat = Some x0 ∧
    ((triangle_loop ex_quad init_state).2 ≫= indices_of) !! 3%nat = Some x3 ∧
    x0 = x3.
Proof.
  exists 0%Z, 0%Z. split; [reflexivity|]. split; [reflexivity|].
  apply (proj2 (dedup_same_index_iff_same_key ex_quad) 0%nat 3%nat
           (ex_vertex 0 0 0 None) (ex_vertex 0 0 0 (Some [Q2Qc 1])) 0%Z 0%Z
           eq_refl eq_refl eq_refl eq_refl).
  repeat split.
Defined.

Definition ex_mesh : list LoopTriangle :=
  let l x y z :=
    {| vert_idx := x + 2 * z;
       co := (Q2Qc (inject_Z x), Q2Qc (inject_Z y), Q2Qc (inject_Z z));
       corner_normal := (Q2Qc 0, Q2Qc 0, Q2Qc 1);
       loop_uv := None; loop_uv2 := None; loop_color := None |} in
  [ {| tri_material_index := 0; loops := (l 0 0 0, l 1 0 0, l 1 1 0)%Z |};
    {| tri_material_index := 1; loops := (l 0 0 0, l 1 1 0, l 0 1 0)%Z |} ].

Definition ex_settings : ExportSettings :=
  {| scale := Q2Qc 1; export_normal := true |}.

(** The winding theorem at the second triangle of [ex_mesh]. *)
Lemma winding_second_third_swapped_witness :
  (0, 3, 2)%Z ∈ stored 1
     (candidates ex_settings ∅ <$> ex_mesh)
     (triangle_loop (candidates ex_settings ∅ <$> ex_mesh) init_state).2.
Proof.
  refine (proj1 (proj2 (winding_second_third_swapped ex_settings ∅ [] ex_mesh)
            1%nat 1%Z _ 0%Z 2%Z 3%Z eq_refl _)).
  vm_compute. reflexivity.
Defined.

Definition ex_bones : list string := ["root"; "arm"; "hand"; "f1"; "f2"].

Definition ex_groups : list VertexGroup :=
  [ {| vg_name := "arm"; vg_index := 0 |};
    {| vg_name := "cloth"; vg_index := 1 |};
    {| vg_name := "root"; vg_index := 2 |};
    {| vg_name := "hand"; vg_index := 3 |};
    {| vg_name := "f1"; vg_index := 4 |};
    {| vg_name := "f2"; vg_index := 5 |} ].

Definition ex_weighted : list MeshVertex :=
  [ {| mv_index := 7;
       groups :=
         [ {| group := 0; weight := Q2Qc (1 # 10) |};
           {| group := 1; weight := Q2Qc (9 # 10) |};
           {| group := 2; weight := Q2Qc (1 # 2) |};
           {| group := 3; weight := Q2Qc (1 # 20) |};
           {| group := 4; weight := Q2Qc (1 # 5) |};
           {| group := 5; weight := Q2Qc (1 # 10) |} ] |};
    {| mv_index := 8;
       groups := [ {| group := 1; weight := Q2Qc 1 |} ] |} ].

Example ex_weighted_entry :
  (λ e : list Qc * list Z, (this <$> e.1, e.2)) <$>
    (_build_bone_weights (Some ex_bones) ex_groups ex_weighted !! 7%Z)
  = Some ([5 # 9; 2 # 9; 1 # 9; 1 # 9]%Q, [0; 3; 1; 4]%Z)
  ∧ _build_bone_weights (Some ex_bones) ex_groups ex_weighted !! 8%Z = None.
Proof. vm_compute. auto. Qed.


End Decompose.

(** ** core/logging.py *)

Module Logging.

Inductive level := INFO | WARNING | ERROR | CRITICAL.

(** [_messages] is the capped list shown in the UI; [_logger] is the
    stream of records handed to Python's [logging]. *)
Record ExportLogger := {
  max_messages : nat;
  _messages : list (level * string);
  _logger : list (level * string)
}.

Definition new_logger : ExportLogger :=
  {| max_messages := 500; _messages := []; _logger := [] |}.

Definition _log (lvl : level) (msg : string) (self : ExportLogger)
    : ExportLogger :=
  {| max_messages := max_messages self;
     _messages := if (length (_messages self) <? max_messages self)%nat
                  then _messages self ++ [(lvl, msg)]
                  else _messages self;
     _logger := _logger self ++ [(lvl, msg)] |}.

Definition info := _log INFO.
Definition warning := _log WARNING.
Definition error := _log ERROR.
Definition critical := _log CRITICAL.

Definition is_error (l : level) : bool :=
  match l with ERROR | CRITICAL => true | _ => false end.

Definition has_errors (self : ExportLogger) : bool :=
  existsb (λ m, is_error m.1) (_messages self).

End Logging.

(** ** data/urho_model.py and formats/model_writer.py: bone maps *)

Module BoneMaps.
Import PySeq Logging Decompose.

Definition MAX_SKIN_MATRICES : nat := 64.

(** The part of [IntermediateModel] that [_build_bone_maps] reads and
    writes: the name, the shared vertex list, the geometries and the
    number of bones. *)
Record SkinnedModel := {
  name : string;
  model_vertices : list IntermediateVertex;
  geometries : list IntermediateGeometry;
  bone_count : nat
}.

(** Truth value of an optional tuple: [None] and [()] are false. *)
Definition truthy {A} (t : option (list A)) : option (list A) :=
  match t with
  | Some (x :: l) => Some (x :: l)
  | _ => None
  end.

(** The vertex indices a geometry visits, in visiting order: every corner
    of every triangle of every LOD level. *)
Definition corner_indices (geom : IntermediateGeometry) : list Z :=
  lod ← lod_levels geom; tri ← triangles lod; indices_of tri.

(** The bones one vertex adds to [used_bones]. *)
Definition bones_of_vertex (v : IntermediateVertex) : list Z :=
  match truthy (bone_indices v) with
  | Some bis =>
      match truthy (bone_weights v) with
      | Some bws =>
          (zip bis bws) ≫=
            (λ p, if bool_decide (weight_threshold < p.2)%Qc then [p.1] else [])
      | None => bis
      end
  | None => []
  end.

(** The first loop nest of an iteration: [used_bones], or [None] when
    [model.vertices[vi]] raises [IndexError]. *)
Fixpoint collect_used (vs : list IntermediateVertex) (vis : list Z)
    (used : gset Z) : option (gset Z) :=
  match vis with
  | [] => Some used
  | vi :: rest =>
      v ← py_index vs vi;
      collect_used vs rest (list_to_set (bones_of_vertex v) ∪ used)
  end.

(** [remap.get(bi, 0)] for [remap = {global: local}] built from
    [enumerate(bone_list)]. *)
Definition remap_get (bone_list : list Z) (bi : Z) : Z :=
  match list_find (λ g, g = bi) bone_list with
  | Some (local_idx, _) => Z.of_nat local_idx
  | None => 0
  end.

Definition set_bone_indices (v : IntermediateVertex) (new_indices : list Z)
    : IntermediateVertex :=
  {| position := position v; normal := normal v; uv := uv v; uv2 := uv2 v;
     tangent := tangent v; color := color v;
     bone_weights := bone_weights v;
     bone_indices := Some new_indices;
     blender_index := blender_index v |}.

(** The second loop nest: every visit of a vertex rewrites its
    [bone_indices] in the shared vertex list. *)
Fixpoint remap_vertices (bone_list : list Z) (vis : list Z)
    (vs : list IntermediateVertex) : option (list IntermediateVertex) :=
  match vis with
  | [] => Some vs
  | vi :: rest =>
      v ← py_index vs vi;
      vs' ← match truthy (bone_indices v) with
            | Some bis =>
                py_store vs vi (set_bone_indices v (remap_get bone_list <$> bis))
            | None => Some vs
            end;
      remap_vertices bone_list rest vs'
  end.

Definition over_limit_message (m : SkinnedModel) : string :=
  "Model '" +:+ name m +:+ "' has " +:+ pretty (bone_count m)
  +:+ " bones, exceeding limit of " +:+ pretty MAX_SKIN_MATRICES
  +:+ ". Remapping per geometry.".

Definition truncate_message (m : SkinnedModel) (gi n : nat) : string :=
  "Geometry " +:+ pretty gi +:+ " of '" +:+ name m +:+ "' uses "
  +:+ pretty n +:+ " bones, truncating to " +:+ pretty MAX_SKIN_MATRICES.

(** The state of [for gi, geom in enumerate(model.geometries)]. *)
Record MapState := {
  result : gmap nat (list Z);
  store : list IntermediateVertex;
  log : ExportLogger
}.

(** One iteration of the loop over the geometries. *)
Definition geometry_step (m : SkinnedModel) (st : MapState)
    (gi : nat) (geom : IntermediateGeometry) : option MapState :=
  let vis := corner_indices geom in
  used_bones ← collect_used (store st) vis ∅;
  let bone_list := merge_sort Z.le (elements used_bones) in
  let over := bool_decide (MAX_SKIN_MATRICES < length bone_list)%nat in
  let log' := if over
              then warning (truncate_message m gi (length bone_list)) (log st)
              else log st in
  let bone_list := if over then take MAX_SKIN_MATRICES bone_list
                   else bone_list in
  store' ← remap_vertices bone_list vis (store st);
  Some {| result := <[gi := bone_list]> (result st);
          store := store'; log := log' |}.

Fixpoint geometry_loop (m : SkinnedModel) (st : MapState) (gi : nat)
    (geoms : list IntermediateGeometry) : option MapState :=
  match geoms with
  | [] => Some st
  | geom :: rest =>
      st' ← geometry_step m st gi geom;
      geometry_loop m st' (S gi) rest
  end.

(** [_build_bone_maps(model, log)]: the returned dictionary, the vertex
    list after the call and the logger; [None] is an [IndexError]. *)
Definition _build_bone_maps (m : SkinnedModel) (lg : ExportLogger)
    : option MapState :=
  if bool_decide (bone_count m ≤ MAX_SKIN_MATRICES)%nat then
    let bone_list := py_range (Z.of_nat (bone_count m)) in
    Some {| result :=
              list_to_map ((λ gi, (gi, bone_list))
                           <$> seq 0 (length (geometries m)));
            store := model_vertices m;
            log := lg |}
  else
    geometry_loop m
      {| result := ∅; store := model_vertices m;
         log := warning (over_limit_message m) lg |}
      0 (geometries m).

(** The global bone indices a geometry uses, read from the vertices as
    they are when [_build_bone_maps] is called. *)
Definition used_global_bones (m : SkinnedModel) (geom : IntermediateGeometry)
    : option (list Z) :=
  used ← collect_used (model_vertices m) (corner_indices geom) ∅;
  Some (merge_sort Z.le (elements used)).


(** *** What holds of the tables *)

(** Every corner index of the geometry is a valid index into a vertex
    list of length [n]. *)
Definition valid_corners (n : nat) (geom : IntermediateGeometry) : Prop :=
  Forall (λ vi, - Z.of_nat n ≤ vi < Z.of_nat n)%Z (corner_indices geom).

Lemma collect_used_total vs vis : ∀ used,
  Forall (λ vi, - Z.of_nat (length vs) ≤ vi < Z.of_nat (length vs))%Z vis →
  is_Some (collect_used vs vis used).
Proof.
  induction vis as [|vi vis IH]; intros used Hall; simpl; [eauto|].
  inversion Hall as [|? ? Hvi Hrest]; subst.
  destruct (py_index_valid vs vi Hvi) as [v ->]. simpl. apply IH, Hrest.
Qed.

Lemma remap_vertices_total bone_list vis : ∀ vs,
  Forall (λ vi, - Z.of_nat (length vs) ≤ vi < Z.of_nat (length vs))%Z vis →
  ∃ vs', remap_vertices bone_list vis vs = Some vs' ∧ length vs' = length vs.
Proof.
  induction vis as [|vi vis IH]; intros vs Hall; simpl; [eauto|].
  inversion Hall as [|? ? Hvi Hrest]; subst.
  destruct (py_index_valid vs vi Hvi) as [v ->]. simpl.
  destruct (truthy (bone_indices v)) as [bis|].
  - destruct (py_store_valid vs vi
                (set_bone_indices v (remap_get bone_list <$> bis)) Hvi)
      as (vs1 & -> & Hlen). simpl.
    destruct (IH vs1) as (vs' & -> & Hlen'); [rewrite Hlen; exact Hrest|].
    exists vs'. split; [reflexivity|congruence].
  - simpl. apply IH, Hrest.
Qed.

Lemma geometry_loop_total m geoms : ∀ st gi,
  Forall (valid_corners (length (store st))) geoms →
  ∃ st', geometry_loop m st gi geoms = Some st' ∧
    (∀ k t, result st' !! k = Some t →
            result st !! k = Some t ∨ (length t ≤ MAX_SKIN_MATRICES)%nat) ∧
    (∀ k, (gi ≤ k < gi + length geoms)%nat → is_Some (result st' !! k)).
Proof.
  induction geoms as [|g geoms IH]; intros st gi Hall; simpl.
  - exists st. split_and!; [reflexivity|auto|]. intros k Hk. lia.
  - inversion Hall as [|? ? Hg Hrest]; subst.
    unfold geometry_step.
    destruct (collect_used_total (store st) (corner_indices g) ∅ Hg)
      as [used ->]. simpl.
    set (sorted := merge_sort Z.le (elements used)).
    set (over := bool_decide (MAX_SKIN_MATRICES < length sorted)%nat).
    set (table := if over then take MAX_SKIN_MATRICES sorted else sorted).
    destruct (remap_vertices_total table (corner_indices g) (store st) Hg)
      as (vs' & -> & Hlen). simpl.
    match goal with
    | |- context [geometry_loop m ?s (S gi) geoms] =>
        destruct (IH s (S gi)) as (st' & Hrun & Hold & Hnew);
          [simpl; rewrite Hlen; exact Hrest|]
    end.
    exists st'. split_and!; [exact Hrun| |].
    + intros k t Hk. destruct (Hold k t Hk) as [Hin|Hle]; [|auto].
      simpl in Hin. destruct (decide (gi = k)) as [<-|Hne].
      * rewrite lookup_insert_eq in Hin. injection Hin as <-. right.
        subst table over. case_bool_decide as Hov.
        -- rewrite length_take. lia.
        -- lia.
      * rewrite lookup_insert_ne in Hin by exact Hne. auto.
    + intros k Hk. destruct (decide (k = gi)) as [->|Hne].
      * destruct (result st' !! gi) as [t|] eqn:Ht; [eauto|].
        exfalso. clear -Hrun Ht.
        assert (Hkeep : ∀ gs s j s', geometry_loop m s j gs = Some s' →
                  ∀ k, is_Some (result s !! k) → is_Some (result s' !! k)).
        { induction gs as [|g' gs IHg]; intros s j s' Hr k Hk; simpl in Hr.
          - injection Hr as <-. exact Hk.
          - destruct (geometry_step m s j g') as [s1|] eqn:Hs; [|discriminate].
            simpl in Hr. eapply IHg; [exact Hr|].
            unfold geometry_step in Hs.
            destruct (collect_used _ _ _); [|discriminate]. simpl in Hs.
            destruct (remap_vertices _ _ _); [|discriminate]. simpl in Hs.
            injection Hs as <-. simpl.
            destruct (decide (j = k)) as [->|Hjk].
            + rewrite lookup_insert_eq. eauto.
            + rewrite lookup_insert_ne by exact Hjk. exact Hk. }
        specialize (Hkeep _ _ _ _ Hrun gi). simpl in Hkeep.
        rewrite lookup_insert_eq, Ht in Hkeep.
        destruct Hkeep as [? ?]; [eauto|discriminate].
      * apply Hnew. simpl in Hk. lia.
Qed.

(** With valid triangle indices [_build_bone_maps] returns (it never
    aborts); every geometry gets a table; with at most 64 bones the table
    is the identity list and nothing is logged; with more than 64 bones
    every table has at most 64 entries. *)
Lemma build_bone_maps_tables (m : SkinnedModel) (lg : ExportLogger) :
  Forall (valid_corners (length (model_vertices m))) (geometries m) →
  ∃ st, _build_bone_maps m lg = Some st ∧
    (∀ gi, (gi < length (geometries m))%nat → is_Some (result st !! gi)) ∧
    ((bone_count m ≤ MAX_SKIN_MATRICES)%nat →
     log st = lg ∧ store st = model_vertices m ∧
     ∀ gi t, result st !! gi = Some t →
             t = py_range (Z.of_nat (bone_count m))) ∧
    ((MAX_SKIN_MATRICES < bone_count m)%nat →
     ∀ gi t, result st !! gi = Some t → (length t ≤ MAX_SKIN_MATRICES)%nat).
Proof.
  intros Hvalid. unfold _build_bone_maps. case_bool_decide as Hn.
  - eexists. split; [reflexivity|]. simpl. split_and!.
    + intros gi Hgi. apply elem_of_dom. rewrite dom_list_to_map_L.
      rewrite <- list_fmap_compose. apply elem_of_list_to_set.
      apply list_elem_of_fmap. exists gi. split; [reflexivity|].
      apply elem_of_seq. lia.
    + intros _. split_and!; [reflexivity..|].
      intros gi t Ht. apply elem_of_list_to_map_2 in Ht.
      apply list_elem_of_fmap in Ht as (k & [= -> ->] & _). reflexivity.
    + intros Hlt. lia.
  - match goal with
    | |- context [geometry_loop m ?s 0 _] =>
        destruct (geometry_loop_total m (geometries m) s 0 Hvalid)
          as (st & Hrun & Hold & Hnew)
    end.
    exists st. split_and!; [exact Hrun| | |].
    + intros gi Hgi. apply Hnew. lia.
    + intros Hle. lia.
    + intros _ gi t Ht. destruct (Hold gi t Ht) as [Hin|Hle]; [|exact Hle].
      simpl in Hin. rewrite lookup_empty in Hin. discriminate.
Qed.

Lemma geometry_loop_below m geoms : ∀ st gi st',
  geometry_loop m st gi geoms = Some st' →
  ∀ k, (k < gi)%nat → result st' !! k = result st !! k.
Proof.
  induction geoms as [|g geoms IH]; intros st gi st' Hrun k Hk; simpl in Hrun.
  - injection Hrun as <-. reflexivity.
  - destruct (geometry_step m st gi g) as [st1|] eqn:Hs; [|discriminate].
    simpl in Hrun. rewrite (IH _ _ _ Hrun k) by lia.
    unfold geometry_step in Hs.
    destruct (collect_used _ _ _); [|discriminate]. simpl in Hs.
    destruct (remap_vertices _ _ _); [|discriminate]. simpl in Hs.
    injection Hs as <-. simpl. apply lookup_insert_ne. lia.
Qed.

(** With more than 64 bones the table of geometry 0 is the sorted set of
    the global bones of its vertices, cut to 64. *)
Lemma first_geometry_table (m : SkinnedModel) (lg : ExportLogger)
    (g0 : IntermediateGeometry) (rest : list IntermediateGeometry)
    (st : MapState) (used : list Z) :
  (MAX_SKIN_MATRICES < bone_count m)%nat →
  geometries m = g0 :: rest →
  _build_bone_maps m lg = Some st →
  used_global_bones m g0 = Some used →
  result st !! 0%nat = Some (take MAX_SKIN_MATRICES used).
Proof.
  intros Hn Hg Hrun Hused. unfold _build_bone_maps in Hrun.
  rewrite bool_decide_eq_false_2 in Hrun by lia.
  rewrite Hg in Hrun. simpl in Hrun.
  unfold used_global_bones in Hused. unfold geometry_step in Hrun.
  simpl in Hrun.
  destruct (collect_used (model_vertices m) (corner_indices g0) ∅)
    as [u|]; [|discriminate].
  simpl in Hused, Hrun. injection Hused as <-.
  destruct (remap_vertices _ _ _) as [vs'|]; [|discriminate].
  simpl in Hrun. rewrite (geometry_loop_below _ _ _ _ _ Hrun 0%nat) by lia.
  simpl. rewrite lookup_insert_eq. f_equal.
  case_bool_decide as Hov; [reflexivity|].
  symmetry. apply take_ge. lia.
Qed.

(** *** A model whose geometries share a vertex *)

Definition skinned (bi : Z) : IntermediateVertex :=
  {| position := (Q2Qc 0, Q2Qc 0, Q2Qc 0);
     normal := None; uv := None; uv2 := None; tangent := None; color := None;
     bone_weights := Some [Q2Qc 1; Q2Qc 0; Q2Qc 0; Q2Qc 0];
     bone_indices := Some [bi; 0; 0; 0]%Z;
     blender_index := None |}.

Definition one_triangle (mat : Z) (t : triangle) : IntermediateGeometry :=
  {| material_name := ""; material_index := mat;
     lod_levels := [ {| distance := 0; triangles := [t] |} ] |}.

(** 65 bones; vertex 0 is weighted to bone 64 and is a corner of both
    geometries. *)
Definition shared_vertex_model : SkinnedModel :=
  {| name := "Body";
     model_vertices := [skinned 64; skinned 0; skinned 0; skinned 0];
     geometries := [one_triangle 0 (0, 1, 2)%Z; one_triangle 1 (0, 2, 3)%Z];
     bone_count := 65 |}.

(** C5, at [shared_vertex_model]: geometry 1 uses the global bones 0 and
    64, but its table is [[0; 1]]: the loop read vertex 0 after the
    iteration of geometry 0 had rewritten its bone index 64 to the local
    index 1. *)
Theorem bone_map_reads_remapped_indices :
  ∃ st, _build_bone_maps shared_vertex_model new_logger = Some st ∧
    result st !! 0%nat = Some [0; 64]%Z ∧
    result st !! 1%nat = Some [0; 1]%Z ∧
    used_global_bones shared_vertex_model (one_triangle 1 (0, 2, 3)%Z)
      = Some [0; 64]%Z.
Proof.
  eexists. split; [vm_compute; reflexivity|].
  vm_compute. auto.
Qed.

End BoneMaps.

(** ** formats/binary_writer.py, formats/model_writer.py and
       formats/animation_writer.py *)

Module Formats.
Import PySeq Logging Decompose.

(** Python exceptions that the writers can meet. *)
Inductive exn :=
  | StructError | OverflowError | TypeError | IndexError | OSError.


(** A byte is a [Z] in [0, 256). *)
Abbreviation bytes := (list Z).

(** *** [BinaryWriter]: every method appends to [self._buffer] or raises *)

Definition W (A : Type) : Type := bytes → exn + (A * bytes).

Definition w_ret {A} (a : A) : W A := λ buf, inr (a, buf).

Definition w_raise {A} (e : exn) : W A := λ _, inl e.

Definition w_bind {A B} (m : W A) (k : A → W B) : W B :=
  λ buf, match m buf with
         | inl e => inl e
         | inr (a, buf') => k a buf'
         end.

Notation "m ;; k" := (w_bind m (λ _, k))
  (at level 100, k at level 200, right associativity).

(** [self._buffer.extend(bs)]. *)
Definition extend (bs : bytes) : W unit := λ buf, inr (tt, buf ++ bs).

Definition when (b : bool) (m : W unit) : W unit := if b then m else w_ret tt.

(** [for x in l: body(x)]. *)
Fixpoint for_each {A} (l : list A) (body : A → W unit) : W unit :=
  match l with
  | [] => w_ret tt
  | x :: rest => body x ;; for_each rest body
  end.

(** A value that must not be [None] where it is subscripted. *)
Definition required {A} (o : option A) (k : A → W unit) : W unit :=
  match o with
  | Some a => k a
  | None => w_raise TypeError
  end.

(** The [n] low bytes of [v], least significant first. *)
Definition le_bytes (n : nat) (v : Z) : bytes :=
  (λ k, (v / 256 ^ Z.of_nat k) mod 256)%Z <$> seq 0 n.

(** [struct.pack] of an unsigned integer of [n] bytes: [struct.error]
    outside the range. *)
Definition pack_unsigned (n : nat) (v : Z) : W unit :=
  if bool_decide (0 ≤ v < 256 ^ Z.of_nat n)%Z
  then extend (le_bytes n v) else w_raise StructError.

(** [s.encode('ascii', errors='replace')]. *)
Fixpoint encode_ascii (s : string) : bytes :=
  match s with
  | EmptyString => []
  | String c s' =>
      let n := Z.of_nat (nat_of_ascii c) in
      (if bool_decide (n < 128)%Z then n else 63%Z) :: encode_ascii s'
  end.

Abbreviation matrix3x4 := (vec4 * vec4 * vec4)%type.

(** The file system: the content of each path that exists. *)
Abbreviation files := (gmap string bytes).

Section Writer.

(** [struct.pack('<f', x)]: the four bytes of the single-precision value,
    or [None] for the [OverflowError] of a value too large for it. *)
Variable pack_float : Qc → option bytes.

(** Whether [open(filepath, 'wb')] succeeds. *)
Variable can_open : string → bool.

Definition write_ascii (s : string) : W unit := extend (encode_ascii s).
Definition write_uint (v : Z) : W unit := pack_unsigned 4 v.
Definition write_ushort (v : Z) : W unit := pack_unsigned 2 v.
Definition write_ubyte (v : Z) : W unit := pack_unsigned 1 v.
Definition write_cstring (s : string) : W unit := write_ascii s ;; write_ubyte 0.

Definition write_float (v : Qc) : W unit :=
  match pack_float v with
  | Some bs => extend bs
  | None => w_raise OverflowError
  end.

(** [struct.pack('<kf', ...)] packs all of its arguments before anything
    is appended. *)
Definition write_floats (vs : list Qc) : W unit :=
  match mapM pack_float vs with
  | Some bss => extend (concat bss)
  | None => w_raise OverflowError
  end.

Definition write_vector3 (v : vec3) : W unit :=
  let '(x, y, z) := v in write_floats [x; y; z].
Definition write_vector2 (v : vec2) : W unit :=
  let '(x, y) := v in write_floats [x; y].
Definition write_quaternion (w x y z : Qc) : W unit := write_floats [w; x; y; z].

Definition write_color_ubyte4 (r g b a : Z) : W unit :=
  if forallb (λ v, bool_decide (0 ≤ v < 256)%Z) [r; g; b; a]
  then extend [r; g; b; a] else w_raise StructError.

Definition write_matrix3x4 (m : matrix3x4) : W unit :=
  let '(r0, r1, r2) := m in
  for_each [r0; r1; r2]
    (λ row, let '(a, b, c, d) := row in
            write_float a ;; write_float b ;; write_float c ;; write_float d).




(** *** Element masks (data/urho_model.py) *)

Definition ELEMENT_POSITION : Z := 0x0001.
Definition ELEMENT_NORMAL : Z := 0x0002.
Definition ELEMENT_COLOR : Z := 0x0004.
Definition ELEMENT_UV1 : Z := 0x0008.
Definition ELEMENT_UV2 : Z := 0x0010.
Definition ELEMENT_TANGENT : Z := 0x0080.
Definition ELEMENT_BWEIGHTS : Z := 0x0100.
Definition ELEMENT_BINDICES : Z := 0x0200.
Definition ELEMENT_BLEND : Z := Z.lor ELEMENT_BWEIGHTS ELEMENT_BINDICES.
Definition TRACK_POSITION : Z := 0x01.
Definition TRACK_ROTATION : Z := 0x02.
Definition TRACK_SCALE : Z := 0x04.
Definition PRIMITIVE_TRIANGLE_LIST : Z := 0.
Definition MODEL_MAGIC : string := "UMDL".
Definition ANIMATION_MAGIC : string := "UANI".

Definition flag (b : bool) (bit : Z) (mask : Z) : Z :=
  if b then Z.lor mask bit else mask.

Definition compute_element_mask
    (has_position has_normal has_color has_uv1 has_uv2 has_tangent
     has_weights : bool) : Z :=
  flag has_weights ELEMENT_BLEND
    (flag has_tangent ELEMENT_TANGENT
      (flag has_uv2 ELEMENT_UV2
        (flag has_uv1 ELEMENT_UV1
          (flag has_color ELEMENT_COLOR
            (flag has_normal ELEMENT_NORMAL
              (flag has_position ELEMENT_POSITION 0)))))).

(** [mask & bit] as a truth value. *)
Definition has_bit (mask bit : Z) : bool := negb (Z.land mask bit =? 0)%Z.

(** *** The model (data/intermediate.py) *)

Record IntermediateMorphVertex := {
  vertex_index : Z;
  position_delta : vec3;
  normal_delta : option vec3;
  tangent_delta : option vec3
}.

Record IntermediateMorph := {
  morph_name : string;
  morph_vertices : list IntermediateMorphVertex
}.

Record IntermediateBone := {
  bone_name : string;
  parent_index : Z;
  bind_position : vec3;
  bind_rotation : vec4;
  bind_scale : vec3;
  inverse_bind_matrix : option matrix3x4;
  collision_mask : Z;
  bounding_sphere_radius : Qc;
  bounding_box_min : option vec3;
  bounding_box_max : option vec3
}.

Record IntermediateModel := {
  name : string;
  model_vertices : list IntermediateVertex;
  geometries : list IntermediateGeometry;
  morphs : list IntermediateMorph;
  bones : list IntermediateBone;
  bbox_min : vec3;
  bbox_max : vec3
}.

(** [_compute_bone_bounds(model, log)], which fills the bounds of the
    bones before the [try] block is entered; it takes square roots and is
    not embedded: the writer below works for any such function. *)
Variable _compute_bone_bounds :
  IntermediateModel → ExportLogger → exn + (list IntermediateBone * ExportLogger).

(** *** [write_model] *)

(** What the statements before the [try] block compute. *)
Record Prepared := {
  p_vertices : list IntermediateVertex;
  p_bones : list IntermediateBone;
  has_normal : bool;
  has_uv1 : bool;
  has_uv2 : bool;
  has_color : bool;
  has_tangent : bool;
  has_weights : bool;
  element_mask : Z;
  bone_maps : gmap nat (list Z);
  all_indices : list Z;
  geom_lod_ranges : list (list (Z * Z));
  vertex_count : Z;
  use_32bit : bool;
  morph_start : Z;
  morph_count : Z
}.

(** The flat index buffer and the [(start, count)] of every LOD level. *)
Fixpoint lod_ranges (lods : list IntermediateLodLevel) (all : list Z)
    : list Z * list (Z * Z) :=
  match lods with
  | [] => (all, [])
  | lod :: rest =>
      let start := Z.of_nat (length all) in
      let all' := all ++ (triangles lod ≫= indices_of) in
      let '(all'', more) := lod_ranges rest all' in
      (all'', (start, Z.of_nat (length all') - start)%Z :: more)
  end.

Fixpoint geometry_ranges (geoms : list IntermediateGeometry) (all : list Z)
    : list Z * list (list (Z * Z)) :=
  match geoms with
  | [] => (all, [])
  | geom :: rest =>
      let '(all', ranges) := lod_ranges (lod_levels geom) all in
      let '(all'', more) := geometry_ranges rest all' in
      (all'', ranges :: more)
  end.

(** [min(affected)] and [max(affected) - morph_start + 1], or [(0, 0)]. *)
Definition morph_range (ms : list IntermediateMorph) : Z * Z :=
  match ms ≫= (λ m, vertex_index <$> morph_vertices m) with
  | [] => (0, 0)%Z
  | i :: rest =>
      let lo := foldl Z.min i rest in
      let hi := foldl Z.max i rest in
      (lo, hi - lo + 1)%Z
  end.

Definition prepare (model : IntermediateModel) (v0 : IntermediateVertex)
    (lg : ExportLogger) : exn + (Prepared * ExportLogger) :=
  let has_normal := bool_decide (is_Some (normal v0)) in
  let has_uv1 := bool_decide (is_Some (uv v0)) in
  let has_uv2 := bool_decide (is_Some (uv2 v0)) in
  let has_color := bool_decide (is_Some (color v0)) in
  let has_tangent := bool_decide (is_Some (tangent v0)) in
  let has_weights := bool_decide (is_Some (bone_weights v0)) in
  let mask := compute_element_mask true has_normal has_color has_uv1
                has_uv2 has_tangent has_weights in
  let bounded :=
    match bones model with
    | [] => inr ([], lg)
    | _ => _compute_bone_bounds model lg
    end in
  match bounded with
  | inl e => inl e
  | inr (bones', lg) =>
      let mapped :=
        match bones model with
        | [] => Some {| BoneMaps.result := ∅;
                        BoneMaps.store := model_vertices model;
                        BoneMaps.log := lg |}
        | _ => BoneMaps._build_bone_maps
                 {| BoneMaps.name := name model;
                    BoneMaps.model_vertices := model_vertices model;
                    BoneMaps.geometries := geometries model;
                    BoneMaps.bone_count := length (bones model) |} lg
        end in
      match mapped with
      | None => inl IndexError
      | Some st =>
          let '(all, ranges) := geometry_ranges (geometries model) [] in
          let n := Z.of_nat (length (model_vertices model)) in
          let '(start, count) := morph_range (morphs model) in
          inr ({| p_vertices := BoneMaps.store st;
                  p_bones := bones';
                  has_normal := has_normal; has_uv1 := has_uv1;
                  has_uv2 := has_uv2; has_color := has_color;
                  has_tangent := has_tangent; has_weights := has_weights;
                  element_mask := mask;
                  bone_maps := BoneMaps.result st;
                  all_indices := all;
                  geom_lod_ranges := ranges;
                  vertex_count := n;
                  use_32bit := bool_decide (65535 < n)%Z;
                  morph_start := start;
                  morph_count := count |}, BoneMaps.log st)
      end
  end.

(** [seq[i] if i < len(seq) else d] for [i] in [range(4)]. *)
Definition four {A} (d : A) (l : list A) : list A :=
  (λ i, default d (l !! i)) <$> seq 0 4.

Definition write_vertex (p : Prepared) (v : IntermediateVertex) : W unit :=
  write_vector3 (position v) ;;
  when (has_normal p) (required (normal v) write_vector3) ;;
  when (has_color p)
    (let '(r, g, b, a) := default (255, 255, 255, 255)%Z (color v) in
     write_color_ubyte4 r g b a) ;;
  when (has_uv1 p) (write_vector2 (default (0, 0)%Qc (uv v))) ;;
  when (has_uv2 p) (write_vector2 (default (0, 0)%Qc (uv2 v))) ;;
  when (has_tangent p)
    (let '(x, y, z, s) := default (0, 0, 0, 1)%Qc (tangent v) in
     write_float x ;; write_float y ;; write_float z ;; write_float s) ;;
  when (has_weights p)
    (for_each (four 0%Qc (default [] (BoneMaps.truthy (bone_weights v))))
       write_float ;;
     for_each (four 0%Z (default [0; 0; 0; 0]%Z
                           (BoneMaps.truthy (bone_indices v))))
       write_ubyte).

Definition write_lod (lod : IntermediateLodLevel) (range : option (Z * Z))
    : W unit :=
  match range with
  | None => w_raise IndexError
  | Some (start, count) =>
      write_float (distance lod) ;;
      write_uint PRIMITIVE_TRIANGLE_LIST ;;
      write_uint 0 ;;
      write_uint 0 ;;
      write_uint start ;;
      write_uint count
  end.

Definition write_geometry (p : Prepared) (gi : nat)
    (geom : IntermediateGeometry) : W unit :=
  match bone_maps p !! gi with
  | Some bmap => write_uint (Z.of_nat (length bmap)) ;; for_each bmap write_uint
  | None => write_uint 0
  end ;;
  write_uint (Z.of_nat (length (lod_levels geom))) ;;
  for_each (imap pair (lod_levels geom))
    (λ q, write_lod q.2 (r ← geom_lod_ranges p !! gi; r !! q.1)).

Definition write_morph (morph : IntermediateMorph) : W unit :=
  write_cstring (morph_name morph) ;;
  write_uint 1 ;;
  write_uint 0 ;;
  let has_morph_normals :=
    existsb (λ mv, bool_decide (is_Some (normal_delta mv)))
            (morph_vertices morph) in
  let has_morph_tangents :=
    existsb (λ mv, bool_decide (is_Some (tangent_delta mv)))
            (morph_vertices morph) in
  let morph_mask :=
    flag has_morph_tangents ELEMENT_TANGENT
      (flag has_morph_normals ELEMENT_NORMAL ELEMENT_POSITION) in
  write_uint morph_mask ;;
  write_uint (Z.of_nat (length (morph_vertices morph))) ;;
  for_each (morph_vertices morph)
    (λ mv,
       write_uint (vertex_index mv) ;;
       write_vector3 (position_delta mv) ;;
       when (has_bit morph_mask ELEMENT_NORMAL)
         (write_vector3 (default (0, 0, 0)%Qc (normal_delta mv))) ;;
       when (has_bit morph_mask ELEMENT_TANGENT)
         (write_vector3 (default (0, 0, 0)%Qc (tangent_delta mv)))).

Definition identity3x4 : matrix3x4 :=
  ((1, 0, 0, 0), (0, 1, 0, 0), (0, 0, 1, 0))%Qc.

Definition write_bone (bone : IntermediateBone) : W unit :=
  write_cstring (bone_name bone) ;;
  write_uint (parent_index bone) ;;
  write_vector3 (bind_position bone) ;;
  (let '(w, x, y, z) := bind_rotation bone in write_quaternion w x y z) ;;
  write_vector3 (bind_scale bone) ;;
  write_matrix3x4 (default identity3x4 (inverse_bind_matrix bone)) ;;
  write_ubyte (collision_mask bone) ;;
  when (has_bit (collision_mask bone) 0x01)
    (write_float (bounding_sphere_radius bone)) ;;
  when (has_bit (collision_mask bone) 0x02)
    (write_vector3 (default (0, 0, 0)%Qc (bounding_box_min bone)) ;;
     write_vector3 (default (0, 0, 0)%Qc (bounding_box_max bone))).

(** [_compute_geometry_center]: the mean position of the distinct vertex
    indices of the geometry; [IndexError] on an index out of range. *)
Fixpoint center_sum (vs : list IntermediateVertex) (idxs : list Z)
    (seen : gset Z) (acc : vec3) (count : Z) : option (vec3 * Z) :=
  match idxs with
  | [] => Some (acc, count)
  | idx :: rest =>
      if bool_decide (idx ∈ seen) then center_sum vs rest seen acc count
      else
        v ← py_index vs idx;
        let '(sx, sy, sz) := acc in
        let '(x, y, z) := position v in
        center_sum vs rest ({[idx]} ∪ seen) (sx + x, sy + y, sz + z)%Qc
                   (count + 1)%Z
  end.

Definition _compute_geometry_center (vs : list IntermediateVertex)
    (geom : IntermediateGeometry) : option vec3 :=
  '(s, count) ← center_sum vs (BoneMaps.corner_indices geom) ∅ (0, 0, 0)%Qc 0;
  if bool_decide (count = 0)%Z then Some (0, 0, 0)%Qc
  else let '(sx, sy, sz) := s in
       let n := Q2Qc (inject_Z count) in
       Some (sx / n, sy / n, sz / n)%Qc.

(** The body of [with binary_file(filepath) as w:] in [write_model]. *)
Definition serialize_model (model : IntermediateModel) (p : Prepared) : W unit :=
  write_ascii MODEL_MAGIC ;;
  write_uint 1 ;;
  write_uint (vertex_count p) ;;
  write_uint (element_mask p) ;;
  write_uint (morph_start p) ;;
  write_uint (morph_count p) ;;
  for_each (p_vertices p) (write_vertex p) ;;
  write_uint 1 ;;
  write_uint (Z.of_nat (length (all_indices p))) ;;
  write_uint (if use_32bit p then 4 else 2) ;;
  for_each (all_indices p)
    (if use_32bit p then write_uint else write_ushort) ;;
  write_uint (Z.of_nat (length (geometries model))) ;;
  for_each (imap pair (geometries model))
    (λ q, write_geometry p q.1 q.2) ;;
  write_uint (Z.of_nat (length (morphs model))) ;;
  for_each (morphs model) write_morph ;;
  write_uint (Z.of_nat (length (p_bones p))) ;;
  for_each (p_bones p) write_bone ;;
  write_vector3 (bbox_min model) ;;
  write_vector3 (bbox_max model) ;;
  for_each (geometries model)
    (λ geom, match _compute_geometry_center (p_vertices p) geom with
             | Some center => write_vector3 center
             | None => w_raise IndexError
             end).





(** *** [write_animation] *)

Record IntermediateTrackKeyframe := {
  time : Qc;
  kf_position : option vec3;
  kf_rotation : option vec4;
  kf_scale : option vec3
}.

Record IntermediateTrack := {
  track_name : string;
  keyframes : list IntermediateTrackKeyframe
}.

Record IntermediateAnimation := {
  anim_name : string;
  duration : Qc;
  tracks : list IntermediateTrack
}.

Definition write_track (track : IntermediateTrack) : W unit :=
  write_cstring (track_name track) ;;
  let mask :=
    match keyframes track with
    | kf0 :: _ =>
        flag (bool_decide (is_Some (kf_scale kf0))) TRACK_SCALE
          (flag (bool_decide (is_Some (kf_rotation kf0))) TRACK_ROTATION
            (flag (bool_decide (is_Some (kf_position kf0))) TRACK_POSITION 0))
    | [] => 0%Z
    end in
  write_ubyte mask ;;
  write_uint (Z.of_nat (length (keyframes track))) ;;
  for_each (keyframes track)
    (λ kf,
       write_float (time kf) ;;
       when (has_bit mask TRACK_POSITION)
         (write_vector3 (default (0, 0, 0)%Qc (kf_position kf))) ;;
       when (has_bit mask TRACK_ROTATION)
         (let '(w, x, y, z) := default (1, 0, 0, 0)%Qc (kf_rotation kf) in
          write_quaternion w x y z) ;;
       when (has_bit mask TRACK_SCALE)
         (write_vector3 (default (1, 1, 1)%Qc (kf_scale kf)))).

(** The body of [with binary_file(filepath) as w:] in [write_animation]. *)
Definition serialize_animation (anim : IntermediateAnimation) : W unit :=
  write_ascii ANIMATION_MAGIC ;;
  write_cstring (anim_name anim) ;;
  write_float (duration anim) ;;
  write_uint (Z.of_nat (length (tracks anim))) ;;
  for_each (tracks anim) write_track.





(** *** All or nothing *)





End Writer.

(** *** A model that cannot be serialized *)

(** An encoding of floats that accepts every value (the bytes are not
    the IEEE ones). *)
Definition any_float (x : Qc) : option bytes := Some [0; 0; 0; 0]%Z.

Definition keep_bounds (m : IntermediateModel) (lg : ExportLogger)
    : exn + (list IntermediateBone * ExportLogger) := inr (bones m, lg).





End Formats.

(** ** State that is saved and restored: [_decompose_morphs]
       (mesh/decompose.py) and [decompose_actions] (skeleton/animation.py) *)

(** Code that mutates the scene and may raise: a computation takes the
    state and returns the state it leaves, with a value or the exception
    that escaped. *)
Module Effects.

Inductive exc := Raised (kind : string).

Definition M (S A : Type) : Type := S → (exc + A) * S.

Definition ret {S A} (a : A) : M S A := λ s, (inr a, s).

Definition raise {S A} (e : exc) : M S A := λ s, (inl e, s).

Definition bind {S A B} (m : M S A) (k : A → M S B) : M S B :=
  λ s, match m s with
       | (inl e, s') => (inl e, s')
       | (inr a, s') => k a s'
       end.

Definition get {S} : M S S := λ s, (inr s, s).

Definition modify {S} (f : S → S) : M S unit := λ s, (inr tt, f s).

(** A result computed without touching the state. *)
Definition lift {S A} (r : exc + A) : M S A := λ s, (r, s).

(** [try: body finally: final].  The [finally] block runs on every exit
    of the body; an exception of its own replaces the body's outcome. *)
Definition try_finally {S A} (body : M S A) (final : M S unit) : M S A :=
  λ s, match body s with
       | (r, s1) =>
           match final s1 with
           | (inl e, s2) => (inl e, s2)
           | (inr _, s2) => (r, s2)
           end
       end.

(** [try: body except Exception: handler]. *)
Definition try_except {S A} (body : M S A) (handler : exc → M S A) : M S A :=
  λ s, match body s with
       | (inl e, s1) => handler e s1
       | (inr a, s1) => (inr a, s1)
       end.

(** [for x in l: acc = body(acc, x)]. *)
Fixpoint fold_each {S A B} (l : list A) (acc : B) (body : B → A → M S B)
    : M S B :=
  match l with
  | [] => ret acc
  | x :: rest => bind (body acc x) (λ acc', fold_each rest acc' body)
  end.

Notation "'let!' x ':=' m 'in' k" := (bind m (λ x, k))
  (at level 10, x name, m at level 100, k at level 200).
Notation "m ;; k" := (bind m (λ _, k))
  (at level 100, k at level 200, right associativity).

End Effects.

Module ScopedState.
Import PySeq Logging Decompose Effects.

Definition EPSILON : Qc := Q2Qc (1 # 1000000).

(** A shape key of [obj.data.shape_keys.key_blocks]. *)
Record KeyBlock := {
  kb_name : string;
  value : Qc;
  mute : bool
}.

(** The scene as [_decompose_morphs] sees it: the key blocks ([None]
    when the mesh has no shape keys) and the logger. *)
Record MorphScene := {
  shape_keys : option (list KeyBlock);
  logger : ExportLogger
}.

Record MorphVertex := { morph_co : vec3; morph_normal : vec3 }.

(** The temporary mesh of [evaluated_mesh]. *)
Record EvaluatedMesh := {
  mesh_vertices : list MorphVertex;
  has_corner_normals : bool
}.

Record MorphSettings := {
  scale : Qc;
  export_morph_normals : bool
}.

Definition set_value (x : Qc) (kb : KeyBlock) : KeyBlock :=
  {| kb_name := kb_name kb; value := x; mute := mute kb |}.

Definition set_mute (b : bool) (kb : KeyBlock) : KeyBlock :=
  {| kb_name := kb_name kb; value := value kb; mute := b |}.

Definition on_keys (f : list KeyBlock → list KeyBlock) (s : MorphScene) : MorphScene :=
  {| shape_keys := f <$> shape_keys s; logger := logger s |}.

Definition on_logger (f : ExportLogger → ExportLogger) (s : MorphScene) : MorphScene :=
  {| shape_keys := shape_keys s; logger := f (logger s) |}.

Definition qabs (x : Qc) : Qc := if bool_decide (x < 0)%Qc then (- x)%Qc else x.

(** *** The scene as [decompose_actions] sees it *)

Record Action := {
  action_name : string;
  frame_range : Qc * Qc
}.

Record NlaTrack := {
  track_name : string;
  track_mute : bool;
  strips : list (option Action)
}.

(** [armature_obj.animation_data]. *)
Record AnimData := {
  action : option Action;
  use_nla : bool;
  nla_tracks : list NlaTrack
}.

Inductive AnimationSource :=
  | USED_ACTIONS | ALL_ACTIONS | NLA_TRACKS | TIMELINE | OTHER_SOURCE.

Record AnimSettings := {
  animation_source : AnimationSource
}.

Section Blender.

(** Everything else in the scene: poses, dependency graph, ... *)
Variable World : Type.

Record AnimScene := {
  armature_name : string;
  animation_data : option AnimData;
  frame_current : Z;
  frame_start : Z;
  frame_end : Z;
  frame_step : Z;
  fps : Z;
  data_actions : list Action;
  world : World;
  anim_logger : ExportLogger
}.

(** [obj.to_mesh(...)] followed by [calc_loop_triangles()], under the
    shape key values of the moment; it reads the scene and may raise. *)
Variable evaluate : list KeyBlock → exc + EvaluatedMesh.

(** The body of [for vi, base_v in enumerate(base_model.vertices)]: the
    morph vertex to append, if any. *)
Definition morph_delta (settings : MorphSettings) (morph_mesh : EvaluatedMesh)
    (vi : nat) (base_v : IntermediateVertex)
    : exc + option Formats.IntermediateMorphVertex :=
  match blender_index base_v with
  | None => inr None
  | Some bl_idx =>
      if bool_decide (Z.of_nat (length (mesh_vertices morph_mesh)) ≤ bl_idx)%Z
      then inr None
      else
        match py_index (mesh_vertices morph_mesh) bl_idx with
        | None => inl (Raised "IndexError")
        | Some morph_vert =>
            let '(mx, my, mz) :=
              _blender_to_urho_pos (morph_co morph_vert) (scale settings) in
            let '(bx, by_, bz) := position base_v in
            let dx := (mx - bx)%Qc in
            let dy := (my - by_)%Qc in
            let dz := (mz - bz)%Qc in
            if bool_decide (qabs dx < EPSILON)%Qc
               && bool_decide (qabs dy < EPSILON)%Qc
               && bool_decide (qabs dz < EPSILON)%Qc
            then inr None
            else
              let normal_delta :=
                match normal base_v with
                | Some (nx, ny, nz) =>
                    if export_morph_normals settings
                       && has_corner_normals morph_mesh
                    then
                      let '(px, py, pz) :=
                        _blender_to_urho_normal (morph_normal morph_vert) in
                      Some (px - nx, py - ny, pz - nz)%Qc
                    else None
                | None => None
                end in
              inr (Some {| Formats.vertex_index := Z.of_nat vi;
                           Formats.position_delta := (dx, dy, dz);
                           Formats.normal_delta := normal_delta;
                           Formats.tangent_delta := None |})
        end
  end.

Fixpoint morph_vertices_of (settings : MorphSettings)
    (morph_mesh : EvaluatedMesh) (vi : nat) (base : list IntermediateVertex)
    : exc + list Formats.IntermediateMorphVertex :=
  match base with
  | [] => inr []
  | base_v :: rest =>
      match morph_delta settings morph_mesh vi base_v with
      | inl e => inl e
      | inr d =>
          match morph_vertices_of settings morph_mesh (S vi) rest with
          | inl e => inl e
          | inr more => inr (from_option (λ mv, mv :: more) more d)
          end
      end
  end.

Definition affected_message (kb : KeyBlock) (n : nat) : string :=
  "Morph '" +:+ kb_name kb +:+ "': " +:+ pretty n +:+ " affected vertices".

(** One iteration of [for ki in range(1, len(key_blocks))]. *)
Definition morph_step (settings : MorphSettings)
    (base : list IntermediateVertex)
    (morphs : list Formats.IntermediateMorph) (ki : nat)
    : M MorphScene (list Formats.IntermediateMorph) :=
  modify (on_keys (alter (set_value 1) ki)) ;;
  let! s := get in
  let! morph_mesh := lift (evaluate (default [] (shape_keys s))) in
  let! vs := lift (morph_vertices_of settings morph_mesh 0 base) in
  let! morphs' :=
    match vs with
    | [] => ret morphs
    | _ =>
        let kb := default {| kb_name := ""; value := 0; mute := false |}
                          (default [] (shape_keys s) !! ki) in
        (modify (on_logger (info (affected_message kb (length vs)))) ;;
         ret (morphs ++ [ {| Formats.morph_name := kb_name kb;
                             Formats.morph_vertices := vs |} ]))
    end in
  modify (on_keys (alter (set_value 0) ki)) ;;
  ret morphs'.

(** The [finally] block: [key_blocks[i].value = val] and
    [key_blocks[i].mute = mute] for every saved pair. *)
Definition restore_keys (saved_values : list (Qc * bool))
    (kbs : list KeyBlock) : list KeyBlock :=
  foldl (λ kbs p, alter (λ kb, set_mute p.2.2 (set_value p.2.1 kb)) p.1 kbs)
        kbs (imap pair saved_values).

Definition _decompose_morphs (settings : MorphSettings)
    (base : list IntermediateVertex)
    : M MorphScene (list Formats.IntermediateMorph) :=
  let! s := get in
  match shape_keys s with
  | None => ret []
  | Some key_blocks =>
      if bool_decide (length key_blocks < 2)%nat then ret []
      else
        let saved_values := (λ kb, (value kb, mute kb)) <$> key_blocks in
        modify (on_keys (fmap (λ kb, set_mute false (set_value 0 kb)))) ;;
        try_finally
          (fold_each (seq 1 (length key_blocks - 1)) []
                     (morph_step settings base))
          (modify (on_keys (restore_keys saved_values)))
  end.


(** *** [decompose_actions] *)

(** The scene re-evaluated at a frame, as [scene.frame_set] leaves it. *)
Variable advance : Z → AnimScene → World.

(** The inner loop of [_bake_action] at the frame the scene stands at:
    one keyframe per pose bone of [bones_map], or the exception of the
    matrix arithmetic.  The arguments are [frame_start] and [frame]. *)
Variable sample :
  Z → Z → AnimScene → exc + list (string * Formats.IntermediateTrackKeyframe).

(** Whether the armature takes an action in
    [armature_obj.animation_data.action = action]. *)
Variable accepts : Action → bool.

(** [f"{x:.2f}"]. *)
Variable two_decimals : Qc → string.

Definition on_anim (f : AnimData → AnimData) (s : AnimScene) : AnimScene :=
  {| armature_name := armature_name s;
     animation_data := f <$> animation_data s;
     frame_current := frame_current s;
     frame_start := frame_start s; frame_end := frame_end s;
     frame_step := frame_step s; fps := fps s;
     data_actions := data_actions s; world := world s;
     anim_logger := anim_logger s |}.

Definition log_anim (f : ExportLogger → ExportLogger) (s : AnimScene)
    : AnimScene :=
  {| armature_name := armature_name s;
     animation_data := animation_data s;
     frame_current := frame_current s;
     frame_start := frame_start s; frame_end := frame_end s;
     frame_step := frame_step s; fps := fps s;
     data_actions := data_actions s; world := world s;
     anim_logger := f (anim_logger s) |}.

(** [scene.frame_current = frame]. *)
Definition set_frame_current (frame : Z) (s : AnimScene) : AnimScene :=
  {| armature_name := armature_name s;
     animation_data := animation_data s;
     frame_current := frame;
     frame_start := frame_start s; frame_end := frame_end s;
     frame_step := frame_step s; fps := fps s;
     data_actions := data_actions s; world := world s;
     anim_logger := anim_logger s |}.

(** [scene.frame_set(frame)]. *)
Definition frame_set (frame : Z) (s : AnimScene) : AnimScene :=
  {| armature_name := armature_name s;
     animation_data := animation_data s;
     frame_current := frame;
     frame_start := frame_start s; frame_end := frame_end s;
     frame_step := frame_step s; fps := fps s;
     data_actions := data_actions s; world := advance frame s;
     anim_logger := anim_logger s |}.

Definition set_use_nla (b : bool) (ad : AnimData) : AnimData :=
  {| action := action ad; use_nla := b; nla_tracks := nla_tracks ad |}.

(** [armature_obj.animation_data.action = a]: [None] is always taken. *)
Definition set_action (a : option Action) : M AnimScene unit :=
  if from_option accepts true a
  then modify (on_anim (λ ad, {| action := a; use_nla := use_nla ad;
                                 nla_tracks := nla_tracks ad |}))
  else raise (Raised "TypeError").

(** [int(x)] of a float. *)
Definition trunc (x : Qc) : Z := Z.quot (Qnum x) (Z.pos (Qden x)).

Abbreviation export_entry := (string * Z * Z * option Action)%type.

Definition action_entry (a : Action) : export_entry :=
  (action_name a, trunc (frame_range a).1, trunc ((frame_range a).2 + 1)%Qc,
   Some a).

(** The strips loop of [USED_ACTIONS], with the [seen] set. *)
Fixpoint used_actions (acts : list (option Action)) (seen : gset string)
    : list export_entry * gset string :=
  match acts with
  | [] => ([], seen)
  | Some a :: rest =>
      if bool_decide (action_name a ∈ seen) then used_actions rest seen
      else let '(more, seen') := used_actions rest ({[action_name a]} ∪ seen) in
           (action_entry a :: more, seen')
  | None :: rest => used_actions rest seen
  end.

Definition _collect_actions (settings : AnimSettings) (s : AnimScene)
    (ad : AnimData) : list export_entry :=
  match animation_source settings with
  | USED_ACTIONS =>
      let unmuted := filter (λ t, track_mute t = false) (nla_tracks ad) in
      let '(found, seen) := used_actions (unmuted ≫= strips) ∅ in
      found ++ (used_actions [action ad] seen).1
  | ALL_ACTIONS => action_entry <$> data_actions s
  | NLA_TRACKS =>
      (λ t, (track_name t, frame_start s, (frame_end s + 1)%Z, None))
      <$> filter (λ t, track_mute t = false) (nla_tracks ad)
  | TIMELINE => [("Timeline", frame_start s, (frame_end s + 1)%Z, None)]
  | OTHER_SOURCE => []
  end.

(** [range(start, stop, step)]: [ValueError] for a zero step. *)
Definition frames (start stop step : Z) : exc + list Z :=
  if bool_decide (step = 0)%Z then inl (Raised "ValueError")
  else
    let n := if bool_decide (0 < step)%Z
             then ((stop - start + step - 1) / step)%Z
             else ((start - stop - step - 1) / (- step))%Z in
    inr ((λ k, start + Z.of_nat k * step)%Z <$> seq 0 (Z.to_nat n)).

(** [tracks_data[bone_name].append(kf)] on a dictionary kept in
    insertion order. *)
Fixpoint add_keyframe (bone_name : string)
    (kf : Formats.IntermediateTrackKeyframe)
    (tracks_data : list (string * list Formats.IntermediateTrackKeyframe))
    : list (string * list Formats.IntermediateTrackKeyframe) :=
  match tracks_data with
  | [] => [(bone_name, [kf])]
  | (n, kfs) :: rest =>
      if bool_decide (n = bone_name) then (n, kfs ++ [kf]) :: rest
      else (n, kfs) :: add_keyframe bone_name kf rest
  end.

Definition _bake_action (action_name : string) (frame_start frame_end : Z)
    : M AnimScene (option Formats.IntermediateAnimation) :=
  let! s0 := get in
  let! fr := lift (frames frame_start frame_end (frame_step s0)) in
  let! tracks_data :=
    fold_each fr []
      (λ tracks_data frame,
         modify (frame_set frame) ;;
         let! s := get in
         let! kfs := lift (sample frame_start frame s) in
         ret (foldl (λ td p, add_keyframe p.1 p.2 td) tracks_data kfs)) in
  match tracks_data with
  | [] => ret None
  | _ =>
      if bool_decide (fps s0 = 0)%Z then raise (Raised "ZeroDivisionError")
      else
        let duration :=
          (Q2Qc (inject_Z (frame_end - frame_start - 1))
           / Q2Qc (inject_Z (fps s0)))%Qc in
        ret (Some {| Formats.anim_name := action_name;
                     Formats.duration :=
                       if bool_decide (0 < duration)%Qc then duration else 0%Qc;
                     Formats.tracks :=
                       (λ p, {| Formats.track_name := p.1;
                                Formats.keyframes := p.2 |}) <$> tracks_data |})
  end.

Definition baked_message (action_name : string)
    (anim : Formats.IntermediateAnimation) : string :=
  "Animation '" +:+ action_name +:+ "': "
  +:+ pretty (length (Formats.tracks anim)) +:+ " tracks, "
  +:+ two_decimals (Formats.duration anim) +:+ "s".

(** One iteration of [for action_name, frame_start, frame_end, action in
    actions_to_export]. *)
Definition export_step (animations : list Formats.IntermediateAnimation)
    (entry : export_entry) : M AnimScene (list Formats.IntermediateAnimation) :=
  let '(action_name, frame_start, frame_end, act) := entry in
  let! assigned :=
    match act with
    | Some a =>
        try_except (set_action (Some a) ;; ret true)
          (λ _, modify (log_anim (error ("Cannot set action '" +:+ action_name
                                         +:+ "', skipping"))) ;;
                ret false)
    | None => ret true
    end in
  if assigned : bool then
    let! anim := _bake_action action_name frame_start frame_end in
    match anim with
    | Some a =>
        match Formats.tracks a with
        | [] => ret animations
        | _ => modify (log_anim (info (baked_message action_name a))) ;;
               ret (animations ++ [a])
        end
    | None => ret animations
    end
  else ret animations.

Definition decompose_actions (settings : AnimSettings)
    : M AnimScene (list Formats.IntermediateAnimation) :=
  let! s := get in
  match animation_data s with
  | None =>
      modify (log_anim (warning ("Armature '" +:+ armature_name s
                                 +:+ "' has no animation data"))) ;;
      ret []
  | Some ad =>
      let saved_action := action ad in
      let saved_frame := frame_current s in
      let saved_use_nla := use_nla ad in
      match _collect_actions settings s ad with
      | [] =>
          modify (log_anim (warning ("No animations found for '"
                                     +:+ armature_name s +:+ "'"))) ;;
          ret []
      | actions_to_export =>
          try_finally
            (modify (on_anim (set_use_nla false)) ;;
             fold_each actions_to_export [] export_step)
            (modify (on_anim (set_use_nla saved_use_nla)) ;;
             set_action saved_action ;;
             modify (set_frame_current saved_frame))
      end
  end.

End Blender.

Arguments armature_name {World}.
Arguments animation_data {World}.
Arguments frame_current {World}.
Arguments frame_start {World}.
Arguments frame_end {World}.
Arguments frame_step {World}.
Arguments fps {World}.
Arguments data_actions {World}.
Arguments world {World}.
Arguments anim_logger {World}.
Arguments on_anim {World}.
Arguments log_anim {World}.
Arguments set_frame_current {World}.
Arguments frame_set {World}.
Arguments set_action {World}.
Arguments _bake_action {World}.
Arguments export_step {World}.
Arguments decompose_actions {World}.
Arguments _collect_actions {World}.


(** *** What a computation leaves unchanged *)


Section Preserves.
Context {S : Type} (R : relation S) `{!PreOrder R}.










End Preserves.



(** *** Shape keys *)

(** Same key blocks up to their values and mute flags. *)
Definition same_keys (s s' : MorphScene) : Prop :=
  fmap (M := option) (fmap kb_name) (shape_keys s')
  = fmap (M := option) (fmap kb_name) (shape_keys s).

Global Instance same_keys_preorder : PreOrder same_keys.
Proof.
  split.
  - intros s. reflexivity.
  - intros s1 s2 s3 H12 H23. unfold same_keys in *. congruence.
Qed.




Section BlenderFacts.
Context (World : Type)
  (evaluate : list KeyBlock → exc + EvaluatedMesh)
  (advance : Z → AnimScene World → World)
  (sample : Z → Z → AnimScene World
            → exc + list (string * Formats.IntermediateTrackKeyframe))
  (accepts : Action → bool)
  (two_decimals : Qc → string).




(** *** Action, frame and NLA flag *)

(** The NLA tracks stay; in particular the animation data stay present. *)
Definition same_tracks (s s' : AnimScene World) : Prop :=
  nla_tracks <$> animation_data s' = nla_tracks <$> animation_data s.

Global Instance same_tracks_preorder : PreOrder same_tracks.
Proof.
  split.
  - intros s. reflexivity.
  - intros s1 s2 s3 H12 H23. unfold same_tracks in *. congruence.
Qed.







End BlenderFacts.

(** *** A bake that fails mid-way *)

Definition ex_keys : list KeyBlock :=
  [ {| kb_name := "Basis"; value := 0; mute := false |};
    {| kb_name := "Smile"; value := Q2Qc (3 # 10); mute := false |};
    {| kb_name := "Frown"; value := Q2Qc (1 # 2); mute := true |} ].

(** Evaluation fails while the third key is the active one. *)
Definition ex_evaluate (kbs : list KeyBlock) : exc + EvaluatedMesh :=
  match kbs !! 2%nat with
  | Some kb => if bool_decide (value kb = 1%Qc)
               then inl (Raised "RuntimeError")
               else inr {| mesh_vertices := []; has_corner_normals := true |}
  | None => inr {| mesh_vertices := []; has_corner_normals := true |}
  end.

Definition ex_morph_scene : MorphScene :=
  {| shape_keys := Some ex_keys; logger := new_logger |}.

Definition ex_walk : Action :=
  {| action_name := "Walk"; frame_range := (Q2Qc 1, Q2Qc 4) |}.

Definition ex_anim_scene : AnimScene unit :=
  {| armature_name := "Rig";
     animation_data :=
       Some {| action := Some ex_walk; use_nla := true; nla_tracks := [] |};
     frame_current := 17; frame_start := 1; frame_end := 10;
     frame_step := 1; fps := 24; data_actions := [ex_walk];
     world := tt; anim_logger := new_logger |}.

(** Sampling fails at frame 3. *)
Definition ex_sample (frame_start frame : Z) (s : AnimScene unit)
    : exc + list (string * Formats.IntermediateTrackKeyframe) :=
  if bool_decide (frame = 3)%Z then inl (Raised "ValueError")
  else inr [("Hip", {| Formats.time := 0; Formats.kf_position := None;
                       Formats.kf_rotation := None;
                       Formats.kf_scale := None |})].

Example ex_morphs_fail :
  (_decompose_morphs ex_evaluate {| scale := 1; export_morph_normals := false |}
                     [] ex_morph_scene).1 = inl (Raised "RuntimeError").
Proof. vm_compute. reflexivity. Qed.

Example ex_actions_fail :
  (decompose_actions (λ _ _, tt) ex_sample (λ _, true) (λ _, "")
     {| animation_source := ALL_ACTIONS |} ex_anim_scene).1
  = inl (Raised "ValueError").
Proof. vm_compute. reflexivity. Qed.


End ScopedState.

(** ** mesh/tangents.py *)

Module Tangents.
Import PySeq.

Local Open Scope R_scope.

(** Python floats are idealised as real numbers in this module:
    [generate_tangents] divides and takes square roots, and the properties
    of its result (unit length, orthogonality) are properties of exact
    arithmetic. *)

Abbreviation R2 := (R * R)%type.
Abbreviation R3 := (R * R * R)%type.
Abbreviation R4 := (R * R * R * R)%type.

(** The fields of [IntermediateVertex] that the generator reads or
    writes. *)
Record IntermediateVertex := {
  position : R3;
  normal : option R3;
  uv : option R2;
  tangent : option R4
}.

Record IntermediateLodLevel := { triangles : list (Z * Z * Z) }.
Record IntermediateGeometry := { lod_levels : list IntermediateLodLevel }.

Record IntermediateModel := {
  vertices : list IntermediateVertex;
  geometries : list IntermediateGeometry
}.

(** [1e-8]. *)
Definition tiny : R := / 100000000.

Definition dot (a b : R3) : R :=
  let '(a0, a1, a2) := a in
  let '(b0, b1, b2) := b in
  a0 * b0 + a1 * b1 + a2 * b2.

Definition cross (a b : R3) : R3 :=
  let '(a0, a1, a2) := a in
  let '(b0, b1, b2) := b in
  (a1 * b2 - a2 * b1, a2 * b0 - a0 * b2, a0 * b1 - a1 * b0).

Definition add3 (a b : R3) : R3 :=
  let '(a0, a1, a2) := a in
  let '(b0, b1, b2) := b in
  (a0 + b0, a1 + b1, a2 + b2).

(** [det = du1 * dv2 - du2 * dv1] of three UV pairs. *)
Definition uv_det (uv0 uv1 uv2 : R2) : R :=
  let du1 := uv1.1 - uv0.1 in
  let dv1 := uv1.2 - uv0.2 in
  let du2 := uv2.1 - uv0.1 in
  let dv2 := uv2.2 - uv0.2 in
  du1 * dv2 - du2 * dv1.

(** The tangent and bitangent directions [(sx, sy, sz)] and
    [(tx, ty, tz)] of a triangle. *)
Definition directions (p0 p1 p2 : R3) (uv0 uv1 uv2 : R2) : R3 * R3 :=
  let '(x0, y0, z0) := p0 in
  let '(x1, y1, z1) := p1 in
  let '(x2, y2, z2) := p2 in
  let dx1 := x1 - x0 in
  let dy1 := y1 - y0 in
  let dz1 := z1 - z0 in
  let dx2 := x2 - x0 in
  let dy2 := y2 - y0 in
  let dz2 := z2 - z0 in
  let du1 := uv1.1 - uv0.1 in
  let dv1 := uv1.2 - uv0.2 in
  let du2 := uv2.1 - uv0.1 in
  let dv2 := uv2.2 - uv0.2 in
  let r := 1 / uv_det uv0 uv1 uv2 in
  (((dv2 * dx1 - dv1 * dx2) * r,
    (dv2 * dy1 - dv1 * dy2) * r,
    (dv2 * dz1 - dv1 * dz2) * r),
   ((du1 * dx2 - du2 * dx1) * r,
    (du1 * dy2 - du2 * dy1) * r,
    (du1 * dz2 - du2 * dz1) * r)).

(** [tan1[idx] += s; tan2[idx] += t] for one corner. *)
Definition accumulate_corner (s t : R3) (acc : list R3 * list R3) (idx : Z)
    : option (list R3 * list R3) :=
  t1 ← py_index acc.1 idx;
  tan1 ← py_store acc.1 idx (add3 t1 s);
  t2 ← py_index acc.2 idx;
  tan2 ← py_store acc.2 idx (add3 t2 t);
  Some (tan1, tan2).

(** The body of [for tri in lod.triangles]; [None] when an index is out
    of range or a UV is [None]. *)
Definition accumulate_triangle (vs : list IntermediateVertex)
    (acc : list R3 * list R3) (tri : Z * Z * Z) : option (list R3 * list R3) :=
  let '(i0, i1, i2) := tri in
  v0 ← py_index vs i0;
  v1 ← py_index vs i1;
  v2 ← py_index vs i2;
  uv0 ← uv v0;
  uv1 ← uv v1;
  uv2 ← uv v2;
  if Rlt_dec (Rabs (uv_det uv0 uv1 uv2)) tiny then Some acc
  else
    let '(s, t) := directions (position v0) (position v1) (position v2)
                              uv0 uv1 uv2 in
    acc ← accumulate_corner s t acc i0;
    acc ← accumulate_corner s t acc i1;
    accumulate_corner s t acc i2.

Fixpoint accumulate (vs : list IntermediateVertex) (tris : list (Z * Z * Z))
    (acc : list R3 * list R3) : option (list R3 * list R3) :=
  match tris with
  | [] => Some acc
  | tri :: rest =>
      acc' ← accumulate_triangle vs acc tri;
      accumulate vs rest acc'
  end.

(** The triangles in the order the three nested loops visit them. *)
Definition all_triangles (m : IntermediateModel) : list (Z * Z * Z) :=
  geom ← geometries m; lod ← lod_levels geom; triangles lod.

Definition set_tangent (v : IntermediateVertex) (t : R4) : IntermediateVertex :=
  {| position := position v; normal := normal v; uv := uv v;
     tangent := Some t |}.

(** [t - n * dot(n, t)]. *)
Definition gram_schmidt (n t : R3) : R3 :=
  let '(n0, n1, n2) := n in
  let '(t0, t1, t2) := t in
  let dot_nt := n0 * t0 + n1 * t1 + n2 * t2 in
  (t0 - n0 * dot_nt, t1 - n1 * dot_nt, t2 - n2 * dot_nt).

Definition norm (a : R3) : R :=
  let '(x, y, z) := a in sqrt (x * x + y * y + z * z).

(** The body of [for i in range(vertex_count)], given [tan1[i]] and
    [tan2[i]]. *)
Definition finalize (v : IntermediateVertex) (t b : R3) : IntermediateVertex :=
  match normal v with
  | None => v
  | Some n =>
      let '(tx, ty, tz) := gram_schmidt n t in
      let length := norm (tx, ty, tz) in
      if Rlt_dec length tiny then set_tangent v (0, 0, 0, 1)
      else
        let inv_len := 1 / length in
        let sign := if Rlt_dec (dot (cross n t) b) 0 then -1 else 1 in
        set_tangent v (tx * inv_len, ty * inv_len, tz * inv_len, sign)
  end.

Definition zero3 : R3 := (0, 0, 0).

(** [generate_tangents(model)]: the model it leaves, or [None] when it
    raises. *)
Definition generate_tangents (m : IntermediateModel)
    : option IntermediateModel :=
  match vertices m with
  | [] => Some m
  | v0 :: _ =>
      match normal v0, uv v0 with
      | Some _, Some _ =>
          let vertex_count := length (vertices m) in
          acc ← accumulate (vertices m) (all_triangles m)
                  (replicate vertex_count zero3, replicate vertex_count zero3);
          Some {| vertices :=
                    imap (λ i v, finalize v (default zero3 (acc.1 !! i))
                                            (default zero3 (acc.2 !! i)))
                         (vertices m);
                  geometries := geometries m |}
      | _, _ => Some m
      end
  end.

(** [i] is an index that a Python list of length [n] accepts. *)
Definition valid_index (n : nat) (i : Z) : Prop :=
  (- Z.of_nat n ≤ i < Z.of_nat n)%Z.

(** Every triangle index is a valid index and every vertex has a UV. *)
Definition well_formed (m : IntermediateModel) : Prop :=
  Forall (λ tri, Forall (valid_index (length (vertices m)))
                        [tri.1.1; tri.1.2; tri.2])
         (all_triangles m)
  ∧ Forall (λ v, is_Some (uv v)) (vertices m).

(** The claim as the specification words it, for the model [m'] that
    [generate_tangents] leaves: every vertex carries the fallback tangent
    or a unit tangent orthogonal to its normal. *)
Definition every_tangent_orthonormal (m' : IntermediateModel) : Prop :=
  ∀ i v, vertices m' !! i = Some v →
    tangent v = Some (0, 0, 0, 1) ∨
    ∃ n x y z s,
      normal v = Some n ∧ tangent v = Some (x, y, z, s) ∧
      x * x + y * y + z * z = 1 ∧ dot n (x, y, z) = 0 ∧ (s = -1 ∨ s = 1).


(** *** Accumulation *)

Lemma accumulate_corner_total s t (acc : list R3 * list R3) idx n :
  length acc.1 = n → length acc.2 = n → valid_index n idx →
  ∃ acc', accumulate_corner s t acc idx = Some acc'
          ∧ length acc'.1 = n ∧ length acc'.2 = n.
Proof.
  intros H1 H2 Hi. unfold valid_index in Hi. unfold accumulate_corner.
  destruct (py_index_valid acc.1 idx) as [t1 ->]; [rewrite H1; exact Hi|].
  simpl.
  destruct (py_store_valid acc.1 idx (add3 t1 s)) as (tan1 & -> & Hl1);
    [rewrite H1; exact Hi|].
  simpl.
  destruct (py_index_valid acc.2 idx) as [t2 ->]; [rewrite H2; exact Hi|].
  simpl.
  destruct (py_store_valid acc.2 idx (add3 t2 t)) as (tan2 & -> & Hl2);
    [rewrite H2; exact Hi|].
  simpl. eexists. split; [reflexivity|]. simpl. split; congruence.
Qed.

Lemma accumulate_triangle_total vs (acc : list R3 * list R3) tri :
  length acc.1 = length vs → length acc.2 = length vs →
  Forall (valid_index (length vs)) [tri.1.1; tri.1.2; tri.2] →
  Forall (λ v, is_Some (uv v)) vs →
  ∃ acc', accumulate_triangle vs acc tri = Some acc'
          ∧ length acc'.1 = length vs ∧ length acc'.2 = length vs.
Proof.
  intros H1 H2 Hidx Huv. destruct tri as [[i0 i1] i2]. simpl in Hidx.
  apply Forall_cons in Hidx as [Hi0 Hidx].
  apply Forall_cons in Hidx as [Hi1 Hidx].
  apply Forall_cons in Hidx as [Hi2 _].
  assert (Hget : ∀ i, valid_index (length vs) i →
            ∃ v a, py_index vs i = Some v ∧ uv v = Some a).
  { intros i Hi. destruct (py_index_valid vs i Hi) as [v Hv].
    assert (Hin : v ∈ vs).
    { unfold py_index in Hv.
      repeat destruct (_ <=? _)%Z; try discriminate;
        eapply list_elem_of_lookup_2; exact Hv. }
    rewrite Forall_forall in Huv. destruct (Huv v Hin) as [a Ha]. eauto. }
  destruct (Hget i0 Hi0) as (v0 & a0 & Hv0 & Ha0).
  destruct (Hget i1 Hi1) as (v1 & a1 & Hv1 & Ha1).
  destruct (Hget i2 Hi2) as (v2 & a2 & Hv2 & Ha2).
  unfold accumulate_triangle. rewrite Hv0, Hv1, Hv2. simpl.
  rewrite Ha0, Ha1, Ha2. simpl.
  destruct (Rlt_dec _ _); [eauto|].
  destruct (directions _ _ _ _ _ _) as [s t].
  destruct (accumulate_corner_total s t acc i0 _ H1 H2 Hi0)
    as (acc0 & -> & H01 & H02). simpl.
  destruct (accumulate_corner_total s t acc0 i1 _ H01 H02 Hi1)
    as (acc1 & -> & H11 & H12). simpl.
  apply (accumulate_corner_total s t acc1 i2 _ H11 H12 Hi2).
Qed.

Lemma accumulate_total vs tris : ∀ acc : list R3 * list R3,
  length acc.1 = length vs → length acc.2 = length vs →
  Forall (λ tri, Forall (valid_index (length vs)) [tri.1.1; tri.1.2; tri.2])
         tris →
  Forall (λ v, is_Some (uv v)) vs →
  ∃ acc', accumulate vs tris acc = Some acc'
          ∧ length acc'.1 = length vs ∧ length acc'.2 = length vs.
Proof.
  induction tris as [|tri tris IH]; intros acc H1 H2 Htris Huv; simpl.
  - eauto.
  - apply Forall_cons in Htris as [Htri Htris].
    destruct (accumulate_triangle_total vs acc tri H1 H2 Htri Huv)
      as (acc1 & -> & H11 & H12). simpl.
    apply IH; assumption.
Qed.

(** A triangle whose UV determinant is below [1e-8] in absolute value
    leaves both accumulators as they are. *)
Lemma degenerate_triangle_contributes_nothing vs acc i0 i1 i2 v0 v1 v2 a0 a1 a2 :
  py_index vs i0 = Some v0 → py_index vs i1 = Some v1 →
  py_index vs i2 = Some v2 →
  uv v0 = Some a0 → uv v1 = Some a1 → uv v2 = Some a2 →
  Rabs (uv_det a0 a1 a2) < tiny →
  accumulate_triangle vs acc (i0, i1, i2) = Some acc.
Proof.
  intros Hv0 Hv1 Hv2 Ha0 Ha1 Ha2 Hdet. unfold accumulate_triangle.
  rewrite Hv0, Hv1, Hv2. simpl. rewrite Ha0, Ha1, Ha2. simpl.
  destruct (Rlt_dec _ _); [reflexivity|contradiction].
Qed.

Lemma accumulate_triangle_nondegenerate
    vs acc i0 i1 i2 v0 v1 v2 a0 a1 a2 s t :
  py_index vs i0 = Some v0 → py_index vs i1 = Some v1 →
  py_index vs i2 = Some v2 →
  uv v0 = Some a0 → uv v1 = Some a1 → uv v2 = Some a2 →
  ¬ Rabs (uv_det a0 a1 a2) < tiny →
  directions (position v0) (position v1) (position v2) a0 a1 a2 = (s, t) →
  accumulate_triangle vs acc (i0, i1, i2) =
    (acc0 ← accumulate_corner s t acc i0;
     acc1 ← accumulate_corner s t acc0 i1;
     accumulate_corner s t acc1 i2).
Proof.
  intros Hv0 Hv1 Hv2 Ha0 Ha1 Ha2 Hdet Hdir. unfold accumulate_triangle.
  rewrite Hv0, Hv1, Hv2. simpl. rewrite Ha0, Ha1, Ha2. simpl.
  destruct (Rlt_dec _ _); [contradiction|]. rewrite Hdir. reflexivity.
Qed.

(** *** Finalization *)

Lemma tiny_pos : 0 < tiny.
Proof. unfold tiny. apply Rinv_0_lt_compat. lra. Qed.

(** What [finalize] stores for a vertex with normal [n], accumulated
    tangent [t] and accumulated bitangent [b]. *)
Lemma finalize_spec (v : IntermediateVertex) (n t b : R3) :
  normal v = Some n →
  let len := norm (gram_schmidt n t) in
  position (finalize v t b) = position v ∧
  normal (finalize v t b) = normal v ∧
  uv (finalize v t b) = uv v ∧
  (len < tiny → tangent (finalize v t b) = Some (0, 0, 0, 1)) ∧
  (¬ len < tiny →
   ∃ x y z s,
     tangent (finalize v t b) = Some (x, y, z, s) ∧
     x * x + y * y + z * z = 1 ∧
     (dot n n = 1 → dot n (x, y, z) = 0) ∧
     (dot (cross n (x, y, z)) b < 0 → s = -1) ∧
     (¬ dot (cross n (x, y, z)) b < 0 → s = 1)).
Proof.
  intros Hn len. unfold finalize. rewrite Hn.
  destruct n as [[n0 n1] n2], t as [[t0 t1] t2], b as [[b0 b1] b2].
  subst len. cbn [gram_schmidt norm].
  set (d := n0 * t0 + n1 * t1 + n2 * t2).
  set (gx := t0 - n0 * d). set (gy := t1 - n1 * d). set (gz := t2 - n2 * d).
  set (q := gx * gx + gy * gy + gz * gz).
  destruct (Rlt_dec (sqrt q) tiny) as [Hsmall|Hbig]; cbn.
  - split_and!; [reflexivity|exact Hn|reflexivity|reflexivity|contradiction].
  - split_and!; [reflexivity|exact Hn|reflexivity|contradiction|]. intros _.
    assert (Hlen : 0 < sqrt q) by (pose proof tiny_pos; lra).
    assert (Hq : 0 <= q) by (subst q; nra).
    assert (Hsq : sqrt q * sqrt q = q) by (apply sqrt_sqrt; exact Hq).
    set (k := 1 / sqrt q).
    assert (Hk : 0 < k) by (subst k; apply Rdiv_lt_0_compat; lra).
    assert (Hkk : k * k * q = 1).
    { subst k. clearbody q. clear Hbig Hq.
      generalize dependent (sqrt q). intros r Hr Hrr _.
      rewrite <- Hrr. field. lra. }
    eexists _, _, _, _. split; [reflexivity|]. split_and!.
    + replace (gx * k * (gx * k) + gy * k * (gy * k) + gz * k * (gz * k))
        with (k * k * q) by (subst q; ring).
      exact Hkk.
    + unfold dot. intros Hunit.
      replace (n0 * (gx * k) + n1 * (gy * k) + n2 * (gz * k))
        with (k * d * (1 - (n0 * n0 + n1 * n1 + n2 * n2)))
        by (subst gx gy gz d; ring).
      rewrite Hunit. ring.
    + intros Hneg. destruct (Rlt_dec _ _) as [_|Hge]; [reflexivity|].
      exfalso. apply Hge. unfold dot, cross in *.
      replace ((n1 * (gz * k) - n2 * (gy * k)) * b0
               + (n2 * (gx * k) - n0 * (gz * k)) * b1
               + (n0 * (gy * k) - n1 * (gx * k)) * b2)
        with (k * ((n1 * t2 - n2 * t1) * b0 + (n2 * t0 - n0 * t2) * b1
                   + (n0 * t1 - n1 * t0) * b2))
        in Hneg by (subst gx gy gz d; ring).
      nra.
    + intros Hpos. destruct (Rlt_dec _ _) as [Hlt|_]; [|reflexivity].
      exfalso. apply Hpos. unfold dot, cross in *.
      replace ((n1 * (gz * k) - n2 * (gy * k)) * b0
               + (n2 * (gx * k) - n0 * (gz * k)) * b1
               + (n0 * (gy * k) - n1 * (gx * k)) * b2)
        with (k * ((n1 * t2 - n2 * t1) * b0 + (n2 * t0 - n0 * t2) * b1
                   + (n0 * t1 - n1 * t0) * b2))
        by (subst gx gy gz d; ring).
      nra.
Qed.

(** C7, as amended.  For a model whose vertex 0 has a normal and a UV,
    whose triangle indices are valid and whose vertices all have a UV,
    [generate_tangents] returns; it changes nothing but the tangents; a
    vertex without a normal keeps its tangent; a vertex with normal [n]
    gets the fallback [(0, 0, 0, 1)] exactly when the Gram-Schmidt
    orthogonalized accumulated tangent is shorter than [1e-8], and
    otherwise a tangent of unit length, orthogonal to [n] when [n] has
    unit length, with sign [-1] if
    [dot(cross(n, tangent), accumulated bitangent) < 0] and [+1]
    otherwise; and a triangle with [|det| < 1e-8] changes no
    accumulator. *)
Theorem tangents_of_well_formed_model
    (m : IntermediateModel) (v0 : IntermediateVertex) (n0 : R3) (a0 : R2) :
  head (vertices m) = Some v0 → normal v0 = Some n0 → uv v0 = Some a0 →
  well_formed m →
  ∃ tan1 tan2 m',
    accumulate (vertices m) (all_triangles m)
      (replicate (length (vertices m)) zero3,
       replicate (length (vertices m)) zero3) = Some (tan1, tan2) ∧
    generate_tangents m = Some m' ∧
    geometries m' = geometries m ∧
    length (vertices m') = length (vertices m) ∧
    (∀ i v, vertices m !! i = Some v →
       ∃ v' t b,
         vertices m' !! i = Some v' ∧ tan1 !! i = Some t ∧ tan2 !! i = Some b ∧
         position v' = position v ∧ normal v' = normal v ∧ uv v' = uv v ∧
         match normal v with
         | None => tangent v' = tangent v
         | Some n =>
             let len := norm (gram_schmidt n t) in
             (len < tiny → tangent v' = Some (0, 0, 0, 1)) ∧
             (¬ len < tiny →
              ∃ x y z s,
                tangent v' = Some (x, y, z, s) ∧
                x * x + y * y + z * z = 1 ∧
                (dot n n = 1 → dot n (x, y, z) = 0) ∧
                (dot (cross n (x, y, z)) b < 0 → s = -1) ∧
                (¬ dot (cross n (x, y, z)) b < 0 → s = 1))
         end) ∧
    (∀ acc i0 i1 i2 w0 w1 w2 u0 u1 u2,
       py_index (vertices m) i0 = Some w0 →
       py_index (vertices m) i1 = Some w1 →
       py_index (vertices m) i2 = Some w2 →
       uv w0 = Some u0 → uv w1 = Some u1 → uv w2 = Some u2 →
       Rabs (uv_det u0 u1 u2) < tiny →
       accumulate_triangle (vertices m) acc (i0, i1, i2) = Some acc).
Proof.
  intros Hhd Hn0 Ha0 [Htris Huv].
  destruct (accumulate_total (vertices m) (all_triangles m)
              (replicate (length (vertices m)) zero3,
               replicate (length (vertices m)) zero3))
    as ([tan1 tan2] & Hacc & Hl1 & Hl2);
    [simpl; apply length_replicate..|exact Htris|exact Huv|].
  simpl in Hl1, Hl2.
  exists tan1, tan2.
  exists {| vertices :=
              imap (λ i v, finalize v (default zero3 (tan1 !! i))
                                      (default zero3 (tan2 !! i)))
                   (vertices m);
            geometries := geometries m |}.
  split; [exact Hacc|].
  split.
  { unfold generate_tangents. rewrite Hacc.
    destruct (vertices m) as [|v vs] eqn:Hvs; [discriminate|].
    injection Hhd as ->. rewrite Hn0, Ha0. reflexivity. }
  cbn [geometries vertices fst snd].
  split; [reflexivity|]. split; [apply length_imap|].
  split; [|intros; eapply degenerate_triangle_contributes_nothing; eauto].
  intros i v Hv.
  assert (Hi : (i < length (vertices m))%nat) by (eapply lookup_lt_Some; eauto).
  destruct (lookup_lt_is_Some_2 tan1 i) as [t Ht]; [lia|].
  destruct (lookup_lt_is_Some_2 tan2 i) as [b Hb]; [lia|].
  exists (finalize v t b), t, b.
  split; [rewrite list_lookup_imap, Hv; simpl; rewrite Ht, Hb; reflexivity|].
  split; [exact Ht|]. split; [exact Hb|].
  destruct (normal v) as [n|] eqn:Hn.
  - destruct (finalize_spec v n t b Hn) as (Hp & Hnn & Hu & Hsmall & Hbig).
    rewrite Hn in Hnn. split_and!; try assumption.
  - unfold finalize. rewrite Hn. split_and!; try reflexivity. exact Hn.
Qed.

(** *** Two models on which the claim as worded fails *)

Definition bare (p : R3) (n : option R3) (t : R2) : IntermediateVertex :=
  {| position := p; normal := n; uv := Some t; tangent := None |}.

(** Vertex 1 has no normal. *)
Definition no_normal_model : IntermediateModel :=
  {| vertices := [ bare (0, 0, 0) (Some (0, 0, 1)) (0, 0);
                   bare (1, 0, 0) None (1, 0) ];
     geometries := [] |}.

(** One triangle; the normal of vertex 0 is [(1, 1, 0)], not of unit
    length. *)
Definition long_normal_model : IntermediateModel :=
  {| vertices := [ bare (0, 0, 0) (Some (1, 1, 0)) (0, 0);
                   bare (1, 0, 0) (Some (0, 0, 1)) (1, 0);
                   bare (0, 1, 0) (Some (0, 0, 1)) (0, 1) ];
     geometries := [ {| lod_levels := [ {| triangles := [(0, 1, 2)%Z] |} ] |} ] |}.

Lemma long_normal_accumulated :
  accumulate (vertices long_normal_model) (all_triangles long_normal_model)
    (replicate 3 zero3, replicate 3 zero3)
  = Some (replicate 3 (add3 zero3 (1 * 1, 0 * 1, 0 * 1)),
          replicate 3 (add3 zero3 (0 * 1, 1 * 1, 0 * 1))).
Proof.
  assert (Hdet : uv_det (0, 0) (1, 0) (0, 1) = 1)
    by (unfold uv_det; simpl; ring).
  assert (Hdir : directions (0, 0, 0) (1, 0, 0) (0, 1, 0) (0, 0) (1, 0) (0, 1)
                 = ((1 * 1, 0 * 1, 0 * 1), (0 * 1, 1 * 1, 0 * 1))).
  { unfold directions. rewrite Hdet. simpl.
    repeat f_equal; field. }
  change (all_triangles long_normal_model) with [(0, 1, 2)%Z].
  cbn [accumulate].
  erewrite accumulate_triangle_nondegenerate;
    [reflexivity|reflexivity..| |exact Hdir].
  rewrite Hdet, Rabs_R1. unfold tiny. lra.
Qed.

(** The claim as worded is false of both models: in the first, vertex 1
    keeps [tangent = None]; in the second, vertex 0 gets the tangent
    [(0, -1, 0, 1)], whose dot product with the normal is [-1]. *)
Lemma every_tangent_orthonormal_fails :
  (∃ m', generate_tangents no_normal_model = Some m'
         ∧ ¬ every_tangent_orthonormal m') ∧
  (∃ m', generate_tangents long_normal_model = Some m'
         ∧ ¬ every_tangent_orthonormal m').
Proof.
  split.
  - eexists. split; [reflexivity|].
    intros Hclaim. specialize (Hclaim 1%nat _ eq_refl).
    cbn in Hclaim. destruct Hclaim as [H|(n & x & y & z & s & H & _)];
      discriminate H.
  - unfold generate_tangents.
    cbn [long_normal_model vertices bare normal uv length].
    pose proof long_normal_accumulated as Hacc.
    cbn [long_normal_model vertices length] in Hacc. rewrite Hacc.
    eexists. split; [reflexivity|].
    intros Hclaim. specialize (Hclaim 0%nat _ eq_refl).
    cbn [default lookup list_lookup fst snd replicate from_option
         Datatypes.id] in Hclaim.
    set (t := add3 zero3 (1 * 1, 0 * 1, 0 * 1)) in Hclaim.
    set (b := add3 zero3 (0 * 1, 1 * 1, 0 * 1)) in Hclaim.
    set (v := bare (0, 0, 0) (Some (1, 1, 0)) (0, 0)) in Hclaim.
    assert (Hlen : norm (gram_schmidt (1, 1, 0) t) = 1).
    { subst t. unfold norm, gram_schmidt, add3, zero3.
      replace (_ + _ + _) with 1 by ring. apply sqrt_1. }
    assert (Htan : tangent (finalize v t b)
                   = Some (0 * (1 / 1), -1 * (1 / 1), 0 * (1 / 1), 1)).
    { unfold finalize. cbn [v bare normal].
      destruct (gram_schmidt (1, 1, 0) t) as [[gx gy] gz] eqn:Hg.
      rewrite Hlen.
      destruct (Rlt_dec 1 tiny) as [Hlt|_];
        [exfalso; unfold tiny in Hlt; lra|].
      cbn [set_tangent tangent].
      subst t. unfold gram_schmidt, add3, zero3 in Hg.
      injection Hg as <- <- <-.
      destruct (Rlt_dec _ _) as [Hneg|_].
      - exfalso. subst b. unfold dot, cross, add3, zero3 in Hneg. lra.
      - repeat f_equal; ring. }
    assert (Hnorm : normal (finalize v t b) = Some (1, 1, 0)).
    { destruct (finalize_spec v (1, 1, 0) t b eq_refl) as (_ & H & _).
      exact H. }
    destruct Hclaim as [H|(n & x & y & z & s & Hn & Ht & _ & Horth & _)].
    + rewrite Htan in H. injection H as _ H _. lra.
    + rewrite Hnorm in Hn. injection Hn as <-.
      rewrite Htan in Ht. injection Ht as <- <- <- <-.
      unfold dot in Horth. lra.
Qed.

(** A planar quad of two triangles with axis-aligned UVs. *)
Definition quad : IntermediateModel :=
  {| vertices := [ bare (0, 0, 0) (Some (0, 0, 1)) (0, 0);
                   bare (1, 0, 0) (Some (0, 0, 1)) (1, 0);
                   bare (1, 1, 0) (Some (0, 0, 1)) (1, 1);
                   bare (0, 1, 0) (Some (0, 0, 1)) (0, 1) ];
     geometries :=
       [ {| lod_levels :=
              [ {| triangles := [(0, 1, 2)%Z; (0, 2, 3)%Z] |} ] |} ] |}.

(** The theorem at the quad. *)
Lemma tangents_of_well_formed_model_witness :
  ∃ m', generate_tangents quad = Some m' ∧ length (vertices m') = 4%nat.
Proof.
  destruct (tangents_of_well_formed_model quad
              (bare (0, 0, 0) (Some (0, 0, 1)) (0, 0)) (0, 0, 1) (0, 0)
              eq_refl eq_refl eq_refl)
    as (tan1 & tan2 & m' & _ & Hrun & _ & Hlen & _).
  - split.
    + repeat constructor; unfold valid_index; simpl; lia.
    + repeat constructor; eauto.
  - exists m'. split; [exact Hrun|exact Hlen].
Defined.

End Tangents.

(** ** mesh/optimize.py *)

Module Optimize.
Import PySeq.

Abbreviation triangle := (Z * Z * Z)%type.

Definition CACHE_SIZE : Z := 32.

(** Python's float arithmetic, as far as this file uses it: literals and
    converted ints ([lit]), [+], [-], [*], [/], [**] and [>]. *)
Record float_ops := {
  float : Type;
  lit : Q → float;
  add : float → float → float;
  sub : float → float → float;
  mul : float → float → float;
  div : float → float → float;
  pow : float → float → float;
  gt : float → float → bool
}.

Definition indices_of (t : triangle) : list Z :=
  let '(a, b, c) := t in [a; b; c].

(** [0 <= v < vertex_count]. *)
Definition in_range (vertex_count v : Z) : bool :=
  (0 <=? v)%Z && (v <? vertex_count)%Z.

(** [for x in l: acc = body(acc, x)] where the body may raise. *)
Fixpoint fold_opt {A B} (body : B → A → option B) (acc : B) (l : list A)
    : option B :=
  match l with
  | [] => Some acc
  | x :: rest => acc' ← body acc x; fold_opt body acc' rest
  end.

Section Forsyth.

Variable fl : float_ops.

(** The order in which a [for] loop visits a Python [set] built from the
    elements of a list. *)
Variable set_order : list Z → list Z.

Abbreviation F := (float fl).

Definition _LAST_TRI_SCORE : F := lit fl 0.75.
Definition _CACHE_DECAY_POWER : F := lit fl 1.5.
Definition _VALENCE_BOOST_SCALE : F := lit fl 2.
Definition _VALENCE_BOOST_POWER : F := lit fl (-0.5).

Definition _vertex_score (cache_position active_tri_count : Z) : F :=
  if (active_tri_count =? 0)%Z then lit fl (-1)
  else
    let score :=
      if (0 <=? cache_position)%Z then
        if (cache_position <? 3)%Z then _LAST_TRI_SCORE
        else
          let t := div fl (lit fl (inject_Z (cache_position - 3)))
                          (lit fl (inject_Z (CACHE_SIZE - 3))) in
          pow fl (sub fl (lit fl 1) t) _CACHE_DECAY_POWER
      else lit fl 0 in
    add fl score
      (mul fl _VALENCE_BOOST_SCALE
           (pow fl (lit fl (inject_Z active_tri_count)) _VALENCE_BOOST_POWER)).

(** [sum(xs)]: the start value is [0]. *)
Definition fsum (xs : list F) : F := foldl (add fl) (lit fl 0) xs.

Variable triangles : list triangle.
Variable vertex_count : Z.

Definition tri_count : Z := Z.of_nat (length triangles).

(** [vert_tris]: for every vertex, the indices of the triangles that use
    it, once per corner. *)
Definition add_corners (ti : Z) (vt : list (list Z)) (corners : list Z)
    : list (list Z) :=
  foldl (λ vt vi, if in_range vertex_count vi
                  then alter (λ l, l ++ [ti]) (Z.to_nat vi) vt
                  else vt)
        vt corners.

Definition vert_tris_of (ts : list triangle) : list (list Z) :=
  foldl (λ vt p, add_corners (Z.of_nat p.1) vt (indices_of p.2))
        (replicate (Z.to_nat vertex_count) [])
        (imap pair ts).

Definition vert_tris : list (list Z) := vert_tris_of triangles.

(** [sum(scores[v] for v in tri if 0 <= v < vertex_count)]. *)
Definition triangle_score (scores : list F) (tri : triangle) : option F :=
  fsum <$> mapM (py_index scores) (filter (λ v, in_range vertex_count v = true)
                                          (indices_of tri)).

(** The variables of the main loop. *)
Record LoopState := {
  active_count : list Z;
  cache_pos : list Z;
  scores : list F;
  tri_scores : list F;
  emitted : list bool;
  cache : list Z;
  best_tri : Z;
  result : list triangle;
  emitted_count : Z
}.

(** [max(range(tri_count), key=lambda i: tri_scores[i])]: the first index
    of a largest score. *)
Definition first_max (tri_scores : list F) : option Z :=
  match tri_scores with
  | [] => None
  | s0 :: rest =>
      Some (foldl (λ best p, if gt fl p.2 best.2 then p else best)
                  (0%Z, s0)
                  (imap (λ i s, (Z.of_nat (S i), s)) rest)).1
  end.

Definition initial_state : option LoopState :=
  let active := (λ tl : list Z, Z.of_nat (length tl)) <$> vert_tris in
  let cpos := replicate (Z.to_nat vertex_count) (-1)%Z in
  sc ← mapM (λ v, _vertex_score (-1) <$> py_index active v)
            (py_range vertex_count);
  ts ← mapM (triangle_score sc) triangles;
  best ← first_max ts;
  Some {| active_count := active; cache_pos := cpos; scores := sc;
          tri_scores := ts;
          emitted := replicate (length triangles) false;
          cache := []; best_tri := best; result := []; emitted_count := 0 |}.

(** "Find next best un-emitted triangle": the scan over all triangles,
    from [(best_tri, best_score) = (-1, -2.0)]. *)
Definition scan_step (em : list bool) (ts : list F) (best : Z * F) (ti : Z)
    : option (Z * F) :=
  e ← py_index em ti;
  if e : bool then Some best
  else s ← py_index ts ti;
       Some (if gt fl s best.2 then (ti, s) else best).

Definition next_best (em : list bool) (ts : list F) : option (Z * F) :=
  fold_opt (scan_step em ts) ((-1)%Z, lit fl (-2)) (py_range tri_count).

(** The triangle to emit: [None] inside is the [break]. *)
Definition select (st : LoopState) : option (option Z) :=
  e ← py_index (emitted st) (best_tri st);
  if e : bool then
    b ← next_best (emitted st) (tri_scores st);
    Some (if (b.1 <? 0)%Z then None else Some b.1)
  else Some (Some (best_tri st)).

(** [active_count[v] -= 1] for the corners in range; the loop also reads
    [cache_pos[v]] (for [new_verts], which is not used afterwards). *)
Definition release_corner (cpos : list Z) (active : list Z) (v : Z)
    : option (list Z) :=
  if in_range vertex_count v then
    a ← py_index active v;
    active' ← py_store active v (a - 1)%Z;
    _ ← py_index cpos v;
    Some active'
  else Some active.

(** The new cache before trimming: the corners in range, then the old
    entries that are not among them. *)
Definition push_front (tri : triangle) (old_cache : list Z) : list Z :=
  foldl (λ c v, if bool_decide (v ∈ c) then c else c ++ [v])
        (filter (λ v, in_range vertex_count v = true) (indices_of tri))
        old_cache.

(** [for v in cache[CACHE_SIZE:]: cache_pos[v] = -1]. *)
Definition evict (c : list Z) (cpos : list Z) : option (list Z) :=
  if bool_decide (CACHE_SIZE < Z.of_nat (length c))%Z
  then fold_opt (λ cp v, py_store cp v (-1)%Z) cpos
                (drop (Z.to_nat CACHE_SIZE) c)
  else Some cpos.

Definition trim (c : list Z) : list Z :=
  if bool_decide (CACHE_SIZE < Z.of_nat (length c))%Z
  then take (Z.to_nat CACHE_SIZE) c else c.

(** [for pos, v in enumerate(cache): cache_pos[v] = pos]. *)
Definition place (c : list Z) (cpos : list Z) : option (list Z) :=
  fold_opt (λ cp p, py_store cp p.2 (Z.of_nat p.1)) cpos (imap pair c).

(** [for v in dirty_verts: scores[v] = _vertex_score(...)]. *)
Definition rescore (cpos active : list Z) (dirty : list Z) (sc : list F)
    : option (list F) :=
  fold_opt (λ sc v,
              p ← py_index cpos v;
              a ← py_index active v;
              py_store sc v (_vertex_score p a))
           sc dirty.

(** The members of [dirty_tris], in the order they are added. *)
Definition dirty_triangles (em : list bool) (dirty : list Z)
    : option (list Z) :=
  fold_opt (λ acc v,
              tl ← py_index vert_tris v;
              more ← fold_opt (λ acc ti,
                                 e ← py_index em ti;
                                 Some (if e : bool then acc else acc ++ [ti]))
                              [] tl;
              Some (acc ++ more))
           [] dirty.

(** [for ti in dirty_tris]: new triangle scores and the best of them,
    from [(best_tri, best_score) = (-1, -2.0)]. *)
Definition retotal (sc : list F) (dirty_tris : list Z) (ts : list F)
    : option (list F * (Z * F)) :=
  fold_opt (λ acc ti,
              tri ← py_index triangles ti;
              s ← triangle_score sc tri;
              ts' ← py_store acc.1 ti s;
              Some (ts', if gt fl s acc.2.2 then (ti, s) else acc.2))
           (ts, ((-1)%Z, lit fl (-2))) dirty_tris.

(** The body of the [while] loop once the triangle is chosen. *)
Definition emit (st : LoopState) (chosen : Z) : option LoopState :=
  tri ← py_index triangles chosen;
  em ← py_store (emitted st) chosen true;
  active ← fold_opt (release_corner (cache_pos st)) (active_count st)
                    (indices_of tri);
  let c := push_front tri (cache st) in
  cpos ← evict c (cache_pos st);
  let c := trim c in
  cpos ← place c cpos;
  let dirty_verts :=
    set_order (c ++ filter (λ v, in_range vertex_count v = true)
                           (indices_of tri)) in
  sc ← rescore cpos active dirty_verts (scores st);
  dts ← dirty_triangles em dirty_verts;
  r ← retotal sc (set_order dts) (tri_scores st);
  Some {| active_count := active; cache_pos := cpos; scores := sc;
          tri_scores := r.1; emitted := em; cache := c;
          best_tri := r.2.1; result := result st ++ [tri];
          emitted_count := (emitted_count st + 1)%Z |}.

(** [while emitted_count < tri_count], at most [fuel] iterations; [None]
    when an exception is raised or the fuel does not suffice. *)
Fixpoint loop (fuel : nat) (st : LoopState) : option LoopState :=
  if (emitted_count st <? tri_count)%Z then
    match fuel with
    | O => None
    | S fuel' =>
        chosen ← select st;
        match chosen with
        | None => Some st
        | Some b => st' ← emit st b; loop fuel' st'
        end
    end
  else Some st.

Definition optimize_triangles : option (list triangle) :=
  if (tri_count <=? 1)%Z || (vertex_count <=? CACHE_SIZE)%Z
  then Some triangles
  else st ← initial_state;
       st' ← loop (length triangles) st;
       Some (result st').


(** *** Lists indexed by Python ints *)

Lemma py_index_nat {A} (l : list A) (i : Z) :
  (0 ≤ i)%Z → py_index l i = l !! Z.to_nat i.
Proof.
  intros Hi. unfold py_index. destruct (0 <=? i)%Z eqn:H; [reflexivity|lia].
Qed.

Lemma py_store_nat {A} (l : list A) (i : Z) (x : A) :
  (0 ≤ i < Z.of_nat (length l))%Z →
  py_store l i x = Some (<[Z.to_nat i := x]> l).
Proof.
  intros Hi. unfold py_store.
  destruct (0 <=? i)%Z eqn:H0; [|lia].
  destruct (i <? Z.of_nat (length l))%Z eqn:H1; [reflexivity|lia].
Qed.

(** The position that index [i] denotes in a list of length [len]. *)
Definition position_of (len : nat) (i : Z) : nat :=
  if (0 <=? i)%Z then Z.to_nat i else Z.to_nat (Z.of_nat len + i).

Lemma position_of_lt len i :
  (- Z.of_nat len ≤ i < Z.of_nat len)%Z → (position_of len i < len)%nat.
Proof. unfold position_of. destruct (0 <=? i)%Z eqn:H; lia. Qed.

Lemma py_index_position {A} (l : list A) (i : Z) :
  (- Z.of_nat (length l) ≤ i < Z.of_nat (length l))%Z →
  py_index l i = l !! position_of (length l) i.
Proof.
  intros Hi. unfold py_index, position_of.
  destruct (0 <=? i)%Z eqn:H0; [reflexivity|].
  destruct (0 <=? Z.of_nat (length l) + i)%Z eqn:H1; [reflexivity|lia].
Qed.

Lemma py_store_position {A} (l : list A) (i : Z) (x : A) :
  (- Z.of_nat (length l) ≤ i < Z.of_nat (length l))%Z →
  py_store l i x = Some (<[position_of (length l) i := x]> l).
Proof.
  intros Hi. unfold py_store, position_of.
  destruct (0 <=? i)%Z eqn:H0.
  - destruct (i <? Z.of_nat (length l))%Z eqn:H1; [reflexivity|lia].
  - destruct (0 <=? Z.of_nat (length l) + i)%Z eqn:H1; [reflexivity|lia].
Qed.

(** A loop whose body keeps an invariant and never raises on the elements
    of the list runs to its end and keeps the invariant. *)
Lemma fold_opt_inv {A B} (P : B → Prop) (body : B → A → option B)
    (l : list A) (acc : B) :
  P acc →
  (∀ acc x, x ∈ l → P acc → ∃ acc', body acc x = Some acc' ∧ P acc') →
  ∃ acc', fold_opt body acc l = Some acc' ∧ P acc'.
Proof.
  revert acc. induction l as [|x l IH]; intros acc Hacc Hbody; simpl.
  - eauto.
  - destruct (Hbody acc x) as (acc1 & -> & H1); [left|exact Hacc|].
    simpl. apply IH; [exact H1|].
    intros acc' y Hy. apply Hbody. right. exact Hy.
Qed.

(** The same with an invariant that may mention the elements already
    visited. *)
Lemma fold_opt_prefix_inv {A B} (P : list A → B → Prop)
    (body : B → A → option B) (l : list A) (acc : B) :
  P [] acc →
  (∀ pre x acc, P pre acc → x ∈ l →
                ∃ acc', body acc x = Some acc' ∧ P (pre ++ [x]) acc') →
  ∃ acc', fold_opt body acc l = Some acc' ∧ P l acc'.
Proof.
  intros Hacc Hbody.
  assert (Hgen : ∀ rest pre acc,
            P pre acc → (∀ x, x ∈ rest → x ∈ l) →
            ∃ acc', fold_opt body acc rest = Some acc' ∧ P (pre ++ rest) acc').
  { induction rest as [|x rest IH]; intros pre acc0 Hpre Hsub; simpl.
    - rewrite app_nil_r. eauto.
    - destruct (Hbody pre x acc0 Hpre) as (acc1 & -> & H1);
        [apply Hsub; left|].
      simpl. destruct (IH (pre ++ [x]) acc1 H1) as (acc2 & Hrun & H2).
      { intros y Hy. apply Hsub. right. exact Hy. }
      rewrite <- app_assoc in H2. eauto. }
  destruct (Hgen l [] acc Hacc) as (acc' & Hrun & H); eauto.
Qed.

Lemma mapM_total {A B} (f : A → option B) (l : list A) :
  (∀ x, x ∈ l → is_Some (f x)) →
  ∃ k, mapM f l = Some k ∧ length k = length l
       ∧ ∀ i x, l !! i = Some x → f x = k !! i.
Proof.
  induction l as [|x l IH]; intros Hf.
  - exists []. split_and!; [reflexivity..|]. intros i x Hx.
    rewrite lookup_nil in Hx. discriminate.
  - destruct (Hf x) as [y Hy]; [left|].
    destruct IH as (k & Hk & Hlen & Hlook); [intros z Hz; apply Hf; right; exact Hz|].
    exists (y :: k). split_and!.
    + cbn. rewrite Hy. cbn. rewrite Hk. reflexivity.
    + simpl. congruence.
    + intros [|i] z Hz; simpl in *; [congruence|eauto].
Qed.

(** *** Counting *)

(** How many corners of [tri] are the vertex [v]. *)
Definition cnt (v : Z) (tri : triangle) : nat :=
  length (filter (λ x, x = v) (indices_of tri)).

(** How many corners of triangles not yet emitted are the vertex [v]. *)
Fixpoint occ (v : Z) (em : list bool) (ts : list triangle) : nat :=
  match em, ts with
  | e :: em', t :: ts' => (if e then 0 else cnt v t) + occ v em' ts'
  | _, _ => 0
  end.

(** The emitted triangles, in index order. *)
Fixpoint taken (em : list bool) (ts : list triangle) : list triangle :=
  match em, ts with
  | e :: em', t :: ts' => (if e then [t] else []) ++ taken em' ts'
  | _, _ => []
  end.

Fixpoint count_true (em : list bool) : nat :=
  match em with
  | [] => 0
  | e :: em' => (if e then 1 else 0) + count_true em'
  end.

Lemma occ_emit v ts : ∀ em k t,
  em !! k = Some false → ts !! k = Some t →
  occ v em ts = (occ v (<[k := true]> em) ts + cnt v t)%nat.
Proof.
  induction ts as [|t0 ts IH]; intros em k t Hem Hts.
  - rewrite lookup_nil in Hts. discriminate.
  - destruct em as [|e em]; [rewrite lookup_nil in Hem; discriminate|].
    destruct k as [|k]; simpl in *.
    + injection Hem as ->. injection Hts as ->. lia.
    + rewrite (IH em k t Hem Hts). lia.
Qed.

Lemma taken_emit ts : ∀ em k t,
  em !! k = Some false → ts !! k = Some t →
  taken (<[k := true]> em) ts ≡ₚ t :: taken em ts.
Proof.
  induction ts as [|t0 ts IH]; intros em k t Hem Hts.
  - rewrite lookup_nil in Hts. discriminate.
  - destruct em as [|e em]; [rewrite lookup_nil in Hem; discriminate|].
    destruct k as [|k]; simpl in *.
    + injection Hem as ->. injection Hts as ->. reflexivity.
    + rewrite (IH em k t Hem Hts). destruct e; simpl; [|reflexivity].
      apply Permutation_swap.
Qed.

Lemma count_emit : ∀ em k,
  em !! k = Some false → count_true (<[k := true]> em) = S (count_true em).
Proof.
  induction em as [|e em IH]; intros k Hem.
  - rewrite lookup_nil in Hem. discriminate.
  - destruct k as [|k]; simpl in *.
    + injection Hem as ->. reflexivity.
    + rewrite (IH k Hem). lia.
Qed.

Lemma occ_ge_cnt v ts : ∀ em k t,
  em !! k = Some false → ts !! k = Some t → (cnt v t ≤ occ v em ts)%nat.
Proof.
  intros em k t Hem Hts. rewrite (occ_emit v ts em k t Hem Hts). lia.
Qed.

Lemma count_true_le em : (count_true em ≤ length em)%nat.
Proof. induction em as [|[] em IH]; simpl; lia. Qed.

Lemma unemitted_exists em :
  (count_true em < length em)%nat → ∃ k, em !! k = Some false.
Proof.
  induction em as [|e em IH]; simpl; [lia|]. intros Hlt.
  destruct e; [|exists 0%nat; reflexivity].
  destruct IH as [k Hk]; [simpl in Hlt; lia|]. exists (S k). exact Hk.
Qed.

Lemma taken_all ts : ∀ em,
  length em = length ts → count_true em = length ts → taken em ts = ts.
Proof.
  induction ts as [|t ts IH]; intros [|e em] Hlen Hcount;
    simpl in *; try reflexivity; try discriminate.
  pose proof (count_true_le em).
  destruct e; simpl; [|lia]. f_equal. apply IH; lia.
Qed.

Lemma occ_app v : ∀ em1 ts1 em2 ts2,
  length em1 = length ts1 →
  occ v (em1 ++ em2) (ts1 ++ ts2) = (occ v em1 ts1 + occ v em2 ts2)%nat.
Proof.
  induction em1 as [|e em1 IH]; intros [|t ts1] em2 ts2 Hlen;
    simpl in *; try discriminate; [reflexivity|].
  rewrite IH by lia. lia.
Qed.

Lemma emit_still_unemitted (em : list bool) (k j : nat) :
  <[k := true]> em !! j = Some false → em !! j = Some false.
Proof.
  destruct (decide (k = j)) as [->|Hne].
  - intros H. apply list_lookup_insert_Some in H as [(_ & H & _)|(Hn & _)];
      [discriminate|contradiction].
  - rewrite list_lookup_insert_ne by exact Hne. auto.
Qed.

(** *** [vert_tris] *)

Abbreviation n := (Z.to_nat vertex_count).

Lemma in_range_nat (v : nat) :
  (v < n)%nat → in_range vertex_count (Z.of_nat v) = true.
Proof. intros Hv. unfold in_range. apply andb_true_iff. split; lia. Qed.

Lemma in_range_true (v : Z) :
  in_range vertex_count v = true → (0 ≤ v < vertex_count)%Z.
Proof. unfold in_range. intros [H1 H2]%andb_true_iff. lia. Qed.

Lemma in_range_position (len : nat) (v : Z) :
  len = n → in_range vertex_count v = true →
  (0 ≤ v < Z.of_nat len)%Z ∧ (Z.to_nat v < len)%nat.
Proof. intros -> Hv%in_range_true. lia. Qed.

Lemma add_corners_spec ti corners : ∀ vt,
  length vt = n →
  length (add_corners ti vt corners) = n ∧
  ∀ v l, (v < n)%nat → vt !! v = Some l →
    ∃ l', add_corners ti vt corners !! v = Some l' ∧
          length l' = (length l
                       + length (filter (λ x, x = Z.of_nat v) corners))%nat ∧
          ∀ x, x ∈ l' → x ∈ l ∨ x = ti.
Proof.
  induction corners as [|c corners IH]; intros vt Hlen.
  - split; [exact Hlen|]. intros v l Hv Hl. exists l. simpl.
    split_and!; [exact Hl|lia|auto].
  - unfold add_corners. cbn [foldl]. fold (add_corners ti).
    destruct (in_range vertex_count c) eqn:Hc.
    + destruct (IH (alter (λ l, l ++ [ti]) (Z.to_nat c) vt)) as [Hlen' Hspec];
        [rewrite length_alter; exact Hlen|].
      split; [exact Hlen'|]. intros v l Hv Hl.
      destruct (decide (c = Z.of_nat v)) as [->|Hne].
      * destruct (Hspec v (l ++ [ti]) Hv) as (l' & Hl' & Hlen'' & Hsub).
        { rewrite Nat2Z.id, list_lookup_alter_eq, Hl. reflexivity. }
        exists l'. split_and!; [exact Hl'| |].
        -- rewrite Hlen'', length_app, filter_cons_True by reflexivity.
           simpl. lia.
        -- intros x Hx. destruct (Hsub x Hx) as [Hin| ->]; [|auto].
           apply elem_of_app in Hin as [Hin|Hin]; [auto|].
           apply list_elem_of_singleton in Hin. auto.
      * destruct (Hspec v l Hv) as (l' & Hl' & Hlen'' & Hsub).
        { rewrite list_lookup_alter_ne; [exact Hl|].
          apply in_range_true in Hc. lia. }
        exists l'. split_and!; [exact Hl'| |exact Hsub].
        rewrite Hlen'', filter_cons_False by exact Hne. reflexivity.
    + destruct (IH vt Hlen) as [Hlen' Hspec].
      split; [exact Hlen'|]. intros v l Hv Hl.
      destruct (Hspec v l Hv Hl) as (l' & Hl' & Hlen'' & Hsub).
      exists l'. split_and!; [exact Hl'| |exact Hsub].
      rewrite Hlen'', filter_cons_False; [reflexivity|].
      intros ->. rewrite in_range_nat in Hc by exact Hv. discriminate.
Qed.

Lemma vert_tris_of_spec ts :
  length (vert_tris_of ts) = n ∧
  ∀ v, (v < n)%nat →
    ∃ l, vert_tris_of ts !! v = Some l ∧
         length l = occ (Z.of_nat v) (replicate (length ts) false) ts ∧
         Forall (λ ti, 0 ≤ ti < Z.of_nat (length ts))%Z l.
Proof.
  induction ts as [|t ts IH] using rev_ind.
  - split; [apply length_replicate|]. intros v Hv. exists [].
    split_and!; [apply lookup_replicate_2; exact Hv|reflexivity|constructor].
  - destruct IH as [Hlen Hspec].
    unfold vert_tris_of. rewrite imap_app, foldl_app. cbn [imap foldl fst snd].
    fold (vert_tris_of ts). rewrite Nat.add_0_r.
    destruct (add_corners_spec (Z.of_nat (length ts)) (indices_of t)
                (vert_tris_of ts) Hlen) as [Hlen' Hadd].
    split; [exact Hlen'|]. intros v Hv.
    destruct (Hspec v Hv) as (l & Hl & Hcount & Hbound).
    destruct (Hadd v l Hv Hl) as (l' & Hl' & Hlen'' & Hsub).
    exists l'. split_and!; [exact Hl'| |].
    + rewrite Hlen'', Hcount, length_app. simpl.
      rewrite Nat.add_1_r, replicate_S_end.
      rewrite occ_app by apply length_replicate. simpl. unfold cnt. lia.
    + apply Forall_forall. intros x Hx. rewrite length_app. simpl.
      destruct (Hsub x Hx) as [Hin| ->]; [|lia].
      rewrite Forall_forall in Hbound. specialize (Hbound x Hin). lia.
Qed.

(** *** The invariant of the main loop *)

(** A score of a vertex that still has an active triangle. *)
Definition live (s : F) : Prop :=
  ∃ p a, (-1 ≤ p < CACHE_SIZE)%Z ∧ (1 ≤ a)%Z ∧ s = _vertex_score p a.

(** A triangle score made of live vertex scores. *)
Definition scored (s : F) : Prop :=
  ∃ l, (length l ≤ 3)%nat ∧ Forall live l ∧ s = fsum l.

(** A set is visited in some order of its elements. *)
Hypothesis set_order_elements : ∀ l x, x ∈ set_order l ↔ x ∈ l.

(** In float arithmetic the score of a triangle whose vertices all have
    an active triangle is above the [-2.0] at which the searches start
    (it is a sum of at most three non-negative numbers). *)
Hypothesis live_score_above_start :
  ∀ l, (length l ≤ 3)%nat → Forall live l →
       gt fl (fsum l) (lit fl (-2)) = true.

Abbreviation T := (length triangles).

Definition slot_ok (p : Z) : Prop := (-1 ≤ p < CACHE_SIZE)%Z.

Record Inv (st : LoopState) : Prop := {
  len_active : length (active_count st) = n;
  len_cpos : length (cache_pos st) = n;
  len_scores : length (scores st) = n;
  len_tri_scores : length (tri_scores st) = T;
  len_emitted : length (emitted st) = T;
  cache_in_range : Forall (λ v, in_range vertex_count v = true) (cache st);
  cpos_slots : Forall slot_ok (cache_pos st);
  best_bound : (-1 ≤ best_tri st < Z.of_nat T)%Z;
  count_ok : emitted_count st = Z.of_nat (count_true (emitted st));
  result_ok : result st ≡ₚ taken (emitted st) triangles;
  active_ok : ∀ v, (v < n)%nat →
    active_count st !! v
    = Some (Z.of_nat (occ (Z.of_nat v) (emitted st) triangles));
  scores_ok : ∀ v a s,
    active_count st !! v = Some a → (1 ≤ a)%Z →
    scores st !! v = Some s → live s;
  tri_scores_ok : ∀ k s,
    emitted st !! k = Some false → tri_scores st !! k = Some s → scored s
}.

Lemma corners_scored (sc : list F) (corners : list Z) :
  (∀ v, v ∈ corners → ∃ s, py_index sc v = Some s ∧ live s) →
  ∃ k, mapM (py_index sc) corners = Some k
       ∧ length k = length corners ∧ Forall live k.
Proof.
  induction corners as [|c corners IH]; intros Hc.
  - exists []. split_and!; [reflexivity|reflexivity|constructor].
  - destruct (Hc c) as (s & Hs & Hlive); [left|].
    destruct IH as (k & Hk & Hlen & Hall);
      [intros v Hv; apply Hc; right; exact Hv|].
    exists (s :: k). split_and!.
    + cbn. rewrite Hs. cbn. rewrite Hk. reflexivity.
    + simpl. congruence.
    + constructor; assumption.
Qed.

Lemma triangle_score_scored (sc : list F) (tri : triangle) :
  (∀ v, v ∈ indices_of tri → in_range vertex_count v = true →
        ∃ s, py_index sc v = Some s ∧ live s) →
  ∃ s, triangle_score sc tri = Some s ∧ scored s.
Proof.
  intros Hc. unfold triangle_score.
  destruct (corners_scored sc
              (filter (λ v, in_range vertex_count v = true) (indices_of tri)))
    as (k & -> & Hlen & Hall).
  { intros v [Hr Hv]%list_elem_of_filter. auto. }
  eexists. split; [reflexivity|]. exists k. split_and!; [|exact Hall|reflexivity].
  rewrite Hlen. etrans; [apply length_filter|].
  destruct tri as [[a b] c]. simpl. lia.
Qed.

Lemma release_corner_in (cpos active : list Z) (c : Z) :
  length active = n → length cpos = n → in_range vertex_count c = true →
  ∃ a, active !! Z.to_nat c = Some a ∧
       release_corner cpos active c
       = Some (<[Z.to_nat c := (a - 1)%Z]> active).
Proof.
  intros Hlen Hcp Hc. unfold release_corner. rewrite Hc.
  destruct (in_range_position (length active) c Hlen Hc) as [Hcz Hcn].
  destruct (lookup_lt_is_Some_2 active (Z.to_nat c) Hcn) as [a0 Ha0].
  destruct (lookup_lt_is_Some_2 cpos (Z.to_nat c)) as [p0 Hp0]; [lia|].
  exists a0. split; [exact Ha0|].
  rewrite !py_index_nat by lia. rewrite Ha0. cbn.
  rewrite py_store_nat by lia. cbn. rewrite Hp0. reflexivity.
Qed.

Lemma release_corner_out (cpos active : list Z) (c : Z) :
  in_range vertex_count c = false → release_corner cpos active c = Some active.
Proof. intros Hc. unfold release_corner. rewrite Hc. reflexivity. Qed.

Lemma release_spec (cpos : list Z) (corners : list Z) : ∀ active,
  length active = n → length cpos = n →
  ∃ active',
    fold_opt (release_corner cpos) active corners = Some active' ∧
    length active' = n ∧
    ∀ v a, (v < n)%nat → active !! v = Some a →
      active' !! v
      = Some (a - Z.of_nat (length (filter (λ x, x = Z.of_nat v) corners)))%Z.
Proof.
  induction corners as [|c corners IH]; intros active Hlen Hcp;
    cbn [fold_opt].
  - exists active. split_and!; [reflexivity|exact Hlen|].
    intros v a Hv Ha. rewrite Ha. f_equal. simpl. lia.
  - destruct (in_range vertex_count c) eqn:Hc.
    + destruct (release_corner_in cpos active c Hlen Hcp Hc)
        as (a0 & Ha0 & ->).
      destruct (in_range_position (length active) c Hlen Hc) as [Hcz Hcn].
      cbn.
      destruct (IH (<[Z.to_nat c := (a0 - 1)%Z]> active))
        as (active' & Hrun & Hlen' & Hspec);
        [rewrite length_insert; exact Hlen|exact Hcp|].
      exists active'. split_and!; [exact Hrun|exact Hlen'|].
      intros v a Hv Ha. destruct (decide (c = Z.of_nat v)) as [->|Hne].
      * rewrite Nat2Z.id in *. rewrite Ha in Ha0. injection Ha0 as <-.
        rewrite (Hspec v (a - 1)%Z Hv)
          by (apply list_lookup_insert_eq; lia).
        f_equal. cbn [length]. rewrite Nat2Z.inj_succ.
        assert (Hz : ∀ x y : Z, x = y → (a - 1 - x = a - Z.succ y)%Z)
          by (intros; lia).
        apply Hz. reflexivity.
      * rewrite (Hspec v a Hv)
          by (rewrite list_lookup_insert_ne; [exact Ha|lia]).
        reflexivity.
    + rewrite (release_corner_out cpos active c Hc). cbn.
      destruct (IH active Hlen Hcp) as (active' & Hrun & Hlen' & Hspec).
      exists active'. split_and!; [exact Hrun|exact Hlen'|].
      intros v a Hv Ha. rewrite (Hspec v a Hv Ha).
      destruct (decide (c = Z.of_nat v)) as [->|_]; [|reflexivity].
      rewrite in_range_nat in Hc by exact Hv. discriminate.
Qed.

Lemma push_front_in_range (tri : triangle) (old_cache : list Z) :
  Forall (λ v, in_range vertex_count v = true) old_cache →
  Forall (λ v, in_range vertex_count v = true) (push_front tri old_cache).
Proof.
  intros Hold. unfold push_front.
  assert (Hbase : Forall (λ v, in_range vertex_count v = true)
            (filter (λ v, in_range vertex_count v = true) (indices_of tri))).
  { apply Forall_forall. intros v [Hv _]%list_elem_of_filter. exact Hv. }
  revert Hbase. generalize (filter (λ v, in_range vertex_count v = true)
                                   (indices_of tri)).
  induction Hold as [|v old Hv Hold IH]; intros c Hc; simpl; [exact Hc|].
  apply IH. case_bool_decide; [exact Hc|].
  apply Forall_app. split; [exact Hc|]. constructor; [exact Hv|constructor].
Qed.

Lemma trim_spec (c : list Z) :
  Forall (λ v, in_range vertex_count v = true) c →
  Forall (λ v, in_range vertex_count v = true) (trim c)
  ∧ (Z.of_nat (length (trim c)) ≤ CACHE_SIZE)%Z.
Proof.
  intros Hc. unfold trim. case_bool_decide as Hlen.
  - split; [apply Forall_take; exact Hc|]. rewrite length_take.
    unfold CACHE_SIZE in *. lia.
  - split; [exact Hc|lia].
Qed.

(** Writing slots into [cache_pos] at cached vertices. *)
Lemma store_slots (items : list (Z * Z)) (cpos : list Z) :
  length cpos = n → Forall slot_ok cpos →
  Forall (λ q, in_range vertex_count q.1 = true ∧ slot_ok q.2) items →
  ∃ cpos', fold_opt (λ cp q, py_store cp q.1 q.2) cpos items = Some cpos'
           ∧ length cpos' = n ∧ Forall slot_ok cpos'.
Proof.
  intros Hlen Hok Hitems.
  destruct (fold_opt_inv (λ cp, length cp = n ∧ Forall slot_ok cp)
              (λ cp q, py_store cp q.1 q.2) items cpos) as (cpos' & Hrun & H').
  - split; assumption.
  - intros cp q Hq [Hl Hs]. rewrite Forall_forall in Hitems.
    destruct (Hitems q Hq) as [Hr Hslot].
    destruct (in_range_position (length cp) q.1 Hl Hr) as [Hz Hn].
    rewrite py_store_nat by lia. eexists. split; [reflexivity|].
    split; [rewrite length_insert; exact Hl|].
    apply Forall_insert; assumption.
  - exists cpos'. destruct H'. auto.
Qed.

Lemma evict_spec (c : list Z) (cpos : list Z) :
  Forall (λ v, in_range vertex_count v = true) c →
  length cpos = n → Forall slot_ok cpos →
  ∃ cpos', evict c cpos = Some cpos' ∧ length cpos' = n ∧ Forall slot_ok cpos'.
Proof.
  intros Hc Hlen Hok. unfold evict. case_bool_decide; [|eauto].
  destruct (store_slots ((λ v, (v, (-1)%Z)) <$> drop (Z.to_nat CACHE_SIZE) c)
              cpos Hlen Hok) as (cpos' & Hrun & H').
  - apply Forall_fmap, Forall_forall. intros v Hv. simpl. split.
    + apply (Forall_drop _ (Z.to_nat CACHE_SIZE)) in Hc.
      rewrite Forall_forall in Hc. apply Hc. exact Hv.
    + unfold slot_ok, CACHE_SIZE. lia.
  - exists cpos'. split; [|exact H'].
    rewrite <- Hrun. clear.
    generalize (drop (Z.to_nat CACHE_SIZE) c). intros l. revert cpos.
    induction l as [|v l IH]; intros cpos; simpl; [reflexivity|].
    destruct (py_store cpos v (-1)%Z); simpl; [apply IH|reflexivity].
Qed.

Lemma place_spec (c : list Z) (cpos : list Z) :
  Forall (λ v, in_range vertex_count v = true) c →
  (Z.of_nat (length c) ≤ CACHE_SIZE)%Z →
  length cpos = n → Forall slot_ok cpos →
  ∃ cpos', place c cpos = Some cpos' ∧ length cpos' = n ∧ Forall slot_ok cpos'.
Proof.
  intros Hc Hsize Hlen Hok. unfold place.
  destruct (store_slots ((λ p : nat * Z, (p.2, Z.of_nat p.1)) <$> imap pair c)
              cpos Hlen Hok) as (cpos' & Hrun & H').
  - apply Forall_fmap, Forall_forall. intros [i v] Hiv. simpl.
    apply list_elem_of_lookup in Hiv as [j Hj].
    rewrite list_lookup_imap in Hj.
    destruct (c !! j) as [w|] eqn:Hw; [|discriminate].
    injection Hj as <- <-. split.
    + rewrite Forall_forall in Hc. apply Hc.
      eapply list_elem_of_lookup_2. exact Hw.
    + apply lookup_lt_Some in Hw. unfold slot_ok. lia.
  - exists cpos'. split; [|exact H'].
    rewrite <- Hrun. clear.
    generalize (imap pair c). intros l. revert cpos.
    induction l as [|p l IH]; intros cpos; simpl; [reflexivity|].
    destruct (py_store cpos p.2 (Z.of_nat p.1)); simpl; [apply IH|reflexivity].
Qed.

Lemma rescore_spec (cpos active : list Z) (dirty : list Z) (sc : list F) :
  length cpos = n → Forall slot_ok cpos → length active = n →
  Forall (λ v, in_range vertex_count v = true) dirty →
  length sc = n →
  (∀ v a s, active !! v = Some a → (1 ≤ a)%Z → sc !! v = Some s → live s) →
  ∃ sc', rescore cpos active dirty sc = Some sc' ∧ length sc' = n ∧
    ∀ v a s, active !! v = Some a → (1 ≤ a)%Z → sc' !! v = Some s → live s.
Proof.
  intros Hcp Hslots Hact Hdirty Hsc Hlive. unfold rescore.
  apply (fold_opt_inv
           (λ sc, length sc = n ∧
                  ∀ v a s, active !! v = Some a → (1 ≤ a)%Z →
                           sc !! v = Some s → live s)).
  - split; assumption.
  - intros sc0 v Hv [Hl0 Hlive0]. rewrite Forall_forall in Hdirty.
    specialize (Hdirty v Hv).
    destruct (in_range_position (length cpos) v Hcp Hdirty) as [Hz Hn].
    rewrite !py_index_nat by lia.
    destruct (lookup_lt_is_Some_2 cpos (Z.to_nat v) Hn) as [p Hp].
    destruct (lookup_lt_is_Some_2 active (Z.to_nat v)) as [a Ha]; [lia|].
    rewrite Hp, Ha. cbn. rewrite py_store_nat by lia.
    eexists. split; [reflexivity|]. split; [rewrite length_insert; exact Hl0|].
    intros w a' s Ha' Hpos Hs.
    destruct (decide (Z.to_nat v = w)) as [<-|Hne].
    + rewrite list_lookup_insert_eq in Hs by lia. injection Hs as <-.
      rewrite Ha in Ha'. injection Ha' as <-.
      exists p, a. split; [|split; [exact Hpos|reflexivity]].
      rewrite Forall_forall in Hslots. apply Hslots.
      eapply list_elem_of_lookup_2. exact Hp.
    + rewrite list_lookup_insert_ne in Hs by exact Hne. eauto.
Qed.

Lemma dirty_triangles_spec (em : list bool) (dirty : list Z) :
  length em = T →
  Forall (λ v, in_range vertex_count v = true) dirty →
  ∃ dts, dirty_triangles em dirty = Some dts ∧
    Forall (λ ti, (0 ≤ ti < Z.of_nat T)%Z ∧ em !! Z.to_nat ti = Some false) dts.
Proof.
  intros Hem Hdirty. unfold dirty_triangles.
  apply (fold_opt_inv
           (Forall (λ ti, (0 ≤ ti < Z.of_nat T)%Z
                          ∧ em !! Z.to_nat ti = Some false))).
  - constructor.
  - intros acc v Hv Hacc. rewrite Forall_forall in Hdirty.
    specialize (Hdirty v Hv).
    destruct (vert_tris_of_spec triangles) as [Hlen Hspec].
    fold vert_tris in Hlen, Hspec.
    destruct (in_range_position (length vert_tris) v Hlen Hdirty) as [Hz Hn].
    destruct (Hspec (Z.to_nat v)) as (tl & Htl & _ & Hbound);
      [rewrite <- Hlen; exact Hn|].
    rewrite py_index_nat by lia. rewrite Htl. cbn.
    destruct (fold_opt_inv
                (Forall (λ ti, (0 ≤ ti < Z.of_nat T)%Z
                               ∧ em !! Z.to_nat ti = Some false))
                (λ acc ti, e ← py_index em ti;
                           Some (if e : bool then acc else acc ++ [ti]))
                tl []) as (more & -> & Hmore).
    + constructor.
    + intros acc0 ti Hti Hacc0. rewrite Forall_forall in Hbound.
      specialize (Hbound ti Hti). rewrite py_index_nat by lia.
      destruct (lookup_lt_is_Some_2 em (Z.to_nat ti)) as [e He]; [lia|].
      rewrite He. cbn. eexists. split; [reflexivity|].
      destruct e; [exact Hacc0|].
      apply Forall_app. split; [exact Hacc0|]. constructor; [|constructor].
      split; [lia|exact He].
    + cbn. eexists. split; [reflexivity|]. apply Forall_app. split; assumption.
Qed.

Lemma py_range_elem (m x : Z) :
  x ∈ py_range m → (0 ≤ x < m)%Z.
Proof.
  unfold py_range. intros (i & -> & Hi)%list_elem_of_fmap.
  apply elem_of_seq in Hi. lia.
Qed.

Lemma py_range_lookup (m : Z) (i : nat) :
  (i < Z.to_nat m)%nat → py_range m !! i = Some (Z.of_nat i).
Proof.
  intros Hi. unfold py_range. rewrite list_lookup_fmap.
  rewrite lookup_seq_lt by exact Hi. reflexivity.
Qed.

Lemma py_range_length (m : Z) : length (py_range m) = Z.to_nat m.
Proof. unfold py_range. rewrite length_fmap. apply length_seq. Qed.

Lemma cnt_pos (v : Z) (tri : triangle) :
  v ∈ indices_of tri → (1 ≤ cnt v tri)%nat.
Proof.
  intros Hv. unfold cnt.
  assert (Hin : v ∈ filter (λ x, x = v) (indices_of tri))
    by (apply list_elem_of_filter; split; [reflexivity|exact Hv]).
  destruct (filter (λ x, x = v) (indices_of tri));
    [inversion Hin|simpl; lia].
Qed.

(** A triangle that is not emitted has a score: its corners in range are
    active. *)
Lemma unemitted_triangle_scored (active : list Z) (sc : list F)
    (em : list bool) (k : nat) (tri : triangle) :
  length sc = n →
  (∀ v, (v < n)%nat →
        active !! v = Some (Z.of_nat (occ (Z.of_nat v) em triangles))) →
  (∀ v a s, active !! v = Some a → (1 ≤ a)%Z → sc !! v = Some s → live s) →
  em !! k = Some false → triangles !! k = Some tri →
  ∃ s, triangle_score sc tri = Some s ∧ scored s.
Proof.
  intros Hsc Hact Hlive Hem Htri. apply triangle_score_scored.
  intros v Hv Hr.
  destruct (in_range_position (length sc) v Hsc Hr) as [Hz Hn].
  rewrite py_index_nat by lia.
  destruct (lookup_lt_is_Some_2 sc (Z.to_nat v) Hn) as [s Hs].
  exists s. split; [exact Hs|].
  apply (Hlive (Z.to_nat v) _ s (Hact (Z.to_nat v) ltac:(lia))); [|exact Hs].
  rewrite Z2Nat.id by lia.
  pose proof (occ_ge_cnt v triangles em k tri Hem Htri).
  pose proof (cnt_pos v tri Hv). lia.
Qed.

Lemma retotal_spec (sc : list F) (em : list bool) (dts : list Z)
    (ts : list F) :
  length ts = T →
  (∀ k s, em !! k = Some false → ts !! k = Some s → scored s) →
  (∀ k tri, em !! k = Some false → triangles !! k = Some tri →
            ∃ s, triangle_score sc tri = Some s ∧ scored s) →
  Forall (λ ti, (0 ≤ ti < Z.of_nat T)%Z ∧ em !! Z.to_nat ti = Some false)
         dts →
  ∃ r, retotal sc dts ts = Some r ∧ length r.1 = T ∧
       (-1 ≤ r.2.1 < Z.of_nat T)%Z ∧
       ∀ k s, em !! k = Some false → r.1 !! k = Some s → scored s.
Proof.
  intros Hts Hold Hnew Hdts. unfold retotal.
  destruct (fold_opt_inv
    (λ r : list F * (Z * F),
       length r.1 = T ∧ (-1 ≤ r.2.1 < Z.of_nat T)%Z ∧
       ∀ k s, em !! k = Some false → r.1 !! k = Some s → scored s)
    (λ acc ti,
       tri ← py_index triangles ti;
       s ← triangle_score sc tri;
       ts' ← py_store acc.1 ti s;
       Some (ts', if gt fl s acc.2.2 then (ti, s) else acc.2))
    dts (ts, ((-1)%Z, lit fl (-2)))) as (r & Hrun & Hr).
  - simpl. split_and!; [exact Hts|lia|lia|exact Hold].
  - intros [ts0 best] ti Hti (Hl & Hb & Hok). simpl in Hl, Hb, Hok.
    rewrite Forall_forall in Hdts. destruct (Hdts ti Hti) as [Hrange Hem].
    rewrite py_index_nat by lia.
    destruct (lookup_lt_is_Some_2 triangles (Z.to_nat ti)) as [tri Htri];
      [lia|].
    rewrite Htri. cbn.
    destruct (Hnew _ _ Hem Htri) as (s & -> & Hs). cbn.
    rewrite py_store_nat by lia. cbn.
    eexists. split; [reflexivity|]. cbn. split_and!.
    + rewrite length_insert. exact Hl.
    + destruct (gt fl s best.2); simpl; lia.
    + destruct (gt fl s best.2); simpl; lia.
    + intros k s' Hk Hs'.
      destruct (decide (Z.to_nat ti = k)) as [<-|Hne].
      * rewrite list_lookup_insert_eq in Hs' by lia. injection Hs' as <-.
        exact Hs.
      * rewrite list_lookup_insert_ne in Hs' by exact Hne. eauto.
  - exists r. split; [exact Hrun|exact Hr].
Qed.

Lemma next_best_spec (em : list bool) (ts : list F) (k : nat) :
  length em = T → length ts = T →
  (∀ k s, em !! k = Some false → ts !! k = Some s → scored s) →
  em !! k = Some false →
  ∃ b, next_best em ts = Some b ∧ (0 ≤ b.1 < Z.of_nat T)%Z
       ∧ em !! Z.to_nat b.1 = Some false.
Proof.
  intros Hem Hts Hok Hk. unfold next_best.
  destruct (fold_opt_prefix_inv
    (λ (pre : list Z) (best : Z * F),
       (best.2 = lit fl (-2)
        ∧ ∀ ti, ti ∈ pre → em !! Z.to_nat ti = Some true)
       ∨ ((0 ≤ best.1 < Z.of_nat T)%Z ∧ em !! Z.to_nat best.1 = Some false))
    (scan_step em ts) (py_range tri_count) ((-1)%Z, lit fl (-2)))
    as (b & Hrun & Hb).
  - left. split; [reflexivity|]. intros ti Hti. inversion Hti.
  - intros pre ti best Hbest Hti. apply py_range_elem in Hti.
    unfold tri_count in Hti. unfold scan_step.
    rewrite !py_index_nat by lia.
    destruct (lookup_lt_is_Some_2 em (Z.to_nat ti)) as [e He]; [lia|].
    rewrite He. cbn. destruct e.
    + eexists. split; [reflexivity|].
      destruct Hbest as [[Hs Hpre]|Hfound]; [left|right; exact Hfound].
      split; [exact Hs|]. intros tj [Hj| ->%list_elem_of_singleton]%elem_of_app;
        [auto|exact He].
    + destruct (lookup_lt_is_Some_2 ts (Z.to_nat ti)) as [s Hs]; [lia|].
      rewrite Hs. cbn. eexists. split; [reflexivity|]. right.
      destruct Hbest as [[Hstart _]|Hfound].
      * rewrite Hstart.
        destruct (Hok _ _ He Hs) as (l & Hlen & Hlive & ->).
        rewrite (live_score_above_start l Hlen Hlive). simpl.
        split; [lia|exact He].
      * destruct (gt fl s best.2); simpl; [split; [lia|exact He]|exact Hfound].
  - exists b. split; [exact Hrun|].
    destruct Hb as [[_ Hall]|Hfound]; [|exact Hfound].
    apply lookup_lt_Some in Hk as Hlt.
    specialize (Hall (Z.of_nat k)). rewrite Nat2Z.id in Hall.
    rewrite Hall in Hk; [discriminate|].
    unfold py_range. apply list_elem_of_fmap. exists k. split; [reflexivity|].
    apply elem_of_seq. unfold tri_count. lia.
Qed.

(** The search for a triangle to emit never reaches the [break]: it
    yields the index of a triangle that is not emitted yet. *)
Lemma select_spec (st : LoopState) :
  Inv st → (emitted_count st < tri_count)%Z →
  ∃ b, select st = Some (Some b) ∧ (-1 ≤ b < Z.of_nat T)%Z
       ∧ emitted st !! position_of T b = Some false.
Proof.
  intros HI Hlt. unfold select.
  pose proof (len_emitted st HI) as Hem.
  pose proof (count_ok st HI) as Hcount.
  pose proof (count_true_le (emitted st)) as Hle.
  pose proof (best_bound st HI) as Hbest.
  unfold tri_count in Hlt.
  rewrite py_index_position by lia. rewrite Hem.
  destruct (lookup_lt_is_Some_2 (emitted st) (position_of T (best_tri st)))
    as [e He]; [rewrite Hem; apply position_of_lt; lia|].
  rewrite He. cbn. destruct e.
  - destruct (unemitted_exists (emitted st)) as [k Hk]; [lia|].
    destruct (next_best_spec (emitted st) (tri_scores st) k Hem
                (len_tri_scores st HI) (tri_scores_ok st HI) Hk)
      as (b & -> & Hb & Hfalse).
    cbn. destruct (b.1 <? 0)%Z eqn:Hneg; [lia|].
    exists b.1. split; [reflexivity|]. split; [lia|].
    unfold position_of. destruct (0 <=? b.1)%Z eqn:Hpos; [exact Hfalse|lia].
  - exists (best_tri st). split; [reflexivity|]. split; [exact Hbest|exact He].
Qed.

Lemma set_order_Forall (P : Z → Prop) (l : list Z) :
  Forall P l → Forall P (set_order l).
Proof.
  rewrite !Forall_forall. intros Hl x Hx. apply Hl, set_order_elements, Hx.
Qed.

(** One iteration of the loop body keeps the invariant and emits one more
    triangle. *)
Lemma emit_spec (st : LoopState) (chosen : Z) :
  Inv st → (-1 ≤ chosen < Z.of_nat T)%Z →
  emitted st !! position_of T chosen = Some false →
  ∃ st', emit st chosen = Some st' ∧ Inv st'
         ∧ count_true (emitted st') = S (count_true (emitted st)).
Proof.
  intros HI Hchosen Hfalse. destruct HI. unfold emit.
  set (k := position_of T chosen) in *.
  assert (Hk : (k < T)%nat) by (apply lookup_lt_Some in Hfalse; lia).
  destruct (lookup_lt_is_Some_2 triangles k Hk) as [tri Htri].
  rewrite py_index_position by lia. fold k. rewrite Htri. cbn.
  rewrite py_store_position by lia. rewrite len_emitted0. fold k. cbn.
  set (em := <[k := true]> (emitted st)).
  assert (Hem : length em = T) by (unfold em; rewrite length_insert; auto).
  destruct (release_spec (cache_pos st) (indices_of tri) (active_count st)
              len_active0 len_cpos0) as (active & -> & Hactive & Hrel).
  cbn.
  pose proof (push_front_in_range tri (cache st) cache_in_range0) as Hpush.
  destruct (evict_spec _ _ Hpush len_cpos0 cpos_slots0)
    as (cpos1 & -> & Hlen1 & Hslots1).
  cbn. destruct (trim_spec _ Hpush) as [Htrim Hsize].
  set (c := trim (push_front tri (cache st))) in *.
  destruct (place_spec c cpos1 Htrim Hsize Hlen1 Hslots1)
    as (cpos & -> & Hcpos & Hslots).
  cbn.
  set (dirty := set_order (c ++ filter (λ v, in_range vertex_count v = true)
                                       (indices_of tri))).
  assert (Hdirty : Forall (λ v, in_range vertex_count v = true) dirty).
  { apply set_order_Forall, Forall_app. split; [exact Htrim|].
    apply Forall_forall. intros v [Hv _]%list_elem_of_filter. exact Hv. }
  assert (Hactive_ok : ∀ v, (v < n)%nat →
            active !! v = Some (Z.of_nat (occ (Z.of_nat v) em triangles))).
  { intros v Hv. rewrite (Hrel v _ Hv (active_ok0 v Hv)). f_equal.
    rewrite (occ_emit (Z.of_nat v) triangles (emitted st) k tri Hfalse Htri).
    fold em. unfold cnt. lia. }
  destruct (rescore_spec cpos active dirty (scores st) Hcpos Hslots Hactive
              Hdirty len_scores0) as (sc & -> & Hsc & Hlive).
  { intros v a s Ha Hpos Hs.
    destruct (decide (v < n)%nat) as [Hv|Hv];
      [|apply lookup_lt_Some in Ha; lia].
    rewrite (Hrel v _ Hv (active_ok0 v Hv)) in Ha. injection Ha as <-.
    apply (scores_ok0 v _ s (active_ok0 v Hv)); [lia|exact Hs]. }
  cbn.
  destruct (dirty_triangles_spec em dirty Hem Hdirty) as (dts & -> & Hdts).
  cbn.
  destruct (retotal_spec sc em (set_order dts) (tri_scores st)
              len_tri_scores0) as (r & -> & Hr1 & Hr2 & Hr3).
  { intros j s Hj. apply tri_scores_ok0.
    exact (emit_still_unemitted (emitted st) k j Hj). }
  { intros j t Hj Ht.
    exact (unemitted_triangle_scored active sc em j t Hsc Hactive_ok Hlive
             Hj Ht). }
  { apply set_order_Forall. exact Hdts. }
  cbn. eexists. split; [reflexivity|]. split.
  - constructor; cbn; try assumption.
    + rewrite count_ok0. unfold em. rewrite (count_emit _ _ Hfalse). lia.
    + unfold em. rewrite (taken_emit triangles _ _ _ Hfalse Htri).
      rewrite <- result_ok0. symmetry. apply Permutation_cons_append.
  - cbn. apply count_emit. exact Hfalse.
Qed.

Lemma foldl_pick {A} (Q : A → Prop) (better : A → A → bool) (l : list A) :
  ∀ init, Q init → Forall Q l →
          Q (foldl (λ best p, if better p best then p else best) init l).
Proof.
  induction l as [|x l IH]; intros init Hinit Hl; simpl; [exact Hinit|].
  inversion Hl; subst. apply IH; [|assumption].
  destruct (better x init); assumption.
Qed.

Lemma first_max_bound (ts : list F) :
  (0 < length ts)%nat →
  ∃ b, first_max ts = Some b ∧ (0 ≤ b < Z.of_nat (length ts))%Z.
Proof.
  destruct ts as [|s0 rest]; simpl; [lia|]. intros _.
  eexists. split; [reflexivity|].
  apply (foldl_pick (λ p : Z * F, (0 ≤ p.1 < Z.of_nat (S (length rest)))%Z)
                    (λ p best, gt fl p.2 best.2)).
  - simpl. lia.
  - apply Forall_forall. intros p Hp.
    apply list_elem_of_lookup in Hp as [i Hi].
    rewrite list_lookup_imap in Hi.
    destruct (rest !! i) as [s|] eqn:Hs; [|discriminate].
    injection Hi as <-. apply lookup_lt_Some in Hs. simpl. lia.
Qed.

Lemma occ_none (v : Z) (ts : list triangle) :
  taken (replicate (length ts) false) ts = []
  ∧ count_true (replicate (length ts) false) = 0%nat.
Proof. induction ts as [|t ts [IH1 IH2]]; simpl; auto. Qed.

(** The set-up before the loop succeeds and establishes the invariant. *)
Lemma initial_spec :
  (0 < T)%nat →
  ∃ st, initial_state = Some st ∧ Inv st ∧ count_true (emitted st) = 0%nat.
Proof.
  intros Hpos. unfold initial_state.
  destruct (vert_tris_of_spec triangles) as [Hlen Hspec].
  fold vert_tris in Hlen, Hspec.
  set (active := (λ tl : list Z, Z.of_nat (length tl)) <$> vert_tris).
  set (em := replicate T false).
  assert (Hactive : length active = n)
    by (unfold active; rewrite length_fmap; exact Hlen).
  assert (Hactive_ok : ∀ v, (v < n)%nat →
            active !! v = Some (Z.of_nat (occ (Z.of_nat v) em triangles))).
  { intros v Hv. destruct (Hspec v Hv) as (l & Hl & Hocc & _).
    unfold active. rewrite list_lookup_fmap, Hl. simpl. rewrite Hocc.
    reflexivity. }
  destruct (mapM_total (λ v, _vertex_score (-1) <$> py_index active v)
              (py_range vertex_count)) as (sc & -> & Hsc & Hsc_at).
  { intros v Hv%py_range_elem. rewrite py_index_nat by lia.
    rewrite (Hactive_ok (Z.to_nat v)) by lia. simpl. eauto. }
  rewrite py_range_length in Hsc. cbn.
  assert (Hlive : ∀ v a s, active !! v = Some a → (1 ≤ a)%Z →
                           sc !! v = Some s → live s).
  { intros v a s Ha Ha1 Hs. apply lookup_lt_Some in Ha as Hv.
    rewrite Hactive in Hv.
    rewrite <- (Hsc_at v (Z.of_nat v) (py_range_lookup _ _ Hv)) in Hs.
    rewrite py_index_nat, Nat2Z.id, Ha in Hs by lia. injection Hs as <-.
    exists (-1)%Z, a. unfold CACHE_SIZE. split; [lia|]. split; [exact Ha1|].
    reflexivity. }
  assert (Hem_at : ∀ k, (k < T)%nat → em !! k = Some false)
    by (intros k Hk; apply lookup_replicate_2; exact Hk).
  destruct (mapM_total (triangle_score sc) triangles)
    as (ts & -> & Hts & Hts_at).
  { intros tri [k Hk]%list_elem_of_lookup.
    destruct (unemitted_triangle_scored active sc em k tri Hsc Hactive_ok
                Hlive (Hem_at k (lookup_lt_Some _ _ _ Hk)) Hk)
      as (s & -> & _). eauto. }
  cbn. destruct (first_max_bound ts) as (best & -> & Hbest); [lia|].
  cbn. eexists. split; [reflexivity|].
  destruct (occ_none 0%Z triangles) as [Htaken Hcount].
  split; [|exact Hcount].
  constructor; cbn; try assumption.
  - apply length_replicate.
  - apply length_replicate.
  - constructor.
  - apply Forall_replicate. unfold slot_ok, CACHE_SIZE. lia.
  - lia.
  - unfold em. rewrite Hcount. reflexivity.
  - unfold em. rewrite Htaken. reflexivity.
  - intros k s Hk Hs. apply lookup_lt_Some in Hs as Hlt. rewrite Hts in Hlt.
    destruct (lookup_lt_is_Some_2 triangles k Hlt) as [tri Htri].
    rewrite <- (Hts_at k tri Htri) in Hs.
    destruct (unemitted_triangle_scored active sc em k tri Hsc Hactive_ok
                Hlive (Hem_at k Hlt) Htri) as (s' & Hs' & Hscored).
    rewrite Hs' in Hs. injection Hs as <-. exact Hscored.
Qed.

(** The loop emits every triangle within [fuel] iterations. *)
Lemma loop_spec : ∀ (fuel : nat) (st : LoopState),
  Inv st → (T - count_true (emitted st) ≤ fuel)%nat →
  ∃ st', loop fuel st = Some st' ∧ Inv st' ∧ count_true (emitted st') = T.
Proof.
  induction fuel as [|fuel IH]; intros st HI Hfuel.
  - pose proof (count_true_le (emitted st)) as Hle.
    rewrite (len_emitted st HI) in Hle.
    exists st. split; [|split; [exact HI|lia]].
    simpl. rewrite (count_ok st HI). unfold tri_count.
    destruct (_ <? _)%Z eqn:Hlt; [lia|reflexivity].
  - pose proof (count_true_le (emitted st)) as Hle.
    rewrite (len_emitted st HI) in Hle.
    cbn [loop]. destruct (emitted_count st <? tri_count)%Z eqn:Hlt.
    + apply Z.ltb_lt in Hlt.
      destruct (select_spec st HI Hlt) as (b & -> & Hb & Hfalse). cbn.
      destruct (emit_spec st b HI Hb Hfalse) as (st' & -> & HI' & Hcount).
      cbn. apply IH; [exact HI'|lia].
    + exists st. split; [reflexivity|]. split; [exact HI|].
      rewrite (count_ok st HI) in Hlt. unfold tri_count in Hlt. lia.
Qed.

(** C1. [optimize_triangles] returns, for every list of triangles and
    every vertex count, a list with the same triangles as its input (a
    permutation: equal multisets), and the input list itself when
    [vertex_count <= 32] or there is at most one triangle.  The float
    operations and the iteration order of sets are parameters; of the
    floats only the fact is used that a sum of at most three scores of
    vertices with an active triangle is above [-2.0]. *)
Theorem optimize_triangles_is_permutation :
  ∃ out, optimize_triangles = Some out ∧ out ≡ₚ triangles ∧
         ((vertex_count ≤ CACHE_SIZE)%Z ∨ (tri_count ≤ 1)%Z →
          out = triangles).
Proof.
  unfold optimize_triangles.
  destruct ((tri_count <=? 1)%Z || (vertex_count <=? CACHE_SIZE)%Z) eqn:Hsmall.
  - exists triangles. split_and!; reflexivity || auto.
  - apply orb_false_iff in Hsmall as [Hcount Hverts].
    unfold tri_count in *.
    destruct initial_spec as (st & -> & HI & Hnone); [lia|]. cbn.
    destruct (loop_spec T st HI) as (st' & -> & HI' & Hall); [lia|]. cbn.
    exists (result st'). split; [reflexivity|]. split; [|lia].
    rewrite (result_ok st' HI').
    rewrite (taken_all triangles (emitted st') (len_emitted st' HI') Hall).
    reflexivity.
Qed.

End Forsyth.

(** *** A rational stand-in for the float operations *)

(** [x ** e] replaced by [x * x] for a positive exponent and by [1 / x]
    for a negative one: enough to run the optimizer on examples. *)
Definition q_pow (x e : Q) : Q := if Qle_bool 0 e then (x * x)%Q else (/ x)%Q.

Definition q_gt (a b : Q) : bool := negb (Qle_bool a b).

Definition q_ops : float_ops :=
  {| float := Q; lit := λ q, q; add := Qplus; sub := Qminus; mul := Qmult;
     div := Qdiv; pow := q_pow; gt := q_gt |}.

(** Two strips of triangles over 40 vertices and a degenerate triangle. *)
Definition strip : list triangle :=
  [(0, 1, 2); (33, 34, 35); (2, 1, 3); (35, 34, 36); (2, 3, 4); (7, 7, 7)]%Z.

Lemma remove_dups_elements (l : list Z) (x : Z) : x ∈ remove_dups l ↔ x ∈ l.
Proof. apply elem_of_remove_dups. Qed.

Lemma q_add_nonneg (a b : Q) : (0 <= a)%Q → (0 <= b)%Q → (0 <= a + b)%Q.
Proof. intros Ha Hb. exact (Qplus_le_compat 0 a 0 b Ha Hb). Qed.

Lemma q_live_nonneg (s : Q) : live q_ops s → (0 <= s)%Q.
Proof.
  intros (p & a & _ & Ha & ->). unfold _vertex_score.
  destruct (a =? 0)%Z eqn:Hzero; [lia|].
  assert (Hboost : (0 <= mul q_ops (_VALENCE_BOOST_SCALE q_ops)
                          (pow q_ops (lit q_ops (inject_Z a))
                               (_VALENCE_BOOST_POWER q_ops)))%Q).
  { cbn. apply Qmult_le_0_compat; [discriminate|].
    change (q_pow (inject_Z a) (_VALENCE_BOOST_POWER q_ops))
      with (/ inject_Z a)%Q.
    apply Qinv_le_0_compat. unfold Qle. simpl. lia. }
  assert (Hsquare : ∀ x : Q, (0 <= x * x)%Q).
  { intros [xn xd]. unfold Qle. simpl. nia. }
  change (add q_ops) with Qplus. apply q_add_nonneg; [|exact Hboost].
  destruct (0 <=? p)%Z; [|apply Qle_refl].
  destruct (p <? 3)%Z; [discriminate|]. apply Hsquare.
Qed.

Lemma q_fsum_nonneg (l : list Q) :
  Forall (live q_ops) l → (0 <= fsum q_ops l)%Q.
Proof.
  intros Hl. unfold fsum. cbn [add lit q_ops].
  enough (Hany : ∀ acc : Q, (0 <= acc)%Q → (0 <= foldl Qplus acc l)%Q)
    by (apply Hany, Qle_refl).
  induction Hl as [|s l Hs Hl IH]; intros acc Hacc; simpl; [exact Hacc|].
  apply IH. apply q_add_nonneg; [exact Hacc|apply q_live_nonneg; exact Hs].
Qed.

Lemma q_live_score_above_start (l : list Q) :
  (length l ≤ 3)%nat → Forall (live q_ops) l →
  gt q_ops (fsum q_ops l) (lit q_ops (-2)) = true.
Proof.
  intros _ Hl. cbn [gt lit q_ops]. unfold q_gt.
  destruct (Qle_bool (fsum q_ops l) (-2)) eqn:Hle; [|reflexivity].
  apply Qle_bool_iff in Hle. pose proof (q_fsum_nonneg l Hl) as Hpos.
  pose proof (Qle_trans _ _ _ Hpos Hle) as Habs.
  unfold Qle in Habs. simpl in Habs. lia.
Qed.

(** The optimizer run on [strip].  After the second triangle no triangle
    that is left touches the cache, [best_tri] is [-1], and the loop goes
    on with [triangles[-1]]. *)
Example optimize_strip :
  optimize_triangles q_ops remove_dups strip 40
  = Some [(33, 34, 35); (35, 34, 36); (7, 7, 7);
          (0, 1, 2); (2, 1, 3); (2, 3, 4)]%Z.
Proof. vm_compute. reflexivity. Qed.

Lemma optimize_triangles_is_permutation_witness :
  ∃ out, optimize_triangles q_ops remove_dups strip 40 = Some out
         ∧ out ≡ₚ strip
         ∧ ((40 ≤ CACHE_SIZE)%Z ∨ (tri_count strip ≤ 1)%Z → out = strip).
Proof.
  exact (optimize_triangles_is_permutation q_ops remove_dups strip 40
           remove_dups_elements q_live_score_above_start).
Defined.

End Optimize.

From Stdlib Require Qround Lqa.

(** ** core/name_parser.py: flags, [has_any_suffix] and re-parsing *)

Module NameParserFacts.
Import NameParser.

(** The loop of [parse_object_name] on [parts], for any index list: it
    consumes a prefix of the indices, adds the lower-cased segments at
    these indices to [found], and stops at the end of the list or at the
    first segment that is not a known suffix. *)
Lemma scan_consumed (parts : list string) (idx : list nat) :
  ∀ (found : gset string) (c : nat),
  ∃ m : nat,
    scan parts idx found c
    = (found ∪ list_to_set ((λ i, lower (nth i parts "")) <$> take m idx),
       (c + m)%nat) ∧
    (m ≤ length idx)%nat ∧
    (∀ j i, (j < m)%nat → idx !! j = Some i →
            recognized (nth i parts "")) ∧
    (m = length idx ∨
     ∃ i, idx !! m = Some i ∧ ¬ recognized (nth i parts "")).
Proof.
  induction idx as [|i rest IH]; intros found c.
  - exists 0%nat. simpl. split_and!; [|lia| |left; reflexivity].
    + f_equal; [set_solver|lia].
    + intros j i Hj. lia.
  - simpl. case_bool_decide as Hk.
    + destruct (IH ({[lower (nth i parts "")]} ∪ found) (S c))
        as (m & Hm & Hle & Hall & Hstop).
      exists (S m). split_and!.
      * rewrite Hm. simpl. f_equal; [set_solver|lia].
      * lia.
      * intros [|j] i' Hj Hi'; simpl in Hi'.
        -- injection Hi' as <-. exact Hk.
        -- apply (Hall j); [lia|exact Hi'].
      * destruct Hstop as [->|Hstop]; [left; reflexivity|right; exact Hstop].
    + exists 0%nat. simpl. split_and!; [|lia| |].
      * f_equal; [set_solver|lia].
      * intros j i' Hj. lia.
      * right. exists i. split; [reflexivity|exact Hk].
Qed.

(** The segments at the first [m] scanned indices are the last [m]
    segments. *)
Lemma scanned_segments (parts : list string) (m : nat) (x : string) :
  (m ≤ length parts - 1)%nat →
  x ∈ (λ i, lower (nth i parts "")) <$> take m (scan_indices (length parts))
  ↔ x ∈ lower <$> drop (length parts - m) parts.
Proof.
  intros Hm. rewrite !list_elem_of_fmap. split.
  - intros (i & -> & Hi). apply list_elem_of_lookup in Hi as [j Hj].
    apply lookup_take_Some in Hj as [Hj Hlt].
    rewrite scan_indices_lookup in Hj by lia. injection Hj as <-.
    destruct (lookup_lt_is_Some_2 parts (length parts - 1 - j)) as [p Hp];
      [lia|].
    exists p. split; [rewrite (nth_lookup_Some _ _ _ _ Hp); reflexivity|].
    apply list_elem_of_lookup. exists (m - 1 - j)%nat.
    rewrite lookup_drop. rewrite <- Hp. f_equal. lia.
  - intros (p & -> & Hp). apply list_elem_of_lookup in Hp as [j Hj].
    rewrite lookup_drop in Hj. apply lookup_lt_Some in Hj as Hlt.
    exists (length parts - m + j)%nat.
    split; [rewrite (nth_lookup_Some _ _ _ _ Hj); reflexivity|].
    apply list_elem_of_lookup. exists (m - 1 - j)%nat.
    rewrite lookup_take_lt by lia.
    rewrite scan_indices_lookup by lia. f_equal. lia.
Qed.

(** What [parse_object_name] computes before it builds the record. *)
Lemma scan_of_name (name : string) :
  let parts := split name in
  ∃ (found : gset string) (m : nat),
    scan parts (scan_indices (length parts)) ∅ 0 = (found, m) ∧
    (m ≤ length parts - 1)%nat ∧ (1 ≤ length parts)%nat ∧
    (∀ x, x ∈ found ↔ x ∈ lower <$> drop (length parts - m) parts) ∧
    Forall recognized (drop (length parts - m) parts) ∧
    (m = (length parts - 1)%nat ∨
     ∃ p, parts !! (length parts - 1 - m)%nat = Some p ∧ ¬ recognized p).
Proof.
  intros parts.
  assert (Hlen : (1 ≤ length parts)%nat).
  { pose proof (split_nonempty name). subst parts.
    destruct (split name); [contradiction|simpl; lia]. }
  destruct (scan_consumed parts (scan_indices (length parts)) ∅ 0)
    as (m & Hm & Hle & Hall & Hstop).
  rewrite scan_indices_length in Hle, Hstop.
  eexists _, m. split; [exact Hm|]. split_and!; [exact Hle|exact Hlen| | |].
  - intros x. rewrite elem_of_union, elem_of_list_to_set.
    rewrite (scanned_segments parts m x Hle).
    split; [intros [Hx|Hx]; [inversion Hx|exact Hx]|auto].
  - apply Forall_lookup_2. intros j p Hp. rewrite lookup_drop in Hp.
    apply lookup_lt_Some in Hp as Hlt.
    specialize (Hall (m - 1 - j)%nat (length parts - m + j)%nat).
    rewrite (nth_lookup_Some _ _ _ _ Hp) in Hall. apply Hall; [lia|].
    rewrite scan_indices_lookup by lia. f_equal. lia.
  - destruct Hstop as [->|(i & Hi & Hnot)]; [left; reflexivity|right].
    apply lookup_lt_Some in Hi as Hlt. rewrite scan_indices_length in Hlt.
    rewrite scan_indices_lookup in Hi by lia. injection Hi as <-.
    destruct (lookup_lt_is_Some_2 parts (length parts - 1 - m)) as [p Hp];
      [lia|].
    exists p. split; [exact Hp|].
    rewrite (nth_lookup_Some _ _ _ _ Hp) in Hnot. exact Hnot.
Qed.

(** The record that [parse_object_name] builds from the result of the
    scan. *)
Lemma parse_of_scan (name : string) (found : gset string) (m : nat) :
  scan (split name) (scan_indices (length (split name))) ∅ 0 = (found, m) →
  parse_object_name name =
  {| clean_name := match m with
                   | O => name
                   | _ => join (take (length (split name) - m) (split name))
                   end;
     original_name := name;
     nocol := bool_decide ("nocol" ∈ found);
     two_side := bool_decide ("2side" ∈ found);
     noshadow := bool_decide ("noshadow" ∈ found);
     alpha := bool_decide ("alpha" ∈ found);
     occluder := bool_decide ("occluder" ∈ found);
     lod_level := if bool_decide ("lod1" ∈ found) then 1%Z
                  else if bool_decide ("lod2" ∈ found) then 2%Z else 0%Z;
     navmesh := bool_decide ("navmesh" ∈ found);
     trigger := bool_decide ("trigger" ∈ found);
     billboard := bool_decide ("billboard" ∈ found) |}.
Proof. intros Hscan. unfold parse_object_name. rewrite Hscan. reflexivity. Qed.

(** X1. Every flag of the parsed name is set exactly when one of the
    segments that were cut off the name is, in lower case, the suffix of
    that flag; [lod_level] is 1 when [lod1] was cut off, whatever else
    was, 2 when [lod2] was and [lod1] was not, and 0 otherwise. *)
Theorem flags_are_the_dropped_suffixes (name : string) :
  let p := parse_object_name name in
  ∃ k : nat,
    (1 ≤ k ≤ length (split name))%nat ∧
    clean_name p = join (take k (split name)) ∧
    let dropped := lower <$> drop k (split name) in
    nocol p = bool_decide ("nocol" ∈ dropped) ∧
    two_side p = bool_decide ("2side" ∈ dropped) ∧
    noshadow p = bool_decide ("noshadow" ∈ dropped) ∧
    alpha p = bool_decide ("alpha" ∈ dropped) ∧
    occluder p = bool_decide ("occluder" ∈ dropped) ∧
    navmesh p = bool_decide ("navmesh" ∈ dropped) ∧
    trigger p = bool_decide ("trigger" ∈ dropped) ∧
    billboard p = bool_decide ("billboard" ∈ dropped) ∧
    lod_level p = (if bool_decide ("lod1" ∈ dropped) then 1
                   else if bool_decide ("lod2" ∈ dropped) then 2 else 0)%Z.
Proof.
  intros p. subst p.
  destruct (scan_of_name name)
    as (found & m & Hscan & Hm & Hlen & Hfound & _ & _).
  rewrite (parse_of_scan name found m Hscan). cbn.
  exists (length (split name) - m)%nat.
  split; [lia|]. split.
  - destruct m as [|m']; [|reflexivity].
    rewrite Nat.sub_0_r, firstn_all. symmetry. apply join_split.
  - assert (Hflag : ∀ s : string,
      bool_decide (s ∈ found)
      = bool_decide (s ∈ lower <$> drop (length (split name) - m) (split name)))
      by (intros s; apply bool_decide_ext, Hfound).
    rewrite !Hflag. split_and!; reflexivity.
Qed.

(** *** [has_any_suffix] *)

Lemma append_cons (c : ascii) (s1 s2 : string) :
  String c s1 +:+ s2 = String c (s1 +:+ s2).
Proof. reflexivity. Qed.

Lemma append_assoc (s1 s2 s3 : string) :
  (s1 +:+ s2) +:+ s3 = s1 +:+ (s2 +:+ s3).
Proof.
  induction s1 as [|c s1 IH]; [reflexivity|].
  rewrite !append_cons, IH. reflexivity.
Qed.

Lemma join_app (l1 l2 : list string) :
  l1 ≠ [] → l2 ≠ [] →
  join (l1 ++ l2) = join l1 +:+ "_" +:+ join l2.
Proof.
  intros H1 H2. induction l1 as [|x l1 IH]; [contradiction|].
  destruct l1 as [|y l1].
  - destruct l2 as [|z l2]; [contradiction|]. reflexivity.
  - specialize (IH ltac:(discriminate)).
    change (join ((x :: y :: l1) ++ l2))
      with (x +:+ "_" +:+ join ((y :: l1) ++ l2)).
    rewrite IH.
    change (join (x :: y :: l1)) with (x +:+ "_" +:+ join (y :: l1)).
    rewrite !append_assoc. reflexivity.
Qed.

Lemma length_append (s1 s2 : string) :
  String.length (s1 +:+ s2) = (String.length s1 + String.length s2)%nat.
Proof.
  induction s1 as [|c s1 IH]; [reflexivity|].
  rewrite append_cons. simpl. rewrite IH. reflexivity.
Qed.

(** Fewer segments join to a shorter string. *)
Lemma join_take_shorter (parts : list string) (k : nat) :
  (1 ≤ k < length parts)%nat →
  (String.length (join (take k parts)) < String.length (join parts))%nat.
Proof.
  intros Hk. rewrite <- (take_drop k parts) at 2.
  rewrite join_app.
  - rewrite !length_append. simpl. lia.
  - intros Hnil. apply (f_equal length) in Hnil.
    rewrite length_take in Hnil. simpl in Hnil. lia.
  - intros Hnil. apply (f_equal length) in Hnil.
    rewrite length_drop in Hnil. simpl in Hnil. lia.
Qed.

(** X2. [has_any_suffix] holds of a parsed name exactly when the name has
    at least two segments and its last segment is a known suffix (in any
    letter case); the clean name is then strictly shorter than the
    name. *)
Theorem has_any_suffix_iff_last_segment_known (name : string) :
  let p := parse_object_name name in
  (has_any_suffix p = true ↔
   (2 ≤ length (split name))%nat ∧
   ∃ s, last (split name) = Some s ∧ recognized s) ∧
  (has_any_suffix p = true →
   (String.length (clean_name p) < String.length name)%nat).
Proof.
  intros p. subst p.
  destruct (scan_of_name name)
    as (found & m & Hscan & Hm & Hlen & _ & Hrec & Hstop).
  rewrite (parse_of_scan name found m Hscan).
  unfold has_any_suffix. cbn.
  destruct m as [|m'].
  - rewrite String.eqb_refl. simpl. split; [|discriminate].
    split; [discriminate|]. intros (Hn & s & Hs & Hknown).
    destruct Hstop as [Hz|(q & Hq & Hnot)]; [lia|].
    rewrite Nat.sub_0_r in Hq. rewrite last_lookup in Hs.
    replace (Init.Nat.pred (length (split name)))
      with (length (split name) - 1)%nat in Hs by lia.
    rewrite Hq in Hs. injection Hs as <-. contradiction.
  - assert (Hshort : (String.length
                        (join (take (length (split name) - S m') (split name)))
                      < String.length name)%nat).
    { rewrite <- (join_split name) at 3. apply join_take_shorter. lia. }
    split; [|intros _; exact Hshort].
    split.
    + intros _. split; [lia|].
      destruct (lookup_lt_is_Some_2 (split name) (length (split name) - 1))
        as [s Hs]; [lia|].
      exists s. split.
      * rewrite last_lookup. rewrite <- Hs. f_equal. lia.
      * rewrite Forall_forall in Hrec. apply Hrec.
        apply list_elem_of_lookup. exists m'. rewrite lookup_drop.
        rewrite <- Hs. f_equal. lia.
    + intros _. apply negb_true_iff, String.eqb_neq. intros Heq.
      rewrite Heq in Hshort. lia.
Qed.

(** *** Parsing a clean name again *)

Fixpoint no_underscore (s : string) : bool :=
  match s with
  | EmptyString => true
  | String c s' => negb (Ascii.eqb c "_") && no_underscore s'
  end.

Lemma split_plain (s : string) : no_underscore s = true → split s = [s].
Proof.
  induction s as [|c s IH]; simpl; [reflexivity|].
  intros [Hc Hs]%andb_true_iff. apply negb_true_iff in Hc. rewrite Hc.
  rewrite (IH Hs). reflexivity.
Qed.

Lemma split_segments_plain (s : string) :
  Forall (λ p, no_underscore p = true) (split s).
Proof.
  induction s as [|c s IH]; simpl; [repeat constructor|].
  destruct (Ascii.eqb c "_") eqn:Hc.
  - constructor; [reflexivity|exact IH].
  - destruct (split s) as [|p ps]; [repeat constructor; simpl; rewrite Hc; reflexivity|].
    inversion IH; subst. constructor; [|assumption].
    simpl. rewrite Hc. simpl. assumption.
Qed.

Lemma split_append_plain (p rest : string) :
  no_underscore p = true →
  split (p +:+ "_" +:+ rest) = p :: split rest.
Proof.
  induction p as [|c p IH]; [reflexivity|].
  intros [Hc Hp]%andb_true_iff. apply negb_true_iff in Hc.
  rewrite append_cons. simpl. rewrite Hc, (IH Hp). reflexivity.
Qed.

(** Joining segments without underscores and splitting again gives the
    segments back. *)
Lemma split_join (ps : list string) :
  ps ≠ [] → Forall (λ p, no_underscore p = true) ps → split (join ps) = ps.
Proof.
  induction ps as [|p ps IH]; [contradiction|]. intros _ Hall.
  inversion Hall as [|? ? Hp Hps]; subst.
  destruct ps as [|q ps].
  - apply split_plain. exact Hp.
  - change (join (p :: q :: ps)) with (p +:+ "_" +:+ join (q :: ps)).
    rewrite split_append_plain by exact Hp.
    rewrite IH by (discriminate || exact Hps). reflexivity.
Qed.

(** X3. Parsing is idempotent on the clean name: the clean name of a
    parsed name parses to itself, with no flag set and LOD level 0; no
    further suffix is ever hidden behind the first segment that stopped
    the scan. *)
Theorem clean_name_parses_to_itself (name : string) :
  let c := clean_name (parse_object_name name) in
  parse_object_name c =
  {| clean_name := c; original_name := c;
     nocol := false; two_side := false; noshadow := false; alpha := false;
     occluder := false; lod_level := 0; navmesh := false; trigger := false;
     billboard := false |}.
Proof.
  intros c. subst c.
  destruct (scan_of_name name)
    as (found & m & Hscan & Hm & Hlen & _ & _ & Hstop).
  rewrite (parse_of_scan name found m Hscan). cbn [clean_name].
  set (k := (length (split name) - m)%nat).
  assert (Hclean : match m with
                   | O => name
                   | _ => join (take k (split name))
                   end = join (take k (split name))).
  { destruct m; [|reflexivity]. subst k.
    rewrite Nat.sub_0_r, firstn_all. symmetry. apply join_split. }
  fold k. rewrite Hclean. clear Hclean.
  set (kept := take k (split name)).
  assert (Hkept : length kept = k)
    by (subst kept; rewrite length_take; lia).
  assert (Hparts : split (join kept) = kept).
  { apply split_join.
    - intros Hnil. rewrite Hnil in Hkept. simpl in Hkept. lia.
    - apply Forall_take, split_segments_plain. }
  destruct (scan_of_name (join kept))
    as (found' & m' & Hscan' & Hm' & _ & Hfound' & Hrec' & _).
  rewrite Hparts in *. rewrite Hkept in *.
  assert (Hzero : m' = 0%nat).
  { destruct m' as [|m'']; [reflexivity|exfalso].
    destruct Hstop as [->|(q & Hq & Hnot)]; [lia|].
    apply Hnot. rewrite Forall_forall in Hrec'. apply Hrec'.
    apply list_elem_of_lookup. exists m''. rewrite lookup_drop.
    subst kept. rewrite lookup_take_lt by lia. rewrite <- Hq.
    f_equal. lia. }
  subst m'.
  assert (Hempty : ∀ x, x ∉ found').
  { intros x Hx%Hfound'. rewrite drop_ge in Hx by lia. inversion Hx. }
  rewrite (parse_of_scan (join kept) found' 0).
  - rewrite !bool_decide_eq_false_2 by apply Hempty. reflexivity.
  - rewrite Hparts, Hkept. exact Hscan'.
Qed.

End NameParserFacts.
(** ** core/logging.py: the capped message list and its counters *)

Module LoggerFacts.
Import Logging.

Definition is_warning (l : level) : bool :=
  match l with WARNING => true | _ => false end.

(** [sum(1 for lvl, _ in self._messages if lvl in ("ERROR", "CRITICAL"))]. *)
Definition error_count (self : ExportLogger) : nat :=
  sum_list ((λ _, 1%nat)
            <$> filter (λ m, is_error m.1 = true) (_messages self)).

(** [sum(1 for lvl, _ in self._messages if lvl == "WARNING")]. *)
Definition warning_count (self : ExportLogger) : nat :=
  sum_list ((λ _, 1%nat)
            <$> filter (λ m, is_warning m.1 = true) (_messages self)).

(** [self._messages.clear()]. *)
Definition clear (self : ExportLogger) : ExportLogger :=
  {| max_messages := max_messages self; _messages := [];
     _logger := _logger self |}.

(** A run of logging calls, each [(level, message)]. *)
Definition log_all (calls : list (level * string)) (lg : ExportLogger)
    : ExportLogger :=
  foldl (λ lg c, _log c.1 c.2 lg) lg calls.

Lemma sum_ones {A} (l : list A) : sum_list ((λ _, 1%nat) <$> l) = length l.
Proof.
  induction l as [|x l IH]; [reflexivity|].
  rewrite fmap_cons. cbn [sum_list sum_list_with length]. f_equal. exact IH.
Qed.

Lemma log_room (lvl : level) (msg : string) (lg : ExportLogger) :
  _messages (_log lvl msg lg)
  = _messages lg
    ++ take (max_messages lg - length (_messages lg)) [(lvl, msg)].
Proof.
  unfold _log. simpl. destruct (_ <? _)%nat eqn:Hroom.
  - apply Nat.ltb_lt in Hroom.
    destruct (max_messages lg - length (_messages lg))%nat eqn:Hd; [lia|].
    cbn [take]. rewrite take_nil. reflexivity.
  - apply Nat.ltb_ge in Hroom.
    replace (max_messages lg - length (_messages lg))%nat with 0%nat by lia.
    simpl. rewrite app_nil_r. reflexivity.
Qed.

(** X4. The message list shown in the UI keeps the messages logged while
    it has fewer than [max_messages] entries and silently drops every
    later one, while the stream handed to Python's [logging] receives
    every message; so a full list never changes again. *)
Theorem message_list_keeps_first_messages
    (calls : list (level * string)) (lg : ExportLogger) :
  let lg' := log_all calls lg in
  max_messages lg' = max_messages lg ∧
  _logger lg' = _logger lg ++ calls ∧
  _messages lg'
  = _messages lg ++ take (max_messages lg - length (_messages lg)) calls ∧
  ((max_messages lg ≤ length (_messages lg))%nat →
   _messages lg' = _messages lg ∧ has_errors lg' = has_errors lg).
Proof.
  simpl. revert lg. induction calls as [|[lvl msg] calls IH]; intros lg.
  - simpl. rewrite take_nil, !app_nil_r. auto.
  - unfold log_all in *. cbn [foldl fst snd].
    destruct (IH (_log lvl msg lg)) as (Hmax & Hstream & Hkept & _).
    assert (Hall : _messages (foldl (λ lg c, _log c.1 c.2 lg)
                                    (_log lvl msg lg) calls)
                   = _messages lg
                     ++ take (max_messages lg - length (_messages lg))
                             ((lvl, msg) :: calls)).
    { rewrite Hkept, log_room. cbn [max_messages _log].
      rewrite length_app.
      destruct (max_messages lg - length (_messages lg))%nat as [|d] eqn:Hd.
      - simpl. rewrite app_nil_r.
        replace (max_messages lg - (length (_messages lg) + 0))%nat
          with 0%nat by lia.
        rewrite take_0, app_nil_r. reflexivity.
      - cbn [take length]. rewrite take_nil. cbn [length].
        replace (max_messages lg - (length (_messages lg) + 1))%nat
          with d by lia.
        rewrite <- app_assoc. reflexivity. }
    split_and!.
    + rewrite Hmax. reflexivity.
    + rewrite Hstream. cbn [_logger _log]. rewrite <- app_assoc. reflexivity.
    + exact Hall.
    + intros Hfull. rewrite Hall.
      replace (max_messages lg - length (_messages lg))%nat with 0%nat by lia.
      rewrite take_0, app_nil_r. split; [reflexivity|].
      unfold has_errors. rewrite Hall.
      replace (max_messages lg - length (_messages lg))%nat with 0%nat by lia.
      rewrite take_0, app_nil_r. reflexivity.
Qed.

(** X5. [has_errors] holds exactly when [error_count] is positive; the
    two counters together never exceed the number of kept messages; an
    error is counted when it is logged while the list has room and is
    not counted when the list is full; [clear] resets both counters. *)
Theorem error_count_agrees_with_has_errors
    (msg : string) (lg : ExportLogger) :
  (has_errors lg = true ↔ (0 < error_count lg)%nat) ∧
  (error_count lg + warning_count lg ≤ length (_messages lg))%nat ∧
  error_count (error msg lg)
  = (error_count lg
     + if (length (_messages lg) <? max_messages lg)%nat then 1 else 0)%nat ∧
  warning_count (error msg lg) = warning_count lg ∧
  error_count (clear lg) = 0%nat ∧ has_errors (clear lg) = false.
Proof.
  unfold has_errors, error_count, warning_count, error. rewrite !sum_ones.
  split_and!.
  - rewrite existsb_exists. split.
    + intros ([lvl m] & Hin & Herr). apply list_elem_of_In in Hin.
      assert (Hf : (lvl, m) ∈ filter (λ m, is_error m.1 = true) (_messages lg))
        by (apply list_elem_of_filter; auto).
      destruct (filter _ _); [inversion Hf|simpl; lia].
    + intros Hpos.
      destruct (filter (λ m, is_error m.1 = true) (_messages lg))
        as [|x l] eqn:Hf; [simpl in Hpos; lia|].
      assert (Hx : x ∈ filter (λ m, is_error m.1 = true) (_messages lg))
        by (rewrite Hf; left).
      apply list_elem_of_filter in Hx as [Herr Hin].
      exists x. split; [apply list_elem_of_In; exact Hin|exact Herr].
  - induction (_messages lg) as [|[lvl m] l IH]; simpl; [lia|].
    rewrite !filter_cons. destruct lvl; simpl; lia.
  - cbn [_messages _log]. destruct (_ <? _)%nat; [|lia].
    rewrite filter_app, length_app. reflexivity.
  - cbn [_messages _log]. destruct (_ <? _)%nat; [|reflexivity].
    rewrite filter_app, length_app. simpl. lia.
  - reflexivity.
  - reflexivity.
Qed.

End LoggerFacts.
(** ** formats/binary_writer.py: what the methods append *)

Module BinaryWriterFacts.
Import PySeq Logging Decompose Formats.

(** The value of a little-endian byte string. *)
Definition le_value (bs : bytes) : Z := foldr (λ b acc, b + 256 * acc)%Z 0%Z bs.

Definition is_byte (b : Z) : Prop := (0 ≤ b < 256)%Z.

Lemma le_bytes_succ (n : nat) (v : Z) :
  le_bytes (S n) v = (v mod 256)%Z :: le_bytes n (v / 256).
Proof.
  unfold le_bytes. cbn [seq fmap list_fmap]. f_equal.
  - rewrite Z.pow_0_r, Z.div_1_r. reflexivity.
  - rewrite <- seq_shift, <- list_fmap_compose. apply list_fmap_ext.
    intros _ k _. simpl. f_equal.
    rewrite Nat2Z.inj_succ, Z.pow_succ_r by lia.
    rewrite Z.div_div by lia. reflexivity.
Qed.

Lemma length_le_bytes (n : nat) (v : Z) : length (le_bytes n v) = n.
Proof. unfold le_bytes. rewrite length_fmap, length_seq. reflexivity. Qed.

Lemma le_bytes_are_bytes (n : nat) (v : Z) : Forall is_byte (le_bytes n v).
Proof.
  unfold le_bytes. apply Forall_fmap, Forall_forall. intros k _. simpl.
  unfold is_byte. apply Z.mod_pos_bound. lia.
Qed.

Lemma le_value_le_bytes (n : nat) : ∀ v : Z,
  le_value (le_bytes n v) = (v mod 256 ^ Z.of_nat n)%Z.
Proof.
  induction n as [|n IH]; intros v.
  - simpl. rewrite Z.mod_1_r. reflexivity.
  - rewrite le_bytes_succ. cbn [le_value foldr]. fold (le_value (le_bytes n (v / 256))).
    rewrite IH, Nat2Z.inj_succ, Z.pow_succ_r by lia.
    rewrite Z.rem_mul_r by lia. reflexivity.
Qed.

(** A writer method for unsigned integers of [n] bytes: in range it
    appends the [n] little-endian bytes of the value, out of range it
    raises [struct.error] and appends nothing. *)
Definition packs (n : nat) (write : Z → W unit) : Prop :=
  ∀ (v : Z) (buf : bytes),
    if bool_decide (0 ≤ v < 256 ^ Z.of_nat n)%Z
    then ∃ bs, write v buf = inr (tt, buf ++ bs) ∧ length bs = n ∧
               Forall is_byte bs ∧ le_value bs = v
    else write v buf = inl StructError.

Lemma pack_unsigned_packs (n : nat) : packs n (pack_unsigned n).
Proof.
  intros v buf. unfold pack_unsigned. case_bool_decide as Hv; [|reflexivity].
  exists (le_bytes n v). split_and!.
  - reflexivity.
  - apply length_le_bytes.
  - apply le_bytes_are_bytes.
  - rewrite le_value_le_bytes. apply Z.mod_small. exact Hv.
Qed.

(** X6. [write_ubyte], [write_ushort] and [write_uint] append exactly 1,
    2 and 4 bytes whose little-endian value is the argument when it fits
    the width; otherwise they raise [struct.error] (a negative number or
    one that is too large is never truncated) and the buffer is not
    extended. *)
Theorem unsigned_writers_round_trip :
  packs 1 write_ubyte ∧ packs 2 write_ushort ∧ packs 4 write_uint.
Proof. split_and!; apply pack_unsigned_packs. Qed.

(** *** C strings *)

(** Reading a C string back: the characters before the first zero byte,
    and the bytes after it; [None] when there is no zero byte. *)
Fixpoint decode_cstring (bs : bytes) : option (string * bytes) :=
  match bs with
  | [] => None
  | b :: rest =>
      if (b =? 0)%Z then Some (EmptyString, rest)
      else '(s, rest') ← decode_cstring rest;
           Some (String (ascii_of_nat (Z.to_nat b)) s, rest')
  end.

(** Text of ASCII characters other than NUL. *)
Fixpoint ascii_text (s : string) : Prop :=
  match s with
  | EmptyString => True
  | String c s' => (0 < nat_of_ascii c < 128)%nat ∧ ascii_text s'
  end.

Lemma encode_ascii_bound (s : string) :
  Forall (λ b, 0 ≤ b < 128)%Z (encode_ascii s).
Proof.
  induction s as [|c s IH]; simpl; constructor; [|exact IH].
  case_bool_decide; lia.
Qed.

Lemma length_encode_ascii (s : string) :
  length (encode_ascii s) = String.length s.
Proof. induction s as [|c s IH]; simpl; [reflexivity|]. rewrite IH. reflexivity. Qed.

Lemma write_cstring_appends (s : string) (buf : bytes) :
  write_cstring s buf = inr (tt, buf ++ encode_ascii s ++ [0%Z]).
Proof.
  unfold write_cstring, write_ascii, write_ubyte, pack_unsigned, w_bind, extend.
  rewrite bool_decide_eq_true_2 by (simpl; lia).
  rewrite <- app_assoc. reflexivity.
Qed.

(** X7. For a text of ASCII characters without NUL, [write_cstring]
    does not raise: it appends one byte below 128 for every character and
    a closing zero byte, and reading the bytes up to the first zero gives
    the text back, whatever follows in the file. *)
Theorem cstring_round_trip (s : string) (buf rest : bytes) :
  ascii_text s →
  ∃ bs, write_cstring s buf = inr (tt, buf ++ bs) ∧
        length bs = S (String.length s) ∧
        Forall (λ b, 0 ≤ b < 128)%Z bs ∧
        decode_cstring (bs ++ rest) = Some (s, rest).
Proof.
  intros Htext. exists (encode_ascii s ++ [0%Z]). split_and!.
  - apply write_cstring_appends.
  - rewrite length_app, length_encode_ascii. simpl. lia.
  - apply Forall_app. split; [apply encode_ascii_bound|].
    constructor; [lia|constructor].
  - rewrite <- app_assoc. change ([0%Z] ++ rest) with (0%Z :: rest).
    induction s as [|c s IH]; [reflexivity|].
    destruct Htext as [Hc Hs]. cbn [encode_ascii app decode_cstring].
    rewrite bool_decide_eq_true_2 by lia.
    destruct (Z.of_nat (nat_of_ascii c) =? 0)%Z eqn:Hz; [lia|].
    rewrite (IH Hs). cbn. rewrite Nat2Z.id, ascii_nat_embedding. reflexivity.
Qed.

(** A character that is not ASCII is written as a question mark, and a
    NUL inside the text ends it for the reader. *)
Example cstring_replaces_and_cuts :
  write_cstring (String (ascii_of_nat 233) "t") [] = inr (tt, [63; 116; 0]%Z)
  ∧ decode_cstring (encode_ascii (String (ascii_of_nat 0) "t") ++ [0%Z])
    = Some ("", [116; 0]%Z).
Proof. vm_compute. auto. Qed.

Lemma cstring_round_trip_witness :
  ∃ bs, write_cstring "Bone.001" [85; 77]%Z = inr (tt, [85; 77]%Z ++ bs) ∧
        length bs = S (String.length "Bone.001") ∧
        Forall (λ b, 0 ≤ b < 128)%Z bs ∧
        decode_cstring (bs ++ [7; 0; 0; 0]%Z)
        = Some ("Bone.001", [7; 0; 0; 0]%Z).
Proof.
  apply (cstring_round_trip "Bone.001" [85; 77]%Z [7; 0; 0; 0]%Z).
  simpl. repeat split; apply Nat.ltb_lt; reflexivity.
Defined.

End BinaryWriterFacts.
(** ** data/urho_model.py and formats/model_writer.py: masks, index
       ranges, morph range and geometry centres *)

Module ModelWriterFacts.
Import PySeq Logging Decompose Formats BinaryWriterFacts.

(** [ELEMENT_SIZES], in the order the dictionary is written. *)
Definition ELEMENT_SIZES : list (Z * Z) :=
  [(ELEMENT_POSITION, 12); (ELEMENT_NORMAL, 12); (ELEMENT_COLOR, 4);
   (ELEMENT_UV1, 8); (ELEMENT_UV2, 8); (ELEMENT_TANGENT, 16);
   (ELEMENT_BWEIGHTS, 16); (ELEMENT_BINDICES, 4)]%Z.

Definition vertex_size_from_mask (mask : Z) : Z :=
  foldl (λ size p, if has_bit mask p.1 then (size + p.2)%Z else size)
        0%Z ELEMENT_SIZES.

Definition bytes_if (b : bool) (n : Z) : Z := if b then n else 0%Z.

(** X8. Every feature flag given to [compute_element_mask] can be read
    back from the mask with [mask & ELEMENT_...] (weights set both blend
    bits), and [vertex_size_from_mask] of the mask is the sum of the
    sizes of the enabled elements: 12 for position and for normal, 4 for
    colour, 8 for each UV set, 16 for the tangent and 20 for weights
    with indices. *)
Theorem element_mask_round_trip
    (has_position has_normal has_color has_uv1 has_uv2 has_tangent
     has_weights : bool) :
  let mask := compute_element_mask has_position has_normal has_color has_uv1
                has_uv2 has_tangent has_weights in
  has_bit mask ELEMENT_POSITION = has_position ∧
  has_bit mask ELEMENT_NORMAL = has_normal ∧
  has_bit mask ELEMENT_COLOR = has_color ∧
  has_bit mask ELEMENT_UV1 = has_uv1 ∧
  has_bit mask ELEMENT_UV2 = has_uv2 ∧
  has_bit mask ELEMENT_TANGENT = has_tangent ∧
  has_bit mask ELEMENT_BWEIGHTS = has_weights ∧
  has_bit mask ELEMENT_BINDICES = has_weights ∧
  vertex_size_from_mask mask
  = (bytes_if has_position 12 + bytes_if has_normal 12 + bytes_if has_color 4
     + bytes_if has_uv1 8 + bytes_if has_uv2 8 + bytes_if has_tangent 16
     + bytes_if has_weights 20)%Z.
Proof.
  destruct has_position, has_normal, has_color, has_uv1, has_uv2,
    has_tangent, has_weights; vm_compute; repeat split.
Qed.

(** *** Index ranges *)

(** The indices of a LOD level and of a geometry, flattened. *)
Definition lod_indices (lod : IntermediateLodLevel) : list Z :=
  triangles lod ≫= indices_of.

Definition geometry_indices (geom : IntermediateGeometry) : list Z :=
  lod_levels geom ≫= lod_indices.

Lemma length_lod_indices (lod : IntermediateLodLevel) :
  length (lod_indices lod) = (3 * length (triangles lod))%nat.
Proof.
  unfold lod_indices. induction (triangles lod) as [|[[a b] c] ts IH];
    [reflexivity|].
  rewrite bind_cons, length_app, IH. simpl. lia.
Qed.

Lemma lod_ranges_spec (lods : list IntermediateLodLevel) : ∀ all0 : list Z,
  (lod_ranges lods all0).1 = all0 ++ (lods ≫= lod_indices) ∧
  ∀ li lod, lods !! li = Some lod →
    (lod_ranges lods all0).2 !! li
    = Some (Z.of_nat (length all0 + length (take li lods ≫= lod_indices)),
            Z.of_nat (length (lod_indices lod))).
Proof.
  induction lods as [|l lods IH]; intros all0.
  - simpl. rewrite app_nil_r. split; [reflexivity|]. intros li lod Hl.
    rewrite lookup_nil in Hl. discriminate.
  - cbn [lod_ranges]. fold (lod_indices l).
    destruct (IH (all0 ++ lod_indices l)) as [Hall Hat].
    destruct (lod_ranges lods (all0 ++ lod_indices l)) as [all1 more].
    cbn [fst snd] in *. split.
    + rewrite Hall, bind_cons, <- app_assoc. reflexivity.
    + intros [|li] lod Hl; simpl in Hl.
      * injection Hl as <-. simpl. rewrite length_app. f_equal. f_equal; lia.
      * change (more !! li = Some
                  (Z.of_nat (length all0
                             + length ((l :: take li lods) ≫= lod_indices)),
                   Z.of_nat (length (lod_indices lod)))).
        rewrite (Hat li lod Hl). rewrite bind_cons, !length_app.
        f_equal. f_equal. lia.
Qed.

Lemma geometry_ranges_spec (geoms : list IntermediateGeometry) :
  ∀ all0 : list Z,
  (geometry_ranges geoms all0).1 = all0 ++ (geoms ≫= geometry_indices) ∧
  ∀ gi geom li lod,
    geoms !! gi = Some geom → lod_levels geom !! li = Some lod →
    ((geometry_ranges geoms all0).2 !! gi ≫= (λ r, r !! li))
    = Some (Z.of_nat (length all0
                      + length (take gi geoms ≫= geometry_indices)
                      + length (take li (lod_levels geom) ≫= lod_indices)),
            Z.of_nat (length (lod_indices lod))).
Proof.
  induction geoms as [|g geoms IH]; intros all0.
  - simpl. rewrite app_nil_r. split; [reflexivity|]. intros gi geom li lod Hg.
    rewrite lookup_nil in Hg. discriminate.
  - cbn [geometry_ranges].
    destruct (lod_ranges_spec (lod_levels g) all0) as [Hlods Hlod_at].
    destruct (lod_ranges (lod_levels g) all0) as [all1 ranges].
    cbn [fst snd] in *.
    destruct (IH all1) as [Hall Hat].
    destruct (geometry_ranges geoms all1) as [all2 more_ranges].
    cbn [fst snd] in *. fold (geometry_indices g) in Hlods. split.
    + rewrite Hall, Hlods, bind_cons, <- app_assoc. reflexivity.
    + intros [|gi] geom li lod Hg Hl; simpl in Hg.
      * injection Hg as <-.
        change (ranges !! li = Some
                  (Z.of_nat (length all0 + length ([] ≫= geometry_indices)
                             + length (take li (lod_levels g) ≫= lod_indices)),
                   Z.of_nat (length (lod_indices lod)))).
        rewrite (Hlod_at li lod Hl). simpl. f_equal. f_equal. lia.
      * change ((more_ranges !! gi ≫= (λ r, r !! li)) = Some
                  (Z.of_nat (length all0
                             + length ((g :: take gi geoms) ≫= geometry_indices)
                             + length (take li (lod_levels geom) ≫= lod_indices)),
                   Z.of_nat (length (lod_indices lod)))).
        rewrite (Hat gi geom li lod Hg Hl).
        rewrite bind_cons, Hlods, !length_app. f_equal. f_equal. lia.
Qed.

(** X9. In the flat index buffer that [write_model] builds, the
    [(start, count)] recorded for a LOD level of a geometry addresses
    exactly the corners of that level's triangles, in order: [count] is
    three times the number of triangles and the [count] indices from
    [start] on are those triangles' indices. *)
Theorem lod_range_addresses_its_triangles
    (geoms : list IntermediateGeometry) (gi li : nat)
    (geom : IntermediateGeometry) (lod : IntermediateLodLevel) :
  geoms !! gi = Some geom → lod_levels geom !! li = Some lod →
  let r := geometry_ranges geoms [] in
  ∃ start count : Z,
    (r.2 !! gi ≫= (λ ranges, ranges !! li)) = Some (start, count) ∧
    (0 ≤ start)%Z ∧ count = (3 * Z.of_nat (length (triangles lod)))%Z ∧
    take (Z.to_nat count) (drop (Z.to_nat start) r.1)
    = triangles lod ≫= indices_of ∧
    length r.1
    = (3 * sum_list ((λ g, sum_list ((λ l, length (triangles l))
                                     <$> lod_levels g)) <$> geoms))%nat.
Proof.
  intros Hg Hl r. subst r.
  destruct (geometry_ranges_spec geoms []) as [Hall Hat].
  rewrite (Hat gi geom li lod Hg Hl). rewrite Hall. cbn [app length].
  eexists _, _. split; [reflexivity|]. split_and!.
  - lia.
  - rewrite length_lod_indices. lia.
  - rewrite !Nat2Z.id.
    rewrite <- (take_drop_middle geoms gi geom Hg) at 2.
    rewrite bind_app, bind_cons. rewrite <- drop_drop.
    rewrite Nat.add_0_l, drop_app_length.
    unfold geometry_indices at 1.
    rewrite <- (take_drop_middle (lod_levels geom) li lod Hl) at 2.
    rewrite bind_app, bind_cons, <- !app_assoc.
    rewrite drop_app_length. rewrite take_app_length. reflexivity.
  - clear. induction geoms as [|g geoms IH]; [reflexivity|].
    rewrite bind_cons, length_app, IH, fmap_cons.
    assert (Hg : length (geometry_indices g)
                 = (3 * sum_list ((λ l, length (triangles l))
                                  <$> lod_levels g))%nat).
    { unfold geometry_indices.
      induction (lod_levels g) as [|l ls IHl]; [reflexivity|].
      rewrite bind_cons, length_app, IHl, length_lod_indices, fmap_cons.
      simpl. lia. }
    rewrite Hg. simpl. lia.
Qed.

Definition two_lods : list IntermediateGeometry :=
  [ {| material_name := "a"; material_index := 0;
       lod_levels := [ {| distance := 0; triangles := [(0, 1, 2); (2, 1, 3)]%Z |};
                       {| distance := Q2Qc 10; triangles := [(4, 5, 6)]%Z |} ] |};
    {| material_name := "b"; material_index := 1;
       lod_levels := [ {| distance := 0; triangles := [(7, 8, 9)]%Z |} ] |} ].

Lemma lod_range_addresses_its_triangles_witness :
  ∃ start count : Z,
    ((geometry_ranges two_lods []).2 !! 0%nat ≫= (λ ranges, ranges !! 1%nat))
    = Some (start, count) ∧
    (0 ≤ start)%Z ∧ count = (3 * Z.of_nat 1)%Z ∧
    take (Z.to_nat count) (drop (Z.to_nat start) (geometry_ranges two_lods []).1)
    = [4; 5; 6]%Z ∧
    length (geometry_ranges two_lods []).1 = 12%nat.
Proof.
  exact (lod_range_addresses_its_triangles two_lods 0 1 _
           {| distance := Q2Qc 10; triangles := [(4, 5, 6)]%Z |} eq_refl eq_refl).
Defined.


(** *** Morph range *)

Lemma foldl_min_spec (l : list Z) : ∀ i : Z,
  (foldl Z.min i l ≤ i)%Z ∧ Forall (λ x, foldl Z.min i l ≤ x)%Z l ∧
  foldl Z.min i l ∈ i :: l.
Proof.
  induction l as [|x l IH]; intros i; simpl.
  - split_and!; [lia|constructor|left].
  - destruct (IH (Z.min i x)) as (Hle & Hall & Hin). split_and!.
    + lia.
    + constructor; [lia|exact Hall].
    + apply elem_of_cons in Hin as [Heq|Hin]; [|right; right; exact Hin].
      rewrite Heq. destruct (Z.min_spec i x) as [[_ ->]|[_ ->]];
        [left|right; left].
Qed.

Lemma foldl_max_spec (l : list Z) : ∀ i : Z,
  (i ≤ foldl Z.max i l)%Z ∧ Forall (λ x, x ≤ foldl Z.max i l)%Z l ∧
  foldl Z.max i l ∈ i :: l.
Proof.
  induction l as [|x l IH]; intros i; simpl.
  - split_and!; [lia|constructor|left].
  - destruct (IH (Z.max i x)) as (Hle & Hall & Hin). split_and!.
    + lia.
    + constructor; [lia|exact Hall].
    + apply elem_of_cons in Hin as [Heq|Hin]; [|right; right; exact Hin].
      rewrite Heq. destruct (Z.max_spec i x) as [[_ ->]|[_ ->]];
        [right; left|left].
Qed.

(** The vertex indices that the morphs of a model touch. *)
Definition affected (ms : list IntermediateMorph) : list Z :=
  ms ≫= (λ m, vertex_index <$> morph_vertices m).

(** X10. The morph range written to the vertex buffer header covers
    every vertex touched by a morph and is tight: [morph_start] is the
    smallest touched index and [morph_start + morph_count - 1] the
    largest, both touched themselves. *)
Theorem morph_range_covers_affected_vertices
    (ms : list IntermediateMorph) (m : IntermediateMorph)
    (mv : IntermediateMorphVertex) :
  m ∈ ms → mv ∈ morph_vertices m →
  let '(start, count) := morph_range ms in
  (start ≤ vertex_index mv < start + count)%Z ∧
  start ∈ affected ms ∧ (start + count - 1)%Z ∈ affected ms.
Proof.
  intros Hm Hmv. unfold morph_range. fold (affected ms).
  assert (Hin : vertex_index mv ∈ affected ms).
  { unfold affected. apply list_elem_of_bind. exists m. split; [|exact Hm].
    apply list_elem_of_fmap. exists mv. auto. }
  destruct (affected ms) as [|i rest]; [inversion Hin|].
  destruct (foldl_min_spec rest i) as (Hlo_i & Hlo & Hlo_in).
  destruct (foldl_max_spec rest i) as (Hhi_i & Hhi & Hhi_in).
  rewrite Forall_forall in Hlo, Hhi. split_and!.
  - apply elem_of_cons in Hin as [->|Hin]; [lia|apply Hlo; exact Hin].
  - apply elem_of_cons in Hin as [->|Hin]; [lia|].
    specialize (Hhi _ Hin). lia.
  - exact Hlo_in.
  - replace (foldl Z.min i rest + (foldl Z.max i rest - foldl Z.min i rest + 1)
             - 1)%Z with (foldl Z.max i rest) by lia.
    exact Hhi_in.
Qed.

Lemma morph_range_without_vertices (ms : list IntermediateMorph) :
  affected ms = [] → morph_range ms = (0, 0)%Z.
Proof. unfold morph_range, affected. intros ->. reflexivity. Qed.

Definition smile : IntermediateMorph :=
  {| morph_name := "smile";
     morph_vertices :=
       [ {| vertex_index := 7; position_delta := (0, 0, 0)%Qc;
            normal_delta := None; tangent_delta := None |};
         {| vertex_index := 3; position_delta := (0, 0, 0)%Qc;
            normal_delta := None; tangent_delta := None |} ] |}.

Definition frown : IntermediateMorph :=
  {| morph_name := "frown";
     morph_vertices :=
       [ {| vertex_index := 12; position_delta := (0, 0, 0)%Qc;
            normal_delta := None; tangent_delta := None |} ] |}.

Lemma morph_range_covers_affected_vertices_witness :
  morph_range [smile; frown] = (3, 10)%Z ∧
  (3 ≤ 7 < 3 + 10)%Z ∧ 3%Z ∈ affected [smile; frown]
  ∧ (3 + 10 - 1)%Z ∈ affected [smile; frown].
Proof.
  split; [reflexivity|].
  apply (morph_range_covers_affected_vertices [smile; frown] smile
           {| vertex_index := 7; position_delta := (0, 0, 0)%Qc;
              normal_delta := None; tangent_delta := None |}).
  - left.
  - left.
Defined.

(** *** Geometry centres *)

Definition add3 (a b : vec3) : vec3 :=
  let '(sx, sy, sz) := a in
  let '(x, y, z) := b in (sx + x, sy + y, sz + z)%Qc.

(** The mean of a list of positions; the origin for the empty list. *)
Definition mean (ps : list vec3) : vec3 :=
  match ps with
  | [] => (0, 0, 0)%Qc
  | _ => let '(sx, sy, sz) := foldl add3 (0, 0, 0)%Qc ps in
         let n := Q2Qc (inject_Z (Z.of_nat (length ps))) in
         (sx / n, sy / n, sz / n)%Qc
  end.

Definition in_bounds {A} (vs : list A) (i : Z) : Prop :=
  (- Z.of_nat (length vs) ≤ i < Z.of_nat (length vs))%Z.

Lemma center_sum_spec (vs : list IntermediateVertex) (idxs : list Z) :
  ∀ (seen : gset Z) (acc : vec3) (count : Z),
  Forall (in_bounds vs) idxs →
  ∃ d ps,
    NoDup d ∧ (∀ i, i ∈ d ↔ i ∈ idxs ∧ i ∉ seen) ∧
    mapM (λ i, position <$> py_index vs i) d = Some ps ∧
    center_sum vs idxs seen acc count
    = Some (foldl add3 acc ps, (count + Z.of_nat (length ps))%Z).
Proof.
  induction idxs as [|idx idxs IH]; intros seen acc count Hvalid.
  - exists [], []. split_and!; [constructor| |reflexivity|].
    + intros i. split; [intros H; inversion H|intros [H _]; inversion H].
    + simpl. rewrite Z.add_0_r. reflexivity.
  - inversion Hvalid as [|? ? Hidx Hrest]; subst. cbn [center_sum].
    case_bool_decide as Hseen.
    + destruct (IH seen acc count Hrest) as (d & ps & Hnd & Hd & Hps & Hrun).
      exists d, ps. split_and!; [exact Hnd| |exact Hps|exact Hrun].
      intros i. rewrite Hd, elem_of_cons. split; [tauto|].
      intros [[->|Hi] Hnot]; [contradiction|auto].
    + destruct (py_index_valid vs idx Hidx) as [v Hv]. rewrite Hv. cbn.
      destruct acc as [[sx sy] sz]. destruct (position v) as [[x y] z] eqn:Hpos.
      destruct (IH ({[idx]} ∪ seen) (sx + x, sy + y, sz + z)%Qc (count + 1)%Z
                   Hrest) as (d & ps & Hnd & Hd & Hps & Hrun).
      exists (idx :: d), ((x, y, z) :: ps). split_and!.
      * constructor; [|exact Hnd]. intros Hin%Hd. set_solver.
      * intros i. rewrite !elem_of_cons, Hd. split.
        -- intros [->|[Hi Hnot]]; [auto|]. split; [auto|set_solver].
        -- intros [[->|Hi] Hnot]; [auto|].
           destruct (decide (i = idx)) as [->|Hne]; [auto|].
           right. split; [exact Hi|set_solver].
      * cbn. rewrite Hv. cbn. rewrite Hpos, Hps. reflexivity.
      * rewrite Hrun. cbn [foldl add3 length]. f_equal. f_equal. lia.
Qed.

(** X11. With every triangle index in range, the centre written for a
    geometry is the mean position over the distinct indices its
    triangles use: an index counts once however many corners use it, and
    a geometry without triangles gets the origin. *)
Theorem geometry_center_is_mean_of_distinct_corners
    (vs : list IntermediateVertex) (geom : IntermediateGeometry) :
  Forall (in_bounds vs) (BoneMaps.corner_indices geom) →
  ∃ (d : list Z) (ps : list vec3),
    NoDup d ∧ (∀ i, i ∈ d ↔ i ∈ BoneMaps.corner_indices geom) ∧
    mapM (λ i, position <$> py_index vs i) d = Some ps ∧
    _compute_geometry_center vs geom = Some (mean ps).
Proof.
  intros Hvalid.
  destruct (center_sum_spec vs (BoneMaps.corner_indices geom) ∅
              (0, 0, 0)%Qc 0 Hvalid) as (d & ps & Hnd & Hd & Hps & Hrun).
  exists d, ps. split_and!; [exact Hnd| |exact Hps|].
  - intros i. rewrite Hd. set_solver.
  - unfold _compute_geometry_center. rewrite Hrun. cbn.
    destruct ps as [|p ps]; [reflexivity|].
    rewrite bool_decide_eq_false_2 by (simpl; lia).
    unfold mean. destruct (foldl add3 (0, 0, 0)%Qc (p :: ps)) as [[sx sy] sz].
    rewrite Z.add_0_l. reflexivity.
Qed.

Definition corner (x y z : Z) : IntermediateVertex :=
  {| position := (Q2Qc (inject_Z x), Q2Qc (inject_Z y), Q2Qc (inject_Z z));
     normal := None; uv := None; uv2 := None; tangent := None; color := None;
     bone_weights := None; bone_indices := None; blender_index := None |}.

Definition two_faces : IntermediateGeometry :=
  {| material_name := ""; material_index := 0;
     lod_levels := [ {| distance := 0;
                        triangles := [(0, 1, 2); (2, 1, 0)]%Z |} ] |}.

Example center_of_two_faces :
  _compute_geometry_center [corner 0 0 0; corner 3 0 0; corner 0 6 0] two_faces
  = Some (Q2Qc 1, Q2Qc 2, Q2Qc 0).
Proof.
  vm_compute. f_equal. f_equal; [f_equal|]; apply Qc_is_canon; reflexivity.
Qed.

Lemma geometry_center_is_mean_of_distinct_corners_witness :
  ∃ (d : list Z) (ps : list vec3),
    NoDup d ∧ (∀ i, i ∈ d ↔ i ∈ BoneMaps.corner_indices two_faces) ∧
    mapM (λ i, position <$> py_index
                 [corner 0 0 0; corner 3 0 0; corner 0 6 0] i) d = Some ps ∧
    _compute_geometry_center [corner 0 0 0; corner 3 0 0; corner 0 6 0]
      two_faces = Some (mean ps).
Proof.
  apply (geometry_center_is_mean_of_distinct_corners
           [corner 0 0 0; corner 3 0 0; corner 0 6 0] two_faces).
  unfold in_bounds. simpl. repeat constructor; lia.
Defined.

(** *** What a writer appends *)

(** When the writer [m] completes, it has extended the buffer by bytes
    that satisfy [P]. *)
Definition appends (m : W unit) (P : bytes → Prop) : Prop :=
  ∀ buf buf', m buf = inr (tt, buf') → ∃ bs, buf' = buf ++ bs ∧ P bs.

Definition sized (n : nat) (bs : bytes) : Prop := length bs = n.
Definition anything (bs : bytes) : Prop := True.

Lemma appends_weaken (m : W unit) (P Q : bytes → Prop) :
  appends m P → (∀ bs, P bs → Q bs) → appends m Q.
Proof.
  intros Hm HPQ buf buf' Hrun. destruct (Hm buf buf' Hrun) as (bs & -> & HP).
  exists bs. auto.
Qed.

Lemma appends_ret (P : bytes → Prop) : P [] → appends (w_ret tt) P.
Proof.
  intros HP buf buf' [= <-]. exists []. rewrite app_nil_r. auto.
Qed.

Lemma appends_raise (e : exn) (P : bytes → Prop) : appends (w_raise e) P.
Proof. intros buf buf' Hrun. discriminate Hrun. Qed.

Lemma appends_extend (bs : bytes) (P : bytes → Prop) :
  P bs → appends (extend bs) P.
Proof. intros HP buf buf' [= <-]. exists bs. auto. Qed.

Lemma bind_inv (m k : W unit) (buf out : bytes) :
  (m ;; k) buf = inr (tt, out) →
  ∃ mid, m buf = inr (tt, mid) ∧ k mid = inr (tt, out).
Proof.
  unfold w_bind. destruct (m buf) as [e|[[] mid]]; [discriminate|]. eauto.
Qed.

Lemma appends_bind (m k : W unit) (P Q : bytes → Prop) :
  appends m P → appends k Q →
  appends (m ;; k) (λ bs, ∃ a b, bs = a ++ b ∧ P a ∧ Q b).
Proof.
  intros Hm Hk buf buf' (mid & H1 & H2)%bind_inv.
  destruct (Hm _ _ H1) as (a & -> & Ha). destruct (Hk _ _ H2) as (b & -> & Hb).
  exists (a ++ b). rewrite app_assoc. eauto 6.
Qed.

Lemma sized_bind (m k : W unit) (a b : nat) :
  appends m (sized a) → appends k (sized b) → appends (m ;; k) (sized (a + b)).
Proof.
  intros Hm Hk. eapply appends_weaken; [apply (appends_bind _ _ _ _ Hm Hk)|].
  intros bs (x & y & -> & Hx & Hy). unfold sized in *.
  rewrite length_app. lia.
Qed.

Lemma any_bind (m k : W unit) :
  appends m anything → appends k anything → appends (m ;; k) anything.
Proof.
  intros Hm Hk. eapply appends_weaken; [apply (appends_bind _ _ _ _ Hm Hk)|].
  intros bs _. exact I.
Qed.

Lemma sized_when (b : bool) (m : W unit) (a : nat) :
  appends m (sized a) → appends (when b m) (sized (if b then a else 0)).
Proof.
  intros Hm. destruct b; [exact Hm|]. apply appends_ret. reflexivity.
Qed.

Lemma any_when (b : bool) (m : W unit) :
  appends m anything → appends (when b m) anything.
Proof. intros Hm. destruct b; [exact Hm|]. apply appends_ret. exact I. Qed.

Lemma sized_for_each {A} (l : list A) (body : A → W unit) (k : nat) :
  (∀ x, x ∈ l → appends (body x) (sized k)) →
  appends (for_each l body) (sized (length l * k)).
Proof.
  induction l as [|x l IH]; intros Hbody; cbn [for_each length].
  - apply appends_ret. reflexivity.
  - apply (sized_bind _ _ k (length l * k)).
    + apply Hbody. left.
    + apply IH. intros y Hy. apply Hbody. right. exact Hy.
Qed.

Lemma any_for_each {A} (l : list A) (body : A → W unit) :
  (∀ x, appends (body x) anything) → appends (for_each l body) anything.
Proof.
  intros Hbody. induction l as [|x l IH]; cbn [for_each].
  - apply appends_ret. exact I.
  - apply any_bind; [apply Hbody|exact IH].
Qed.

Lemma appends_required {A} (o : option A) (k : A → W unit)
    (P : bytes → Prop) :
  (∀ a, appends (k a) P) → appends (required o k) P.
Proof. intros Hk. destruct o; [apply Hk|apply appends_raise]. Qed.

Lemma exact_unsigned (n : nat) (v : Z) :
  appends (pack_unsigned n v) (λ bs, bs = le_bytes n v).
Proof.
  unfold pack_unsigned. case_bool_decide; [|apply appends_raise].
  apply appends_extend. reflexivity.
Qed.

Lemma sized_unsigned (n : nat) (v : Z) : appends (pack_unsigned n v) (sized n).
Proof.
  eapply appends_weaken; [apply exact_unsigned|].
  intros bs ->. apply length_le_bytes.
Qed.

Lemma sized_color (r g b a : Z) :
  appends (write_color_ubyte4 r g b a) (sized 4).
Proof.
  unfold write_color_ubyte4. destruct (forallb _ _); [|apply appends_raise].
  apply appends_extend. reflexivity.
Qed.

Lemma exact_cstring (s : string) :
  appends (write_cstring s) (λ bs, bs = encode_ascii s ++ [0%Z]).
Proof.
  intros buf buf' Hrun. rewrite write_cstring_appends in Hrun.
  injection Hrun as <-. eauto.
Qed.

Section Layout.

Variable pack_float : Qc → option bytes.

(** [struct.pack('<f', x)] gives four bytes. *)
Hypothesis pack_float_width :
  ∀ x bs, pack_float x = Some bs → length bs = 4%nat.

Lemma sized_float (v : Qc) : appends (write_float pack_float v) (sized 4).
Proof.
  unfold write_float. destruct (pack_float v) as [bs|] eqn:Hv;
    [|apply appends_raise].
  apply appends_extend. exact (pack_float_width v bs Hv).
Qed.

Lemma sized_floats (vs : list Qc) :
  appends (write_floats pack_float vs) (sized (4 * length vs)).
Proof.
  unfold write_floats. destruct (mapM pack_float vs) as [bss|] eqn:Hvs;
    [|apply appends_raise].
  apply appends_extend. unfold sized.
  revert bss Hvs. induction vs as [|v vs IH]; intros bss Hvs.
  - injection Hvs as <-. reflexivity.
  - cbn in Hvs. destruct (pack_float v) as [bs|] eqn:Hv; [|discriminate].
    cbn in Hvs. destruct (mapM pack_float vs) as [rest|]; [|discriminate].
    injection Hvs as <-. cbn [concat length]. rewrite length_app.
    rewrite (pack_float_width v bs Hv), (IH rest eq_refl). lia.
Qed.

Lemma sized_vector3 (v : vec3) :
  appends (write_vector3 pack_float v) (sized 12).
Proof. destruct v as [[x y] z]. apply (sized_floats [x; y; z]). Qed.

Lemma sized_vector2 (v : vec2) :
  appends (write_vector2 pack_float v) (sized 8).
Proof. destruct v as [x y]. apply (sized_floats [x; y]). Qed.

Lemma sized_quaternion (w x y z : Qc) :
  appends (write_quaternion pack_float w x y z) (sized 16).
Proof. apply (sized_floats [w; x; y; z]). Qed.

(** The bytes of one vertex, by the flags of the vertex buffer. *)
Definition stride (p : Prepared) : nat :=
  12 + (if has_normal p then 12 else 0) + (if has_color p then 4 else 0)
  + (if has_uv1 p then 8 else 0) + (if has_uv2 p then 8 else 0)
  + (if has_tangent p then 16 else 0) + (if has_weights p then 20 else 0).

Lemma length_four {A} (d : A) (l : list A) : length (four d l) = 4%nat.
Proof. reflexivity. Qed.

Lemma sized_vertex (p : Prepared) (v : IntermediateVertex) :
  appends (write_vertex pack_float p v) (sized (stride p)).
Proof.
  unfold write_vertex.
  eapply appends_weaken.
  - apply sized_bind; [apply sized_vector3|].
    apply sized_bind;
      [apply sized_when, appends_required; intros n; apply sized_vector3|].
    apply sized_bind.
    { apply sized_when.
      destruct (default (255, 255, 255, 255)%Z (color v)) as [[[r g] b] a].
      apply sized_color. }
    apply sized_bind; [apply sized_when, sized_vector2|].
    apply sized_bind; [apply sized_when, sized_vector2|].
    apply sized_bind.
    { apply sized_when.
      destruct (default (0, 0, 0, 1)%Qc (tangent v)) as [[[x y] z] s].
      apply (sized_bind _ _ 4 12); [apply sized_float|].
      apply (sized_bind _ _ 4 8); [apply sized_float|].
      apply (sized_bind _ _ 4 4); apply sized_float. }
    apply sized_when.
    apply (sized_bind _ _ (4 * 4) (4 * 1)).
    + apply (sized_for_each (four _ _) _ 4). intros x _. apply sized_float.
    + apply (sized_for_each (four _ _) _ 1). intros x _.
      apply sized_unsigned.
  - intros bs Hbs. unfold sized, stride in *. rewrite Hbs.
    destruct (has_normal p), (has_color p), (has_uv1 p), (has_uv2 p),
      (has_tangent p), (has_weights p); reflexivity.
Qed.

(** Every writer of the model file only appends to the buffer. *)
Ltac appending :=
  repeat first
    [ apply any_bind
    | apply any_when
    | apply any_for_each; intros ?
    | apply appends_required; intros ?
    | apply appends_ret; exact I
    | apply appends_raise
    | apply appends_extend; exact I
    | eapply appends_weaken; [apply sized_unsigned|intros; exact I]
    | eapply appends_weaken; [apply exact_cstring|intros; exact I]
    | eapply appends_weaken; [apply sized_float|intros; exact I]
    | eapply appends_weaken; [apply sized_vector3|intros; exact I]
    | eapply appends_weaken; [apply sized_quaternion|intros; exact I]
    | match goal with
      | |- appends (match ?x with _ => _ end) _ => destruct x
      end ].

Lemma any_geometry (p : Prepared) (gi : nat) (geom : IntermediateGeometry) :
  appends (write_geometry pack_float p gi geom) anything.
Proof.
  unfold write_geometry, write_lod, write_uint. appending.
Qed.

Lemma any_morph (morph : IntermediateMorph) :
  appends (write_morph pack_float morph) anything.
Proof. unfold write_morph, write_uint. appending. Qed.

Lemma any_bone (bone : IntermediateBone) :
  appends (write_bone pack_float bone) anything.
Proof.
  unfold write_bone, write_matrix3x4, write_uint, write_ubyte. appending.
Qed.


(** [_compute_bone_bounds], as in the writer. *)
Variable _compute_bone_bounds :
  IntermediateModel → ExportLogger → exn + (list IntermediateBone * ExportLogger).

Lemma py_store_length {A} (l l' : list A) (i : Z) (x : A) :
  py_store l i x = Some l' → length l' = length l.
Proof.
  unfold py_store. repeat case_match; intros [= <-]; apply length_insert.
Qed.

Lemma remap_vertices_length (bone_list vis : list Z) :
  ∀ vs vs', BoneMaps.remap_vertices bone_list vis vs = Some vs' →
            length vs' = length vs.
Proof.
  induction vis as [|vi vis IH]; intros vs vs' Hrun; simpl in Hrun.
  - injection Hrun as <-. reflexivity.
  - destruct (py_index vs vi) as [v|]; [|discriminate]. simpl in Hrun.
    destruct (BoneMaps.truthy (bone_indices v)) as [bis|].
    + destruct (py_store vs vi _) as [vs1|] eqn:Hstore; [|discriminate].
      simpl in Hrun. rewrite (IH _ _ Hrun). exact (py_store_length _ _ _ _ Hstore).
    + simpl in Hrun. exact (IH _ _ Hrun).
Qed.

Lemma geometry_loop_length (m : BoneMaps.SkinnedModel)
    (geoms : list IntermediateGeometry) :
  ∀ st gi st', BoneMaps.geometry_loop m st gi geoms = Some st' →
               length (BoneMaps.store st') = length (BoneMaps.store st).
Proof.
  induction geoms as [|g geoms IH]; intros st gi st' Hrun; simpl in Hrun.
  - injection Hrun as <-. reflexivity.
  - destruct (BoneMaps.geometry_step m st gi g) as [st1|] eqn:Hstep;
      [|discriminate].
    simpl in Hrun. rewrite (IH _ _ _ Hrun).
    unfold BoneMaps.geometry_step in Hstep.
    destruct (BoneMaps.collect_used _ _ _); [|discriminate]. simpl in Hstep.
    destruct (BoneMaps.remap_vertices _ _ _) as [vs'|] eqn:Hremap;
      [|discriminate].
    simpl in Hstep. injection Hstep as <-. simpl.
    exact (remap_vertices_length _ _ _ _ Hremap).
Qed.

Lemma build_bone_maps_length (m : BoneMaps.SkinnedModel) (lg : ExportLogger)
    (st : BoneMaps.MapState) :
  BoneMaps._build_bone_maps m lg = Some st →
  length (BoneMaps.store st) = length (BoneMaps.model_vertices m).
Proof.
  unfold BoneMaps._build_bone_maps. case_bool_decide.
  - intros [= <-]. reflexivity.
  - intros Hrun. rewrite (geometry_loop_length _ _ _ _ _ Hrun). reflexivity.
Qed.

(** What [write_model] has computed when it enters the [with] block. *)
Lemma prepare_spec (model : IntermediateModel) (v0 : IntermediateVertex)
    (lg lg' : ExportLogger) (p : Prepared) :
  prepare _compute_bone_bounds model v0 lg = inr (p, lg') →
  has_normal p = bool_decide (is_Some (normal v0)) ∧
  has_color p = bool_decide (is_Some (color v0)) ∧
  has_uv1 p = bool_decide (is_Some (uv v0)) ∧
  has_uv2 p = bool_decide (is_Some (uv2 v0)) ∧
  has_tangent p = bool_decide (is_Some (tangent v0)) ∧
  has_weights p = bool_decide (is_Some (bone_weights v0)) ∧
  element_mask p
  = compute_element_mask true (has_normal p) (has_color p) (has_uv1 p)
      (has_uv2 p) (has_tangent p) (has_weights p) ∧
  vertex_count p = Z.of_nat (length (model_vertices model)) ∧
  length (p_vertices p) = length (model_vertices model) ∧
  use_32bit p = bool_decide (65535 < vertex_count p)%Z ∧
  all_indices p = (geometry_ranges (geometries model) []).1 ∧
  (morph_start p, morph_count p) = morph_range (morphs model).
Proof.
  unfold prepare. intros Hprep.
  destruct (match bones model with
            | [] => inr ([], lg)
            | _ :: _ => _compute_bone_bounds model lg
            end) as [e|[bones' lg1]]; [discriminate|].
  destruct (match bones model with
            | [] => Some _
            | _ :: _ => BoneMaps._build_bone_maps _ lg1
            end) as [st|] eqn:Hmap; [|discriminate].
  assert (Hlen : length (BoneMaps.store st) = length (model_vertices model)).
  { destruct (bones model).
    - injection Hmap as <-. reflexivity.
    - exact (build_bone_maps_length _ _ _ Hmap). }
  destruct (geometry_ranges (geometries model) []) as [all ranges].
  destruct (morph_range (morphs model)) as [start count].
  injection Hprep as <- _. cbn. split_and!; reflexivity || exact Hlen.
Qed.

Lemma stride_of_mask (p : Prepared) :
  element_mask p
  = compute_element_mask true (has_normal p) (has_color p) (has_uv1 p)
      (has_uv2 p) (has_tangent p) (has_weights p) →
  vertex_size_from_mask (element_mask p) = Z.of_nat (stride p).
Proof.
  intros ->. unfold stride.
  destruct (has_normal p), (has_color p), (has_uv1 p), (has_uv2 p),
    (has_tangent p), (has_weights p); reflexivity.
Qed.

(** X12. The layout of a model file that [write_model] completes: the
    magic [UMDL], one vertex buffer with the vertex count, the element
    mask of vertex 0's attributes and the morph range, then exactly
    [vertex_count * vertex_size_from_mask(mask)] bytes of vertices; one
    index buffer with the number of indices, the index size (2, or 4
    when there are more than 65535 vertices) and that many indices of
    that size; the rest of the file follows. *)
Theorem model_file_layout
    (model : IntermediateModel) (v0 : IntermediateVertex)
    (lg lg' : ExportLogger) (p : Prepared) (out : bytes) :
  prepare _compute_bone_bounds model v0 lg = inr (p, lg') →
  serialize_model pack_float model p [] = inr (tt, out) →
  let n := Z.of_nat (length (model_vertices model)) in
  let mask :=
    compute_element_mask true
      (bool_decide (is_Some (normal v0))) (bool_decide (is_Some (color v0)))
      (bool_decide (is_Some (uv v0))) (bool_decide (is_Some (uv2 v0)))
      (bool_decide (is_Some (tangent v0)))
      (bool_decide (is_Some (bone_weights v0))) in
  let index_size := if bool_decide (65535 < n)%Z then 4%Z else 2%Z in
  let indices := (geometry_ranges (geometries model) []).1 in
  ∃ vertex_buffer index_buffer rest : bytes,
    out = encode_ascii "UMDL" ++ le_bytes 4 1
          ++ le_bytes 4 n ++ le_bytes 4 mask
          ++ le_bytes 4 (morph_range (morphs model)).1
          ++ le_bytes 4 (morph_range (morphs model)).2
          ++ vertex_buffer
          ++ le_bytes 4 1 ++ le_bytes 4 (Z.of_nat (length indices))
          ++ le_bytes 4 index_size
          ++ index_buffer ++ rest ∧
    Z.of_nat (length vertex_buffer) = (n * vertex_size_from_mask mask)%Z ∧
    Z.of_nat (length index_buffer)
    = (Z.of_nat (length indices) * index_size)%Z.
Proof.
  intros Hprep Hrun.
  destruct (prepare_spec model v0 lg lg' p Hprep)
    as (Hn & Hc & Hu1 & Hu2 & Ht & Hw & Hmask & Hcount & Hlen & H32 & Hidx
        & Hmorph).
  pose proof (stride_of_mask p Hmask) as Hstride.
  rewrite <- Hn, <- Hc, <- Hu1, <- Hu2, <- Ht, <- Hw, <- Hmask.
  rewrite <- Hmorph, <- Hidx, <- Hcount. cbn [fst snd]. rewrite <- H32.
  unfold serialize_model, write_ascii, write_uint in Hrun.
  apply bind_inv in Hrun as (b1 & H1 & Hrun). injection H1 as <-.
  apply bind_inv in Hrun as (b2 & H2 & Hrun).
  apply exact_unsigned in H2 as (? & -> & ->).
  apply bind_inv in Hrun as (b3 & H3 & Hrun).
  apply exact_unsigned in H3 as (? & -> & ->).
  apply bind_inv in Hrun as (b4 & H4 & Hrun).
  apply exact_unsigned in H4 as (? & -> & ->).
  apply bind_inv in Hrun as (b5 & H5 & Hrun).
  apply exact_unsigned in H5 as (? & -> & ->).
  apply bind_inv in Hrun as (b6 & H6 & Hrun).
  apply exact_unsigned in H6 as (? & -> & ->).
  apply bind_inv in Hrun as (b7 & H7 & Hrun).
  apply (sized_for_each (p_vertices p) (write_vertex pack_float p) (stride p))
    in H7 as (vb & -> & Hvb); [|intros v _; apply sized_vertex].
  apply bind_inv in Hrun as (b8 & H8 & Hrun).
  apply exact_unsigned in H8 as (? & -> & ->).
  apply bind_inv in Hrun as (b9 & H9 & Hrun).
  apply exact_unsigned in H9 as (? & -> & ->).
  apply bind_inv in Hrun as (b10 & H10 & Hrun).
  apply exact_unsigned in H10 as (? & -> & ->).
  apply bind_inv in Hrun as (b11 & H11 & Hrun).
  apply (sized_for_each (all_indices p) _ (if use_32bit p then 4 else 2))
    in H11 as (ib & -> & Hib);
    [|intros i _; destruct (use_32bit p); apply sized_unsigned].
  assert (Hrest : appends
            (write_uint (Z.of_nat (length (geometries model))) ;;
             for_each (imap pair (geometries model))
               (λ q, write_geometry pack_float p q.1 q.2) ;;
             write_uint (Z.of_nat (length (morphs model))) ;;
             for_each (morphs model) (write_morph pack_float) ;;
             write_uint (Z.of_nat (length (p_bones p))) ;;
             for_each (p_bones p) (write_bone pack_float) ;;
             write_vector3 pack_float (bbox_min model) ;;
             write_vector3 pack_float (bbox_max model) ;;
             for_each (geometries model)
               (λ geom, match _compute_geometry_center (p_vertices p) geom with
                        | Some center => write_vector3 pack_float center
                        | None => w_raise IndexError
                        end)) anything).
  { unfold write_uint.
    repeat first
      [ apply any_geometry | apply any_morph | apply any_bone
      | apply any_for_each; intros ?
      | apply any_bind
      | eapply appends_weaken; [apply sized_unsigned|intros; exact I]
      | eapply appends_weaken; [apply sized_vector3|intros; exact I]
      | apply appends_raise
      | match goal with
        | |- appends (match ?x with _ => _ end) _ => destruct x
        end ]. }
  apply Hrest in Hrun as (rest & -> & _).
  exists vb, ib, rest. split_and!.
  - rewrite <- !app_assoc. cbn [app]. reflexivity.
  - unfold sized in Hvb. rewrite Hvb, Hlen, Hstride, Hcount. lia.
  - unfold sized in Hib. rewrite Hib. destruct (use_32bit p); lia.
Qed.


(** *** formats/animation_writer.py: the size of an animation file *)

(** The bytes of one keyframe of a track: the time and the components
    that the first keyframe of the track has. *)
Definition room {A} (component : option A) (n : nat) : nat :=
  match component with Some _ => n | None => 0 end.

Definition keyframe_size (track : IntermediateTrack) : nat :=
  match keyframes track with
  | [] => 0
  | kf0 :: _ =>
      4 + room (kf_position kf0) 12 + room (kf_rotation kf0) 16
      + room (kf_scale kf0) 12
  end.

Definition track_size (track : IntermediateTrack) : nat :=
  S (String.length (track_name track)) + 1 + 4
  + length (keyframes track) * keyframe_size track.

Lemma sized_cstring (s : string) :
  appends (write_cstring s) (sized (S (String.length s))).
Proof.
  eapply appends_weaken; [apply exact_cstring|].
  intros bs ->. unfold sized. rewrite length_app, length_encode_ascii.
  simpl. lia.
Qed.

Lemma sized_track (track : IntermediateTrack) :
  appends (write_track pack_float track) (sized (track_size track)).
Proof.
  unfold write_track, track_size, keyframe_size, write_ubyte, write_uint.
  destruct (keyframes track) as [|kf0 kfs].
  - eapply appends_weaken.
    + apply sized_bind; [apply sized_cstring|].
      apply sized_bind; [apply sized_unsigned|].
      apply sized_bind; [apply sized_unsigned|].
      apply appends_ret. reflexivity.
    + intros bs Hbs. unfold sized in *. rewrite Hbs. simpl. lia.
  - set (kfs' := kf0 :: kfs).
    set (mask := flag (bool_decide (is_Some (kf_scale kf0))) TRACK_SCALE
                   (flag (bool_decide (is_Some (kf_rotation kf0))) TRACK_ROTATION
                      (flag (bool_decide (is_Some (kf_position kf0)))
                            TRACK_POSITION 0))).
    assert (Hbits :
      has_bit mask TRACK_POSITION = bool_decide (is_Some (kf_position kf0)) ∧
      has_bit mask TRACK_ROTATION = bool_decide (is_Some (kf_rotation kf0)) ∧
      has_bit mask TRACK_SCALE = bool_decide (is_Some (kf_scale kf0))).
    { subst mask.
      destruct (bool_decide (is_Some (kf_scale kf0))),
        (bool_decide (is_Some (kf_rotation kf0))),
        (bool_decide (is_Some (kf_position kf0))); vm_compute; auto. }
    destruct Hbits as (Hp & Hr & Hs). rewrite Hp, Hr, Hs.
    eapply appends_weaken.
    + apply sized_bind; [apply sized_cstring|].
      apply sized_bind; [apply sized_unsigned|].
      apply sized_bind; [apply sized_unsigned|].
      apply (sized_for_each kfs' _
               (4 + ((if bool_decide (is_Some (kf_position kf0)) then 12 else 0)
                     + ((if bool_decide (is_Some (kf_rotation kf0))
                         then 16 else 0)
                        + (if bool_decide (is_Some (kf_scale kf0))
                           then 12 else 0))))).
      intros kf _.
      apply sized_bind; [apply sized_float|].
      apply sized_bind; [apply sized_when, sized_vector3|].
      apply sized_bind.
      { apply sized_when.
        destruct (default (1, 0, 0, 0)%Qc (kf_rotation kf)) as [[[w x] y] z].
        apply sized_quaternion. }
      apply sized_when, sized_vector3.
    + intros bs Hbs. unfold sized in *. rewrite Hbs. subst kfs'.
      destruct (kf_position kf0), (kf_rotation kf0), (kf_scale kf0);
        unfold room; cbn [length]; repeat case_bool_decide;
        first [ lia
              | exfalso; eauto; fail
              | exfalso;
                match goal with
                | H : is_Some None |- _ => destruct H as [? ?]; discriminate
                end ].
Qed.

(** X13. The size of an animation file that [write_animation] completes:
    the magic [UANI], the name with its closing zero, 4 bytes of
    duration, the track count, and for each track its name with closing
    zero, one mask byte, the keyframe count and the keyframes, each of
    the same size: the time plus 12 bytes of position, 16 of rotation and
    12 of scale for the components that the track's first keyframe has
    (a later keyframe cannot add or drop a component). *)
Theorem animation_file_size (anim : IntermediateAnimation) (out : bytes) :
  serialize_animation pack_float anim [] = inr (tt, out) →
  take 4 out = encode_ascii "UANI" ∧
  length out
  = (4 + S (String.length (anim_name anim)) + 4 + 4
     + sum_list (track_size <$> tracks anim))%nat.
Proof.
  intros Hrun. unfold serialize_animation, write_ascii, write_uint in Hrun.
  apply bind_inv in Hrun as (b1 & H1 & Hrun). injection H1 as <-.
  apply bind_inv in Hrun as (b2 & H2 & Hrun).
  apply sized_cstring in H2 as (name & -> & Hname).
  apply bind_inv in Hrun as (b3 & H3 & Hrun).
  apply sized_float in H3 as (dur & -> & Hdur).
  apply bind_inv in Hrun as (b4 & H4 & Hrun).
  apply sized_unsigned in H4 as (count & -> & Hcount).
  assert (Htracks : appends (for_each (tracks anim) (write_track pack_float))
                      (sized (sum_list (track_size <$> tracks anim)))).
  { clear Hrun. induction (tracks anim) as [|t ts IH]; cbn [for_each].
    - apply appends_ret. reflexivity.
    - rewrite fmap_cons.
      apply (sized_bind _ _ (track_size t) (sum_list (track_size <$> ts)));
        [apply sized_track|exact IH]. }
  apply Htracks in Hrun as (body & -> & Hbody).
  unfold sized in *. split.
  - rewrite <- !app_assoc. reflexivity.
  - rewrite !length_app, Hname, Hdur, Hcount, Hbody. simpl. lia.
Qed.

End Layout.

Definition any_float_width (x : Qc) (bs : bytes) :
  any_float x = Some bs → length bs = 4%nat.
Proof. intros [= <-]. reflexivity. Defined.

(** One textured triangle. *)
Definition textured (x y z : Z) (u v : Z) : IntermediateVertex :=
  {| position := (Q2Qc (inject_Z x), Q2Qc (inject_Z y), Q2Qc (inject_Z z));
     normal := Some (0, 0, 1)%Qc;
     uv := Some (Q2Qc (inject_Z u), Q2Qc (inject_Z v));
     uv2 := None; tangent := None; color := None;
     bone_weights := None; bone_indices := None; blender_index := None |}.

Definition one_face : IntermediateModel :=
  {| name := "Face";
     model_vertices := [textured 0 0 0 0 0; textured 1 0 0 1 0;
                        textured 0 1 0 0 1];
     geometries :=
       [ {| material_name := "m"; material_index := 0;
            lod_levels := [ {| distance := 0;
                               triangles := [(0, 2, 1)%Z] |} ] |} ];
     morphs := []; bones := [];
     bbox_min := (0, 0, 0)%Qc; bbox_max := (1, 1, 0)%Qc |}.

Lemma model_file_layout_witness :
  ∃ (p : Prepared) (out vertex_buffer index_buffer rest : bytes),
    prepare keep_bounds one_face (textured 0 0 0 0 0) new_logger
    = inr (p, new_logger) ∧
    serialize_model any_float one_face p [] = inr (tt, out) ∧
    out = encode_ascii "UMDL" ++ le_bytes 4 1 ++ le_bytes 4 3 ++ le_bytes 4 11
          ++ le_bytes 4 0 ++ le_bytes 4 0 ++ vertex_buffer
          ++ le_bytes 4 1 ++ le_bytes 4 3 ++ le_bytes 4 2
          ++ index_buffer ++ rest ∧
    Z.of_nat (length vertex_buffer) = (3 * 32)%Z ∧
    Z.of_nat (length index_buffer) = (3 * 2)%Z.
Proof.
  destruct (prepare keep_bounds one_face (textured 0 0 0 0 0) new_logger)
    as [e|[p lg']] eqn:Hprep; [vm_compute in Hprep; discriminate Hprep|].
  assert (Hlg : lg' = new_logger)
    by (vm_compute in Hprep; injection Hprep as _ <-; reflexivity).
  subst lg'.
  destruct (serialize_model any_float one_face p []) as [e|[[] out]] eqn:Hrun.
  { exfalso. vm_compute in Hprep. injection Hprep as <-.
    vm_compute in Hrun. discriminate Hrun. }
  destruct (model_file_layout any_float any_float_width keep_bounds one_face
              (textured 0 0 0 0 0) new_logger new_logger p out Hprep Hrun)
    as (vb & ib & rest & Hout & Hvb & Hib).
  exists p, out, vb, ib, rest.
  split_and!; [reflexivity|exact Hrun|exact Hout|exact Hvb|exact Hib].
Defined.

Definition nod : IntermediateAnimation :=
  {| anim_name := "Nod"; duration := 1;
     tracks :=
       [ {| track_name := "Head";
            keyframes :=
              [ {| time := 0; kf_position := Some (0, 0, 0)%Qc;
                   kf_rotation := Some (1, 0, 0, 0)%Qc; kf_scale := None |};
                {| time := 1; kf_position := None;
                   kf_rotation := Some (1, 0, 0, 0)%Qc; kf_scale := None |} ]
         |} ] |}.

Lemma animation_file_size_witness :
  ∃ out, serialize_animation any_float nod [] = inr (tt, out) ∧
         take 4 out = encode_ascii "UANI" ∧
         length out = (4 + 4 + 4 + 4 + (5 + 1 + 4 + 2 * 32))%nat.
Proof.
  destruct (serialize_animation any_float nod []) as [e|[[] out]] eqn:Hrun;
    [vm_compute in Hrun; discriminate Hrun|].
  exists out. split; [reflexivity|].
  exact (animation_file_size any_float any_float_width nod out Hrun).
Defined.
End ModelWriterFacts.
(** ** mesh/decompose.py: the model that the triangle loop builds *)

Module DecomposeFacts.
Import PySeq Decompose.

Lemma candidates_slot settings lookup (t : LoopTriangle) :
  (candidates settings lookup t).1 = tri_material_index t.
Proof. unfold candidates. destruct (loops t) as [[l0 l1] l2]. reflexivity. Qed.

(** Every index that the loop hands out is the position of a stored
    vertex. *)
Lemma triangle_loop_indices (tris : list corner_triangle) :
  let r := triangle_loop tris init_state in
  Forall (λ i, 0 ≤ i < Z.of_nat (length (vertices r.1)))%Z
         (r.2 ≫= indices_of).
Proof.
  intros r. subst r.
  destruct (triangle_loop_dedup tris init_state) as [Hvs Hxs].
  cbn [vertex_map vertices init_state] in Hvs, Hxs.
  destruct (dedup_list (tris ≫= corners_of) (∅, [])) as [vs' xs] eqn:Hrun.
  cbn [fst snd] in Hvs, Hxs.
  destruct (dedup_list_spec _ _ _ _ _ consistent_init Hrun)
    as (_ & Hlen & _ & Hidx).
  rewrite Hxs. apply (f_equal snd) in Hvs. cbn [snd] in Hvs. rewrite Hvs.
  apply Forall_lookup_2. intros i x Hx.
  destruct (lookup_lt_is_Some_2 (tris ≫= corners_of) i) as [c Hc];
    [rewrite <- Hlen; eapply lookup_lt_Some; exact Hx|].
  destruct (Hidx i c x Hc Hx) as (n & v & -> & Hn & _).
  apply lookup_lt_Some in Hn. lia.
Qed.

Lemma stored_elem (m : Z) (tris : list corner_triangle)
    (trace : list triangle) (t : triangle) :
  t ∈ stored m tris trace →
  ∃ a b c, t = (a, c, b) ∧ (a, b, c) ∈ trace.
Proof.
  unfold stored. intros Ht. apply list_elem_of_omap in Ht as ([ct abc] & Hin & Hsome).
  simpl in Hsome. case_bool_decide; [|discriminate].
  destruct abc as [[a b] c]. injection Hsome as <-.
  exists a, b, c. split; [reflexivity|].
  apply list_elem_of_lookup in Hin as [k Hk].
  apply lookup_zip_with_Some in Hk as (? & ? & [= <- <-] & _ & Htr).
  eapply list_elem_of_lookup_2. exact Htr.
Qed.

Lemma stored_length (m : Z) (tris : list corner_triangle) :
  ∀ trace : list triangle, length trace = length tris →
  length (stored m tris trace)
  = length (filter (λ t : corner_triangle, t.1 = m) tris).
Proof.
  induction tris as [|[m0 cs] tris IH]; intros [|[[a b] c] trace] Hlen;
    try discriminate; [reflexivity|].
  rewrite stored_cons, length_app, filter_cons. simpl in Hlen. cbn [fst].
  rewrite (IH trace) by lia.
  case_bool_decide; case_decide; try congruence; reflexivity.
Qed.

(** Counting the elements of a list slot by slot. *)
Lemma count_by_slot {X} (l : list (Z * X)) (slots : list Z) :
  NoDup slots → (∀ p, p ∈ l → p.1 ∈ slots) →
  sum_list ((λ m, length (filter (λ p : Z * X, p.1 = m) l)) <$> slots)
  = length l.
Proof.
  intros Hnd. induction l as [|p l IH]; intros Hin.
  - clear. induction slots as [|m slots IHs]; [reflexivity|].
    rewrite fmap_cons. simpl. exact IHs.
  - assert (Hone : sum_list ((λ m, if decide (p.1 = m) then 1 else 0)%nat
                             <$> slots) = 1%nat).
    { specialize (Hin p ltac:(left)). clear IH.
      induction Hnd as [|m slots Hm Hnd IHs]; [inversion Hin|].
      rewrite fmap_cons. simpl. case_decide as Heq.
      - subst m. f_equal.
        clear IHs Hin. induction slots as [|m' slots IH']; [reflexivity|].
        rewrite fmap_cons. simpl. rewrite decide_False by set_solver.
        apply IH'; [set_solver|inversion Hnd; assumption].
      - apply IHs. set_solver. }
    cbn [length]. rewrite <- IH by (intros q Hq; apply Hin; right; exact Hq).
    transitivity
      (sum_list ((λ m, if decide (p.1 = m) then 1 else 0)%nat <$> slots)
       + sum_list ((λ m, length (filter (λ q : Z * X, q.1 = m) l)) <$> slots))%nat;
      [|rewrite Hone; reflexivity].
    clear. induction slots as [|m slots IHs]; [reflexivity|].
    rewrite !fmap_cons. simpl sum_list. rewrite IHs, filter_cons.
    cbn [fst]. case_decide; simpl; lia.
Qed.

Lemma sorted_distinct (l : list Z) :
  StronglySorted Z.le l → NoDup l → StronglySorted Z.lt l.
Proof.
  induction 1 as [|x l Hl IH Hx]; intros Hnd; constructor.
  - apply IH. inversion Hnd; assumption.
  - apply Forall_forall. intros y Hy. rewrite Forall_forall in Hx.
    specialize (Hx y Hy). inversion Hnd as [|? ? Hnot _]; subst.
    assert (x ≠ y) by (intros ->; contradiction). lia.
Qed.

(** X14. The model that [decompose_mesh] builds from the triangles of a
    mesh: there is one geometry for every material slot that a triangle
    uses, in strictly ascending slot order; each geometry has a single
    LOD level at distance 0 with at least one triangle; every index of
    every triangle is the position of a vertex of the model; and the
    geometries hold as many triangles as the mesh has. *)
Theorem decomposed_model_is_well_formed
    (settings : ExportSettings) (bone_weights_lookup : weight_lookup)
    (mat_names : list (option string)) (mesh_triangles : list LoopTriangle) :
  let model :=
    decompose_triangles settings bone_weights_lookup mat_names mesh_triangles in
  Forall (λ g, ∃ ts,
            lod_levels g = [ {| distance := 0; triangles := ts |} ] ∧
            ts ≠ [] ∧
            Forall (λ t, Forall (λ i, 0 ≤ i < Z.of_nat (length model.1))%Z
                                (indices_of t)) ts) model.2 ∧
  StronglySorted Z.lt (material_index <$> model.2) ∧
  (∀ m, m ∈ material_index <$> model.2
        ↔ m ∈ tri_material_index <$> mesh_triangles) ∧
  sum_list ((λ g, length (lod_levels g ≫= triangles)) <$> model.2)
  = length mesh_triangles.
Proof.
  intros model. subst model. unfold decompose_triangles.
  set (cts := candidates settings bone_weights_lookup <$> mesh_triangles).
  pose proof (triangle_loop_indices cts) as Hvalid.
  pose proof (triangle_loop_length cts init_state) as Hlen.
  pose proof (λ m, triangle_loop_geom cts init_state m) as Hgeom.
  destruct (triangle_loop cts init_state) as [st trace].
  cbn [fst snd] in *. cbn [geom_triangles init_state] in Hgeom.
  assert (Hslots : cts.*1 = tri_material_index <$> mesh_triangles).
  { subst cts. rewrite <- list_fmap_compose. apply list_fmap_ext.
    intros _ t _. apply candidates_slot. }
  assert (Hgt : ∀ m, geom_triangles st !! m
                     = if bool_decide (m ∈ cts.*1)
                       then Some (stored m cts trace) else None).
  { intros m. rewrite Hgeom, lookup_empty. reflexivity. }
  assert (Hdom : ∀ m, m ∈ merge_sort Z.le (elements (dom (geom_triangles st)))
                      ↔ m ∈ cts.*1).
  { intros m. rewrite merge_sort_Permutation, elem_of_elements, elem_of_dom.
    rewrite Hgt.
    case_bool_decide; [split; eauto|split; [intros [? ?]; discriminate|done]]. }
  assert (Hnodup : NoDup (merge_sort Z.le (elements (dom (geom_triangles st))))).
  { rewrite merge_sort_Permutation. apply NoDup_elements. }
  assert (Hidx : material_index <$> build_geometries mat_names (geom_triangles st)
                 = merge_sort Z.le (elements (dom (geom_triangles st)))).
  { unfold build_geometries. rewrite <- list_fmap_compose.
    rewrite <- (list_fmap_id (merge_sort _ _)) at 2.
    apply list_fmap_ext. intros _ m _. reflexivity. }
  rewrite Hidx. unfold build_geometries. split_and!.
  - apply Forall_fmap, Forall_forall. intros m Hm%Hdom. cbn.
    assert (Hst : geom_triangles st !! m = Some (stored m cts trace))
      by (rewrite Hgt, bool_decide_eq_true_2 by exact Hm; reflexivity).
    rewrite (lookup_total_correct _ _ _ Hst).
    eexists. split; [reflexivity|]. split.
    + intros Hnil. apply (f_equal length) in Hnil.
      rewrite stored_length in Hnil by exact Hlen.
      apply list_elem_of_fmap in Hm as (ct & -> & Hct).
      assert (Hin : ct ∈ filter (λ t : corner_triangle, t.1 = ct.1) cts)
        by (apply list_elem_of_filter; auto).
      destruct (filter _ cts); [inversion Hin|discriminate].
    + apply Forall_forall. intros t (a & b & c & -> & Hin)%stored_elem.
      rewrite Forall_forall in Hvalid.
      assert (Hsub : ∀ i, i ∈ indices_of (a, b, c) → i ∈ trace ≫= indices_of).
      { intros i Hi. apply list_elem_of_bind. eauto. }
      simpl in Hsub. repeat constructor; apply Hvalid, Hsub; set_solver.
  - apply sorted_distinct; [|exact Hnodup].
    apply StronglySorted_merge_sort; apply _.
  - intros m. rewrite Hdom, Hslots. reflexivity.
  - rewrite <- list_fmap_compose.
    rewrite <- (length_fmap (candidates settings bone_weights_lookup)).
    fold cts.
    rewrite <- (count_by_slot cts _ Hnodup)
      by (intros p Hp; apply Hdom, list_elem_of_fmap; eauto).
    f_equal. apply Forall_fmap_ext_1, Forall_forall. intros m Hm%Hdom. cbn.
    assert (Hst : geom_triangles st !! m = Some (stored m cts trace))
      by (rewrite Hgt, bool_decide_eq_true_2 by exact Hm; reflexivity).
    rewrite (lookup_total_correct _ _ _ Hst), app_nil_r.
    apply stored_length. exact Hlen.
Qed.


(** *** The bounding box *)

(** [min(xs)] and [max(xs)] keep the first of equal values. *)
Definition qc_min (current item : Qc) : Qc :=
  if bool_decide (item < current)%Qc then item else current.
Definition qc_max (current item : Qc) : Qc :=
  if bool_decide (current < item)%Qc then item else current.

Inductive axis := X_axis | Y_axis | Z_axis.

Definition coord (a : axis) (p : vec3) : Qc :=
  match a with X_axis => p.1.1 | Y_axis => p.1.2 | Z_axis => p.2 end.

(** "Compute bounding box": [(bbox_min, bbox_max)] after the step, from
    the vertices and the box the model had (the dataclass default). *)
Definition bounding_box (vs : list IntermediateVertex) (old : vec3 * vec3)
    : vec3 * vec3 :=
  match vs with
  | [] => old
  | v :: rest =>
      let xs := (λ v, coord X_axis (position v)) <$> rest in
      let ys := (λ v, coord Y_axis (position v)) <$> rest in
      let zs := (λ v, coord Z_axis (position v)) <$> rest in
      let '(x, y, z) := position v in
      ((foldl qc_min x xs, foldl qc_min y ys, foldl qc_min z zs),
       (foldl qc_max x xs, foldl qc_max y ys, foldl qc_max z zs))
  end.

Lemma foldl_qc_min_spec (l : list Qc) : ∀ x : Qc,
  (foldl qc_min x l ≤ x)%Qc ∧ Forall (λ y, foldl qc_min x l ≤ y)%Qc l ∧
  foldl qc_min x l ∈ x :: l.
Proof.
  induction l as [|y l IH]; intros x; simpl.
  - split_and!; [apply Qcle_refl|constructor|left].
  - destruct (IH (qc_min x y)) as (Hle & Hall & Hin).
    assert (Hm : (qc_min x y ≤ x ∧ qc_min x y ≤ y)%Qc
                 ∧ (qc_min x y = x ∨ qc_min x y = y)).
    { unfold qc_min. case_bool_decide as Hlt.
      - split; [split; [apply Qclt_le_weak; exact Hlt|apply Qcle_refl]|auto].
      - split; [split; [apply Qcle_refl|apply Qcnot_lt_le; exact Hlt]|auto]. }
    destruct Hm as [[Hx Hy] Hor]. split_and!.
    + eapply Qcle_trans; eauto.
    + constructor; [eapply Qcle_trans; eauto|exact Hall].
    + apply elem_of_cons in Hin as [Heq|Hin]; [|right; right; exact Hin].
      rewrite Heq. destruct Hor as [->| ->]; [left|right; left].
Qed.

Lemma foldl_qc_max_spec (l : list Qc) : ∀ x : Qc,
  (x ≤ foldl qc_max x l)%Qc ∧ Forall (λ y, y ≤ foldl qc_max x l)%Qc l ∧
  foldl qc_max x l ∈ x :: l.
Proof.
  induction l as [|y l IH]; intros x; simpl.
  - split_and!; [apply Qcle_refl|constructor|left].
  - destruct (IH (qc_max x y)) as (Hle & Hall & Hin).
    assert (Hm : (x ≤ qc_max x y ∧ y ≤ qc_max x y)%Qc
                 ∧ (qc_max x y = x ∨ qc_max x y = y)).
    { unfold qc_max. case_bool_decide as Hlt.
      - split; [split; [apply Qclt_le_weak; exact Hlt|apply Qcle_refl]|auto].
      - split; [split; [apply Qcle_refl|apply Qcnot_lt_le; exact Hlt]|auto]. }
    destruct Hm as [[Hx Hy] Hor]. split_and!.
    + eapply Qcle_trans; eauto.
    + constructor; [eapply Qcle_trans; eauto|exact Hall].
    + apply elem_of_cons in Hin as [Heq|Hin]; [|right; right; exact Hin].
      rewrite Heq. destruct Hor as [->| ->]; [left|right; left].
Qed.

Lemma bounding_box_axis (a : axis) (v : IntermediateVertex)
    (rest : list IntermediateVertex) (old : vec3 * vec3) :
  coord a (bounding_box (v :: rest) old).1
  = foldl qc_min (coord a (position v))
          ((λ v, coord a (position v)) <$> rest) ∧
  coord a (bounding_box (v :: rest) old).2
  = foldl qc_max (coord a (position v))
          ((λ v, coord a (position v)) <$> rest).
Proof.
  unfold bounding_box. destruct (position v) as [[x y] z].
  destruct a; split; reflexivity.
Qed.

(** X15. The bounding box of a model with at least one vertex contains
    every vertex and is tight: on each axis the lower and the upper
    bound are coordinates of vertices of the model. *)
Theorem bounding_box_is_tight
    (vs : list IntermediateVertex) (old : vec3 * vec3) (a : axis) :
  vs ≠ [] →
  let box := bounding_box vs old in
  Forall (λ v, coord a box.1 ≤ coord a (position v)
               ∧ coord a (position v) ≤ coord a box.2)%Qc vs ∧
  (∃ v, v ∈ vs ∧ coord a (position v) = coord a box.1) ∧
  (∃ v, v ∈ vs ∧ coord a (position v) = coord a box.2).
Proof.
  destruct vs as [|v rest]; [contradiction|]. intros _ box. subst box.
  destruct (bounding_box_axis a v rest old) as [-> ->].
  set (cs := (λ v, coord a (position v)) <$> rest).
  destruct (foldl_qc_min_spec cs (coord a (position v)))
    as (Hlo_v & Hlo & Hlo_in).
  destruct (foldl_qc_max_spec cs (coord a (position v)))
    as (Hhi_v & Hhi & Hhi_in).
  assert (Hpick : ∀ c, c ∈ coord a (position v) :: cs →
                       ∃ w, w ∈ v :: rest ∧ coord a (position w) = c).
  { intros c [->|Hc]%elem_of_cons; [exists v; split; [left|reflexivity]|].
    subst cs. apply list_elem_of_fmap in Hc as (w & -> & Hw).
    exists w. split; [right; exact Hw|reflexivity]. }
  split_and!; [|apply Hpick; exact Hlo_in|apply Hpick; exact Hhi_in].
  constructor; [split; assumption|].
  subst cs. rewrite Forall_fmap in Hlo, Hhi.
  rewrite Forall_forall in Hlo, Hhi. apply Forall_forall. intros w Hw.
  split; [apply (Hlo w Hw)|apply (Hhi w Hw)].
Qed.

Lemma bounding_box_without_vertices (old : vec3 * vec3) :
  bounding_box [] old = old.
Proof. reflexivity. Qed.

Definition at_position (x y z : Z) : IntermediateVertex :=
  {| position := (Q2Qc (inject_Z x), Q2Qc (inject_Z y), Q2Qc (inject_Z z));
     normal := None; uv := None; uv2 := None; tangent := None; color := None;
     bone_weights := None; bone_indices := None; blender_index := None |}.

Lemma bounding_box_is_tight_witness :
  let vs := [at_position 1 5 0; at_position (-2) 7 0; at_position 4 6 0] in
  let box := bounding_box vs ((0, 0, 0), (0, 0, 0))%Qc in
  Forall (λ v, coord Y_axis box.1 ≤ coord Y_axis (position v)
               ∧ coord Y_axis (position v) ≤ coord Y_axis box.2)%Qc vs ∧
  (∃ v, v ∈ vs ∧ coord Y_axis (position v) = coord Y_axis box.1) ∧
  (∃ v, v ∈ vs ∧ coord Y_axis (position v) = coord Y_axis box.2).
Proof.
  apply (bounding_box_is_tight
           [at_position 1 5 0; at_position (-2) 7 0; at_position 4 6 0]
           ((0, 0, 0), (0, 0, 0))%Qc Y_axis).
  discriminate.
Defined.

(** *** Handedness *)

Definition sub3 (a b : vec3) : vec3 :=
  let '(a0, a1, a2) := a in
  let '(b0, b1, b2) := b in (a0 - b0, a1 - b1, a2 - b2)%Qc.

Definition cross3 (a b : vec3) : vec3 :=
  let '(a0, a1, a2) := a in
  let '(b0, b1, b2) := b in
  (a1 * b2 - a2 * b1, a2 * b0 - a0 * b2, a0 * b1 - a1 * b0)%Qc.

Definition scaled (k : Qc) (a : vec3) : vec3 :=
  let '(a0, a1, a2) := a in (k * a0, k * a1, k * a2)%Qc.

(** The normal of the plane of a triangle, by the right-hand rule on its
    corner order. *)
Definition face_normal (p0 p1 p2 : vec3) : vec3 :=
  cross3 (sub3 p1 p0) (sub3 p2 p0).

(** X16. Exchanging the second and third corner undoes the change of
    handedness of the axis swap: the face normal of the converted
    positions, taken in the stored corner order [(a, c, b)], is the
    conversion by [_blender_to_urho_normal] of the face normal of the
    Blender triangle [(a, b, c)], scaled by the square of the export
    scale.  Without the exchange it would point the opposite way. *)
Theorem winding_flip_keeps_face_orientation (p0 p1 p2 : vec3) (scale : Qc) :
  let q0 := _blender_to_urho_pos p0 scale in
  let q1 := _blender_to_urho_pos p1 scale in
  let q2 := _blender_to_urho_pos p2 scale in
  let n := _blender_to_urho_normal (face_normal p0 p1 p2) in
  face_normal q0 q2 q1 = scaled (scale * scale) n ∧
  face_normal q0 q1 q2 = scaled (- (scale * scale)) n.
Proof.
  destruct p0 as [[x0 y0] z0], p1 as [[x1 y1] z1], p2 as [[x2 y2] z2].
  cbn. split; repeat f_equal; ring.
Qed.

(** *** Bone indices of the weight table *)

Lemma bone_index_map_spec (bones : list string) (name : string) (i : Z) :
  bone_index_map bones !! name = Some i →
  ∃ k : nat, i = Z.of_nat k ∧ bones !! k = Some name.
Proof.
  unfold bone_index_map. revert i.
  induction bones as [|b bones IH] using rev_ind; intros i.
  - simpl. rewrite lookup_empty. discriminate.
  - rewrite imap_app, foldl_app. cbn [imap foldl fst snd].
    rewrite Nat.add_0_r.
    destruct (decide (b = name)) as [->|Hne].
    + rewrite lookup_insert_eq. intros [= <-].
      exists (length bones). split; [reflexivity|].
      rewrite lookup_app_r, Nat.sub_diag by lia. reflexivity.
    + rewrite lookup_insert_ne by exact Hne. intros (k & -> & Hk)%IH.
      exists k. split; [reflexivity|].
      rewrite lookup_app_l by (eapply lookup_lt_Some; exact Hk). exact Hk.
Qed.

Lemma group_to_bone_spec (bones : list string) (vgs : list VertexGroup)
    (g b : Z) :
  group_to_bone bones vgs !! g = Some b →
  ∃ (vg : VertexGroup) (k : nat),
    vg ∈ vgs ∧ vg_index vg = g ∧ b = Z.of_nat k ∧
    bones !! k = Some (vg_name vg).
Proof.
  unfold group_to_bone. revert b.
  induction vgs as [|vg vgs IH] using rev_ind; intros b.
  - simpl. rewrite lookup_empty. discriminate.
  - rewrite foldl_app. cbn [foldl].
    assert (Hold : (∃ (vg0 : VertexGroup) (k : nat),
                      vg0 ∈ vgs ∧ vg_index vg0 = g ∧ b = Z.of_nat k ∧
                      bones !! k = Some (vg_name vg0)) →
                   ∃ (vg0 : VertexGroup) (k : nat),
                     vg0 ∈ vgs ++ [vg] ∧ vg_index vg0 = g ∧ b = Z.of_nat k ∧
                     bones !! k = Some (vg_name vg0)).
    { intros (vg0 & k & Hin & Hrest). exists vg0, k.
      split; [apply elem_of_app; left; exact Hin|exact Hrest]. }
    destruct (bone_index_map bones !! vg_name vg) as [i|] eqn:Hi;
      [|intros Hl; apply Hold, IH, Hl].
    destruct (decide (vg_index vg = g)) as [Hg|Hne].
    + rewrite Hg, lookup_insert_eq. intros [= <-].
      destruct (bone_index_map_spec _ _ _ Hi) as (k & -> & Hk).
      exists vg, k. split; [apply elem_of_app; right; left|auto].
    + rewrite lookup_insert_ne by exact Hne.
      intros Hl. apply Hold, IH, Hl.
Qed.

Lemma collect_weights_elem (g2b : gmap Z Z) (gs : list GroupElement)
    (w : Qc) (b : Z) :
  (w, b) ∈ collect_weights g2b gs →
  ∃ g, g ∈ gs ∧ g2b !! group g = Some b ∧ w = weight g.
Proof.
  unfold collect_weights. intros (g & Hg & Hsome)%list_elem_of_omap.
  destruct (g2b !! group g) as [b'|] eqn:Hb; [|discriminate].
  case_bool_decide; [|discriminate]. injection Hsome as <- <-.
  exists g. auto.
Qed.

(** The indices of an entry are those of the collected pairs, or the
    padding zero next to a zero weight. *)
Lemma vertex_entry_indices (pairs : list (Qc * Z)) (j : nat) (w : Qc) (i : Z) :
  Forall (λ p, 0 < p.1)%Qc pairs →
  (vertex_entry pairs).1 !! j = Some w →
  (vertex_entry pairs).2 !! j = Some i →
  (w = 0%Qc ∧ i = 0%Z) ∨ (∃ w', (w', i) ∈ pairs).
Proof.
  intros Hpos. unfold vertex_entry, pad, MAX_BONES.
  set (kept := normalize (take 4 (sort_desc pairs))).
  cbn [fst snd]. rewrite !fmap_app, !fmap_replicate. cbn [fst snd].
  intros Hw Hi.
  destruct (decide (j < length kept)%nat) as [Hj|Hj].
  - right. rewrite lookup_app_l in Hi by (rewrite length_fmap; exact Hj).
    rewrite list_lookup_fmap in Hi.
    destruct (kept !! j) as [[w1 i1]|] eqn:Hk; [|discriminate].
    injection Hi as <-.
    assert (Hin : ∃ w', (w', i1) ∈ take 4 (sort_desc pairs)).
    { apply list_elem_of_lookup_2 in Hk. subst kept. unfold normalize in Hk.
      case_bool_decide; [|eauto].
      apply list_elem_of_fmap in Hk as ([w2 i2] & [= -> ->] & Hin). eauto. }
    destruct Hin as (w' & Hin). exists w'.
    rewrite <- (sort_desc_perm pairs).
    exact (subseteq_take 4 _ _ Hin).
  - left. rewrite lookup_app_r in Hw by (rewrite length_fmap; lia).
    rewrite lookup_app_r in Hi by (rewrite length_fmap; lia).
    apply lookup_replicate in Hw as [-> _].
    apply lookup_replicate in Hi as [-> _]. auto.
Qed.

Lemma build_bone_weights_entry (bones : list string)
    (vertex_groups : list VertexGroup) (mesh_vertices : list MeshVertex)
    (idx : Z) (entry : list Qc * list Z) :
  _build_bone_weights (Some bones) vertex_groups mesh_vertices !! idx
  = Some entry →
  ∃ vert, vert ∈ mesh_vertices ∧ mv_index vert = idx ∧
    collect_weights (group_to_bone bones vertex_groups) (groups vert) ≠ [] ∧
    entry = vertex_entry
              (collect_weights (group_to_bone bones vertex_groups)
                               (groups vert)).
Proof.
  unfold _build_bone_weights.
  set (g2b := group_to_bone bones vertex_groups).
  induction mesh_vertices as [|vert vs IH] using rev_ind.
  - simpl. rewrite lookup_empty. discriminate.
  - rewrite foldl_app. cbn [foldl].
    assert (Hold : (∃ v, v ∈ vs ∧ mv_index v = idx ∧
                         collect_weights g2b (groups v) ≠ [] ∧
                         entry = vertex_entry (collect_weights g2b (groups v))) →
                   ∃ v, v ∈ vs ++ [vert] ∧ mv_index v = idx ∧
                        collect_weights g2b (groups v) ≠ [] ∧
                        entry = vertex_entry (collect_weights g2b (groups v))).
    { intros (v & Hin & Hrest). exists v.
      split; [apply elem_of_app; left; exact Hin|exact Hrest]. }
    destruct (collect_weights g2b (groups vert)) as [|p ps] eqn:Hws;
      [intros Hl; apply Hold, IH, Hl|].
    destruct (decide (mv_index vert = idx)) as [Heq|Hne].
    + rewrite Heq, lookup_insert_eq. intros [= <-].
      exists vert. rewrite Hws.
      split; [apply elem_of_app; right; left|].
      split; [exact Heq|]. split; [discriminate|reflexivity].
    + rewrite lookup_insert_ne by exact Hne.
      intros Hl. apply Hold, IH, Hl.
Qed.

(** X17. Every bone index that [_build_bone_weights] stores for a vertex
    is a position in the armature's bone list; and next to a weight that
    is not zero it is the position of a bone that bears the name of a
    vertex group of the mesh to which that vertex is assigned. *)
Theorem bone_indices_name_armature_bones
    (bones : list string) (vertex_groups : list VertexGroup)
    (mesh_vertices : list MeshVertex)
    (idx : Z) (ws : list Qc) (ixs : list Z) (j : nat) (w : Qc) (i : Z) :
  _build_bone_weights (Some bones) vertex_groups mesh_vertices !! idx
  = Some (ws, ixs) →
  ws !! j = Some w → ixs !! j = Some i →
  (0 ≤ i < Z.of_nat (length bones))%Z ∧
  (w ≠ 0%Qc →
   ∃ (vg : VertexGroup) (vert : MeshVertex) (g : GroupElement),
     vg ∈ vertex_groups ∧ vert ∈ mesh_vertices ∧ mv_index vert = idx ∧
     g ∈ groups vert ∧ group g = vg_index vg ∧
     bones !! Z.to_nat i = Some (vg_name vg)).
Proof.
  intros Hentry Hw Hi.
  destruct (build_bone_weights_entry _ _ _ _ _ Hentry)
    as (vert & Hvert & Hidx & Hne & Heq).
  set (pairs := collect_weights (group_to_bone bones vertex_groups)
                                (groups vert)) in *.
  assert (Hpos : Forall (λ p, 0 < p.1)%Qc pairs)
    by apply collect_weights_positive.
  assert (Hbone : ∀ w' i', (w', i') ∈ pairs →
            ∃ (vg : VertexGroup) (g : GroupElement) (k : nat),
              vg ∈ vertex_groups ∧ g ∈ groups vert ∧ group g = vg_index vg ∧
              i' = Z.of_nat k ∧ bones !! k = Some (vg_name vg)).
  { intros w' i' (g & Hg & Hb & _)%collect_weights_elem.
    destruct (group_to_bone_spec _ _ _ _ Hb) as (vg & k & Hvg & Hgi & -> & Hk).
    exists vg, g, k. auto 6. }
  assert (Hsome : ∃ p, p ∈ pairs)
    by (destruct pairs as [|p ps]; [contradiction|exists p; left]).
  assert (Hnonempty : (0 < length bones)%nat).
  { destruct Hsome as ([w' i'] & Hp).
    destruct (Hbone _ _ Hp) as (vg & g & k & _ & _ & _ & _ & Hk).
    apply lookup_lt_Some in Hk. lia. }
  injection Heq as -> ->.
  destruct (vertex_entry_indices pairs j w i Hpos Hw Hi)
    as [[-> ->]|(w' & Hp)].
  - split; [lia|]. intros Hzero. contradiction.
  - destruct (Hbone _ _ Hp) as (vg & g & k & Hvg & Hg & Hgi & -> & Hk).
    split; [apply lookup_lt_Some in Hk; lia|]. intros _.
    exists vg, vert, g. rewrite Nat2Z.id.
    split_and!; assumption.
Qed.

(** The theorem at the second pair of vertex 7 of [ex_weighted]. *)
Lemma bone_indices_name_armature_bones_witness :
  ∃ ws ixs w i,
    _build_bone_weights (Some ex_bones) ex_groups ex_weighted !! 7%Z
      = Some (ws, ixs) ∧
    ws !! 1%nat = Some w ∧ ixs !! 1%nat = Some i ∧
    (0 ≤ i < Z.of_nat (length ex_bones))%Z.
Proof.
  destruct (_build_bone_weights (Some ex_bones) ex_groups ex_weighted !! 7%Z)
    as [[ws ixs]|] eqn:He; [|vm_compute in He; discriminate He].
  destruct ws as [|w0 [|w ws]]; [vm_compute in He; discriminate He..|].
  destruct ixs as [|i0 [|i ixs]]; [vm_compute in He; discriminate He..|].
  exists (w0 :: w :: ws), (i0 :: i :: ixs), w, i.
  split; [reflexivity|]. split; [reflexivity|]. split; [reflexivity|].
  exact (proj1 (bone_indices_name_armature_bones
                  ex_bones ex_groups ex_weighted 7%Z
                  (w0 :: w :: ws) (i0 :: i :: ixs) 1%nat w i
                  He eq_refl eq_refl)).
Defined.

(** *** Vertex colours *)

(** [n] is the byte nearest to [255 * c], with [c] cut to [0, 1]. *)
Definition nearest_byte (c : Qc) (n : Z) : Prop :=
  (0 ≤ n ≤ 255)%Z ∧
  ((c <= 0)%Q → n = 0%Z) ∧
  ((1 <= c)%Q → n = 255%Z) ∧
  ((0 <= c)%Q → (c <= 1)%Q →
   (c * 255 - (1 # 2) < inject_Z n)%Q ∧ (inject_Z n <= c * 255 + (1 # 2))%Q).

Lemma quot_floor (q : Q) :
  let z := Z.quot (Qnum q) (Z.pos (Qden q)) in
  ((q < 0)%Q ∧ (z ≤ 0)%Z) ∨ ((0 <= q)%Q ∧ z = Qround.Qfloor q).
Proof.
  destruct q as [a b]. cbn [Qnum Qden Qround.Qfloor].
  destruct (Z_lt_le_dec a 0) as [Hneg|Hpos].
  - left. split; [unfold Qlt; simpl; lia|].
    pose proof (Z.quot_pos (- a) (Z.pos b)) as Hq.
    rewrite Z.quot_opp_l in Hq by lia. lia.
  - right. split; [unfold Qle; simpl; lia|].
    apply Z.quot_div_nonneg; lia.
Qed.

Lemma to_ubyte_nearest (c : Qc) : nearest_byte c (to_ubyte c).
Proof.
  unfold to_ubyte, nearest_byte.
  set (q := (c * Q2Qc 255 + Q2Qc (1 # 2))%Qc).
  assert (Hq : (q == c * 255 + (1 # 2))%Q).
  { subst q. unfold Qcplus, Qcmult, Q2Qc. cbn [this].
    rewrite !Qred_correct. reflexivity. }
  pose proof (Qround.Qfloor_le q) as Hlo.
  pose proof (Qround.Qlt_floor q) as Hhi.
  destruct (quot_floor q) as [[Hneg Hz]|[Hpos Hz]]; cbv zeta in Hz.
  - rewrite Z.max_l by lia.
    split; [lia|]. split; [reflexivity|].
    split; [intros Hc; exfalso; Lqa.lra|].
    intros Hc _. exfalso. Lqa.lra.
  - rewrite Hz. set (z := Qround.Qfloor q) in *.
    assert (H0 : (0 < z + 1)%Z).
    { rewrite Zlt_Qlt. change (inject_Z 0) with 0%Q. Lqa.lra. }
    split; [lia|]. split; [|split].
    + intros Hc.
      assert (z < 1)%Z; [|lia].
      rewrite Zlt_Qlt. change (inject_Z 1) with 1%Q. Lqa.lra.
    + intros Hc.
      assert (255 < z + 1)%Z; [|lia].
      rewrite Zlt_Qlt. change (inject_Z 255) with 255%Q. Lqa.lra.
    + intros Hc0 Hc1.
      assert (Hz1 : (z ≤ 255)%Z).
      { assert (z < 256)%Z; [|lia].
        rewrite Zlt_Qlt. change (inject_Z 256) with 256%Q. Lqa.lra. }
      rewrite Z.min_r, Z.max_r by lia.
      rewrite inject_Z_plus in Hhi. change (inject_Z 1) with 1%Q in Hhi.
      split; Lqa.lra.
Qed.

(** X18. [_color_to_ubyte4] turns each channel into the byte nearest to
    255 times its value: a channel at or below 0 gives 0, one at or above
    1 gives 255, one in between gives an integer within one half of
    [255 * c]; a colour without alpha gets alpha 255. *)
Theorem color_channels_round_to_nearest_byte (r g b : Qc) (a : option Qc) :
  let '(r', g', b', a') := _color_to_ubyte4 (r, g, b, a) in
  nearest_byte r r' ∧ nearest_byte g g' ∧ nearest_byte b b' ∧
  match a with Some x => nearest_byte x a' | None => a' = 255%Z end.
Proof.
  cbn [_color_to_ubyte4].
  split_and!; try apply to_ubyte_nearest.
  destruct a; [apply to_ubyte_nearest|reflexivity].
Qed.

(** A byte written as [k / 255] comes back as [k]. *)
Lemma to_ubyte_of_byte (k : Z) :
  (0 ≤ k ≤ 255)%Z → to_ubyte (Q2Qc (k # 255)) = k.
Proof.
  intros Hk. destruct (to_ubyte_nearest (Q2Qc (k # 255))) as (_ & _ & _ & Hn).
  assert (Hc : (Q2Qc (k # 255) == k # 255)%Q) by apply Qred_correct.
  assert (Hk' : ((k # 255) * 255 == inject_Z k)%Q).
  { unfold Qeq, Qmult, inject_Z. simpl. lia. }
  assert (H0 : (inject_Z 0 <= inject_Z k)%Q) by (rewrite <- Zle_Qle; lia).
  assert (H1 : (inject_Z k <= inject_Z 255)%Q) by (rewrite <- Zle_Qle; lia).
  change (inject_Z 0) with 0%Q in H0. change (inject_Z 255) with 255%Q in H1.
  destruct Hn as [Hlo Hhi]; [rewrite Hc; Lqa.lra..|].
  rewrite Hc in Hlo, Hhi.
  set (n := to_ubyte (Q2Qc (k # 255))) in *.
  assert (k < n + 1)%Z.
  { rewrite Zlt_Qlt, inject_Z_plus. change (inject_Z 1) with 1%Q. Lqa.lra. }
  assert (n < k + 1)%Z; [|lia].
  rewrite Zlt_Qlt, inject_Z_plus. change (inject_Z 1) with 1%Q. Lqa.lra.
Qed.

(** X19. A colour whose channels are bytes divided by 255 is converted
    back to exactly those bytes. *)
Theorem byte_colour_round_trip (r g b a : Z) :
  (0 ≤ r ≤ 255)%Z → (0 ≤ g ≤ 255)%Z → (0 ≤ b ≤ 255)%Z → (0 ≤ a ≤ 255)%Z →
  _color_to_ubyte4
    (Q2Qc (r # 255), Q2Qc (g # 255), Q2Qc (b # 255), Some (Q2Qc (a # 255)))
  = (r, g, b, a).
Proof.
  intros Hr Hg Hb Ha. cbn [_color_to_ubyte4].
  rewrite !to_ubyte_of_byte by assumption. reflexivity.
Qed.

Lemma byte_colour_round_trip_witness :
  _color_to_ubyte4
    (Q2Qc (255 # 255), Q2Qc (128 # 255), Q2Qc (0 # 255), Some (Q2Qc (64 # 255)))
  = (255, 128, 0, 64)%Z.
Proof. apply byte_colour_round_trip; lia. Defined.
End DecomposeFacts.

(** ** mesh/tangents.py: the per-triangle directions and the failures *)

Module TangentsFacts.
Import PySeq Tangents.

Local Open Scope R_scope.

Definition sub3 (a b : R3) : R3 :=
  let '(a0, a1, a2) := a in
  let '(b0, b1, b2) := b in
  (a0 - b0, a1 - b1, a2 - b2).

Definition scale3 (k : R) (a : R3) : R3 :=
  let '(a0, a1, a2) := a in (k * a0, k * a1, k * a2).

(** X20. For a triangle whose UV determinant is not zero, the directions
    [S] and [T] that [generate_tangents] computes solve Lengyel's
    equations: each edge of the triangle is its UV edge's [u] difference
    times [S] plus its [v] difference times [T]. *)
Theorem directions_solve_edge_equations (p0 p1 p2 : R3) (uv0 uv1 uv2 : R2) :
  uv_det uv0 uv1 uv2 ≠ 0 →
  let '(s, t) := directions p0 p1 p2 uv0 uv1 uv2 in
  sub3 p1 p0 = add3 (scale3 (uv1.1 - uv0.1) s) (scale3 (uv1.2 - uv0.2) t) ∧
  sub3 p2 p0 = add3 (scale3 (uv2.1 - uv0.1) s) (scale3 (uv2.2 - uv0.2) t).
Proof.
  destruct p0 as [[x0 y0] z0], p1 as [[x1 y1] z1], p2 as [[x2 y2] z2].
  destruct uv0 as [u0 v0], uv1 as [u1 v1], uv2 as [u2 v2].
  unfold uv_det, directions, uv_det, sub3, add3, scale3. cbn [fst snd].
  intros Hdet. split; repeat f_equal; field; exact Hdet.
Qed.

Lemma directions_solve_edge_equations_witness :
  let '(s, t) :=
    directions (0, 0, 0) (2, 0, 0) (0, 3, 0) (0, 0) (1, 0) (0, 1) in
  sub3 (2, 0, 0) (0, 0, 0) = add3 (scale3 ((1, 0).1 - (0, 0).1) s)
                                  (scale3 ((1, 0).2 - (0, 0).2) t) ∧
  sub3 (0, 3, 0) (0, 0, 0) = add3 (scale3 ((0, 1).1 - (0, 0).1) s)
                                  (scale3 ((0, 1).2 - (0, 0).2) t).
Proof.
  apply (directions_solve_edge_equations
           (0, 0, 0) (2, 0, 0) (0, 3, 0) (0, 0) (1, 0) (0, 1)).
  unfold uv_det. simpl. lra.
Defined.

(** *** When the accumulation raises *)

(** The three corners of [tri] index vertices that have a UV. *)
Definition usable (vs : list IntermediateVertex) (tri : Z * Z * Z) : Prop :=
  Forall (λ i, is_Some (v ← py_index vs i; uv v)) [tri.1.1; tri.1.2; tri.2].

#[local] Instance usable_dec vs tri : Decision (usable vs tri).
Proof. unfold usable. apply _. Defined.

Lemma py_index_Some_valid {A} (l : list A) (i : Z) (x : A) :
  py_index l i = Some x → valid_index (length l) i.
Proof.
  unfold py_index, valid_index.
  destruct (0 <=? i)%Z eqn:H0.
  - intros Hl%lookup_lt_Some. lia.
  - destruct (0 <=? Z.of_nat (length l) + i)%Z eqn:H1; [|discriminate].
    intros _. lia.
Qed.

Lemma usable_corner vs i :
  is_Some (v ← py_index vs i; uv v) →
  ∃ v a, py_index vs i = Some v ∧ uv v = Some a.
Proof.
  destruct (py_index vs i) as [v|]; simpl; intros [a Ha];
    [eauto|discriminate].
Qed.

Lemma accumulate_triangle_usable vs (acc : list R3 * list R3) tri :
  length acc.1 = length vs → length acc.2 = length vs →
  usable vs tri →
  ∃ acc', accumulate_triangle vs acc tri = Some acc'
          ∧ length acc'.1 = length vs ∧ length acc'.2 = length vs.
Proof.
  intros H1 H2 Hu. destruct tri as [[i0 i1] i2]. unfold usable in Hu.
  cbn [fst snd] in Hu.
  apply Forall_cons in Hu as [(v0 & a0 & Hv0 & Ha0)%usable_corner Hu].
  apply Forall_cons in Hu as [(v1 & a1 & Hv1 & Ha1)%usable_corner Hu].
  apply Forall_cons in Hu as [(v2 & a2 & Hv2 & Ha2)%usable_corner _].
  unfold accumulate_triangle. rewrite Hv0, Hv1, Hv2. simpl.
  rewrite Ha0, Ha1, Ha2. simpl.
  destruct (Rlt_dec _ _); [eauto|].
  destruct (directions _ _ _ _ _ _) as [s t].
  destruct (accumulate_corner_total s t acc i0 _ H1 H2
              (py_index_Some_valid _ _ _ Hv0)) as (acc0 & -> & H01 & H02).
  simpl.
  destruct (accumulate_corner_total s t acc0 i1 _ H01 H02
              (py_index_Some_valid _ _ _ Hv1)) as (acc1 & -> & H11 & H12).
  simpl.
  apply (accumulate_corner_total s t acc1 i2 _ H11 H12
           (py_index_Some_valid _ _ _ Hv2)).
Qed.

Lemma accumulate_triangle_unusable vs (acc : list R3 * list R3) tri :
  ¬ usable vs tri → accumulate_triangle vs acc tri = None.
Proof.
  intros Hu. destruct tri as [[i0 i1] i2]. unfold accumulate_triangle.
  destruct (py_index vs i0) as [v0|] eqn:Hv0; [|reflexivity].
  destruct (py_index vs i1) as [v1|] eqn:Hv1; [|reflexivity].
  destruct (py_index vs i2) as [v2|] eqn:Hv2; [|reflexivity].
  simpl.
  destruct (uv v0) as [a0|] eqn:Ha0; [|reflexivity].
  destruct (uv v1) as [a1|] eqn:Ha1; [|reflexivity].
  destruct (uv v2) as [a2|] eqn:Ha2; [|reflexivity].
  exfalso. apply Hu. unfold usable. cbn [fst snd].
  rewrite !Forall_cons, Hv0, Hv1, Hv2. simpl. rewrite Ha0, Ha1, Ha2.
  eauto using Forall_nil_2.
Qed.

Lemma accumulate_fails_iff vs tris : ∀ acc : list R3 * list R3,
  length acc.1 = length vs → length acc.2 = length vs →
  accumulate vs tris acc = None ↔ Exists (λ tri, ¬ usable vs tri) tris.
Proof.
  induction tris as [|tri tris IH]; intros acc H1 H2; cbn [accumulate].
  - rewrite Exists_nil. split; [discriminate|contradiction].
  - rewrite Exists_cons.
    destruct (decide (usable vs tri)) as [Hu|Hu].
    + destruct (accumulate_triangle_usable vs acc tri H1 H2 Hu)
        as (acc1 & -> & H11 & H12). simpl.
      rewrite (IH acc1 H11 H12). tauto.
    + rewrite (accumulate_triangle_unusable vs acc tri Hu). simpl. tauto.
Qed.

(** X21. For a model whose first vertex has a normal and a UV,
    [generate_tangents] raises exactly when some triangle of some LOD of
    some geometry has a corner index outside the vertex list or a corner
    vertex without a UV. *)
Theorem generate_tangents_raises_iff_unusable_triangle
    (m : IntermediateModel) (v0 : IntermediateVertex) :
  head (vertices m) = Some v0 → is_Some (normal v0) → is_Some (uv v0) →
  generate_tangents m = None ↔
  ∃ geom lod tri,
    geom ∈ geometries m ∧ lod ∈ lod_levels geom ∧ tri ∈ triangles lod ∧
    ¬ usable (vertices m) tri.
Proof.
  intros Hhead [n0 Hn] [a0 Ha]. unfold generate_tangents.
  destruct (vertices m) as [|v vs] eqn:Hvs; [discriminate|].
  injection Hhead as ->. rewrite Hn, Ha. rewrite <- Hvs.
  set (zeros := replicate (length (vertices m)) zero3).
  pose proof (accumulate_fails_iff (vertices m) (all_triangles m)
                (zeros, zeros)) as Hiff.
  cbn [fst snd] in Hiff. subst zeros. rewrite !length_replicate in Hiff.
  specialize (Hiff eq_refl eq_refl).
  destruct (accumulate _ _ _) as [acc|] eqn:Hacc; simpl.
  - split; [discriminate|]. intros (geom & lod & tri & Hg & Hl & Ht & Hu).
    enough (Some acc = None) by discriminate.
    apply Hiff. apply Exists_exists. exists tri. split; [|exact Hu].
    unfold all_triangles. apply list_elem_of_bind. exists geom.
    split; [|exact Hg]. apply list_elem_of_bind. exists lod. auto.
  - split; [|reflexivity]. intros _.
    pose proof (proj1 Hiff eq_refl) as Hex.
    apply Exists_exists in Hex as (tri & Hin & Hu).
    unfold all_triangles in Hin.
    apply list_elem_of_bind in Hin as (geom & Hin & Hg).
    apply list_elem_of_bind in Hin as (lod & Ht & Hl).
    exists geom, lod, tri. auto.
Qed.

(** A triangle that names vertex 5 of a three-vertex model. *)
Definition stray_index_model : IntermediateModel :=
  {| vertices := vertices long_normal_model;
     geometries :=
       [ {| lod_levels := [ {| triangles := [(0, 1, 5)%Z] |} ] |} ] |}.

Lemma generate_tangents_raises_iff_unusable_triangle_witness :
  generate_tangents stray_index_model = None.
Proof.
  apply (generate_tangents_raises_iff_unusable_triangle stray_index_model
           (bare (0, 0, 0) (Some (1, 1, 0)) (0, 0)) eq_refl);
    [eexists; reflexivity..|].
  eexists _, _, (0, 1, 5)%Z.
  split; [left|]. split; [left|]. split; [left|].
  unfold usable. rewrite !Forall_cons. intros (_ & _ & [x Hx] & _).
  discriminate Hx.
Defined.

(** *** Meshes without a UV layout *)

(** The corners of [tri] index vertices with UVs whose determinant is
    below [1e-8] in absolute value. *)
Definition flat_uv (vs : list IntermediateVertex) (tri : Z * Z * Z) : Prop :=
  ∃ v0 v1 v2 a0 a1 a2,
    py_index vs tri.1.1 = Some v0 ∧ py_index vs tri.1.2 = Some v1 ∧
    py_index vs tri.2 = Some v2 ∧
    uv v0 = Some a0 ∧ uv v1 = Some a1 ∧ uv v2 = Some a2 ∧
    Rabs (uv_det a0 a1 a2) < tiny.

Definition fallback (v : IntermediateVertex) : IntermediateVertex :=
  match normal v with
  | Some _ => set_tangent v (0, 0, 0, 1)
  | None => v
  end.

Lemma accumulate_flat vs tris (acc : list R3 * list R3) :
  Forall (flat_uv vs) tris → accumulate vs tris acc = Some acc.
Proof.
  induction 1 as [|tri tris Hflat _ IH]; cbn [accumulate]; [reflexivity|].
  destruct tri as [[i0 i1] i2].
  destruct Hflat as (v0 & v1 & v2 & a0 & a1 & a2
                     & Hv0 & Hv1 & Hv2 & Ha0 & Ha1 & Ha2 & Hdet).
  cbn [fst snd] in Hv0, Hv1, Hv2.
  rewrite (degenerate_triangle_contributes_nothing
             vs acc i0 i1 i2 v0 v1 v2 a0 a1 a2) by assumption.
  exact IH.
Qed.

Lemma finalize_nothing_accumulated (v : IntermediateVertex) (b : R3) :
  finalize v zero3 b = fallback v.
Proof.
  unfold finalize, fallback. destruct (normal v) as [[[n0 n1] n2]|];
    [|reflexivity].
  unfold zero3, gram_schmidt, norm.
  replace (_ + _ + _) with 0 by ring. rewrite sqrt_0.
  destruct (Rlt_dec 0 tiny) as [_|Hge]; [reflexivity|].
  exfalso. apply Hge, tiny_pos.
Qed.

(** X22. For a model whose first vertex has a normal and a UV and whose
    triangles, if any, all have a UV determinant below [1e-8] in absolute
    value, [generate_tangents] gives every vertex with a normal the
    tangent [(0, 0, 0, 1)] and changes nothing else. *)
Theorem flat_uv_gives_fallback_tangents
    (m : IntermediateModel) (v0 : IntermediateVertex) :
  head (vertices m) = Some v0 → is_Some (normal v0) → is_Some (uv v0) →
  Forall (flat_uv (vertices m)) (all_triangles m) →
  generate_tangents m
  = Some {| vertices := fallback <$> vertices m;
            geometries := geometries m |}.
Proof.
  intros Hhead [n0 Hn] [a0 Ha] Hflat. unfold generate_tangents.
  destruct (vertices m) as [|v vs] eqn:Hvs; [discriminate|].
  injection Hhead as ->. rewrite Hn, Ha. rewrite <- Hvs in Hflat |- *.
  rewrite accumulate_flat by exact Hflat. cbn [mbind option_bind fst snd].
  f_equal. f_equal. apply list_eq. intros i.
  rewrite list_lookup_imap, list_lookup_fmap.
  destruct (vertices m !! i) as [vi|] eqn:Hi; [|reflexivity].
  cbn [fmap option_fmap option_map]. f_equal.
  rewrite lookup_replicate_2 by (eapply lookup_lt_Some; exact Hi).
  apply finalize_nothing_accumulated.
Qed.

(** Three vertices that share one UV. *)
Definition pinched : IntermediateModel :=
  {| vertices := [ bare (0, 0, 0) (Some (0, 0, 1)) (0, 0);
                   bare (1, 0, 0) (Some (0, 0, 1)) (0, 0);
                   bare (0, 1, 0) None (0, 0) ];
     geometries := [ {| lod_levels := [ {| triangles := [(0, 1, 2)%Z] |} ] |} ] |}.

Lemma flat_uv_gives_fallback_tangents_witness :
  generate_tangents pinched
  = Some {| vertices := fallback <$> vertices pinched;
            geometries := geometries pinched |}.
Proof.
  apply (flat_uv_gives_fallback_tangents pinched
           (bare (0, 0, 0) (Some (0, 0, 1)) (0, 0)) eq_refl);
    [eexists; reflexivity..|].
  repeat constructor.
  eexists _, _, _, _, _, _.
  split_and!; try reflexivity.
  unfold uv_det. cbn [fst snd].
  replace (_ - _) with 0 by ring. rewrite Rabs_R0. apply tiny_pos.
Defined.
End TangentsFacts.

(** ** mesh/optimize.py: the optimizer applied to a model *)

Module OptimizeFacts.
Import PySeq Decompose Formats.

Section Model.

Variable fl : Optimize.float_ops.
Variable set_order : list Z → list Z.

(** The body of [for lod in geom.lod_levels]: an empty triangle list is
    left alone. *)
Definition optimize_lod (vertex_count : Z) (lod : IntermediateLodLevel)
    : option IntermediateLodLevel :=
  match triangles lod with
  | [] => Some lod
  | _ :: _ =>
      ts ← Optimize.optimize_triangles fl set_order (triangles lod)
             vertex_count;
      Some {| distance := distance lod; triangles := ts |}
  end.

Definition optimize_geometry (vertex_count : Z) (geom : IntermediateGeometry)
    : option IntermediateGeometry :=
  lods ← mapM (optimize_lod vertex_count) (lod_levels geom);
  Some {| material_name := material_name geom;
          material_index := material_index geom;
          lod_levels := lods |}.

(** [optimize_model_indices(model)]: the model it leaves, or [None] when
    it raises. *)
Definition optimize_model_indices (model : IntermediateModel)
    : option IntermediateModel :=
  let vertex_count := Z.of_nat (length (model_vertices model)) in
  geoms ← mapM (optimize_geometry vertex_count) (geometries model);
  Some {| name := name model;
          model_vertices := model_vertices model;
          geometries := geoms;
          morphs := morphs model;
          bones := bones model;
          bbox_min := bbox_min model;
          bbox_max := bbox_max model |}.

(** Two LOD levels, and two geometries, that differ in the order of
    their triangles only. *)
Definition same_lod (lod lod' : IntermediateLodLevel) : Prop :=
  distance lod' = distance lod ∧ triangles lod' ≡ₚ triangles lod.

Definition same_geometry (geom geom' : IntermediateGeometry) : Prop :=
  material_name geom' = material_name geom ∧
  material_index geom' = material_index geom ∧
  Forall2 same_lod (lod_levels geom) (lod_levels geom').

Hypothesis set_order_elements : ∀ l x, x ∈ set_order l ↔ x ∈ l.
Hypothesis live_score_above_start : ∀ l : list (Optimize.float fl),
  (length l ≤ 3)%nat → Forall (Optimize.live fl) l →
  Optimize.gt fl (Optimize.fsum fl l) (Optimize.lit fl (-2)) = true.

Lemma optimize_triangles_permutes (ts : list triangle) (vertex_count : Z) :
  ∃ out, Optimize.optimize_triangles fl set_order ts vertex_count = Some out
         ∧ out ≡ₚ ts
         ∧ ((vertex_count ≤ Optimize.CACHE_SIZE)%Z → out = ts).
Proof.
  unfold Optimize.optimize_triangles.
  destruct ((Optimize.tri_count ts <=? 1)%Z
            || (vertex_count <=? Optimize.CACHE_SIZE)%Z) eqn:Hsmall.
  - exists ts. split_and!; reflexivity || auto.
  - apply orb_false_iff in Hsmall as [Hcount Hverts].
    unfold Optimize.tri_count in *.
    destruct (Optimize.initial_spec fl ts vertex_count)
      as (st & -> & HI & Hnone); [lia|]. cbn.
    destruct (Optimize.loop_spec fl set_order ts vertex_count
                set_order_elements live_score_above_start
                (length ts) st HI)
      as (st' & -> & HI' & Hall); [lia|]. cbn.
    exists (Optimize.result fl st'). split; [reflexivity|]. split; [|lia].
    rewrite (Optimize.result_ok fl ts vertex_count st' HI').
    rewrite (Optimize.taken_all ts (Optimize.emitted fl st')
               (Optimize.len_emitted fl ts vertex_count st' HI') Hall).
    reflexivity.
Qed.

Lemma optimize_lod_spec (vertex_count : Z) (lod : IntermediateLodLevel) :
  ∃ lod', optimize_lod vertex_count lod = Some lod' ∧ same_lod lod lod'
          ∧ ((vertex_count ≤ Optimize.CACHE_SIZE)%Z → lod' = lod).
Proof.
  unfold optimize_lod. destruct lod as [d ts]. cbn [triangles distance].
  destruct ts as [|t ts].
  - eexists. split; [reflexivity|]. split; [split; reflexivity|auto].
  - destruct (optimize_triangles_permutes (t :: ts) vertex_count)
      as (out & -> & Hperm & Hsame). cbn.
    eexists. split; [reflexivity|]. split; [split; [reflexivity|exact Hperm]|].
    intros Hsmall. rewrite (Hsame Hsmall). reflexivity.
Qed.

Lemma mapM_spec {A} (f : A → option A) (R : A → A → Prop) (p : Prop)
    (l : list A) :
  (∀ x, ∃ y, f x = Some y ∧ R x y ∧ (p → y = x)) →
  ∃ k, mapM f l = Some k ∧ Forall2 R l k ∧ (p → k = l).
Proof.
  intros Hf. induction l as [|x l (k & Hk & HR & Hsame)].
  - exists []. split; [reflexivity|]. split; [constructor|auto].
  - destruct (Hf x) as (y & Hy & Hxy & Hsame').
    exists (y :: k). cbn [mapM]. rewrite Hy, Hk. cbn.
    split; [reflexivity|]. split; [constructor; assumption|].
    intros Hp. rewrite (Hsame Hp), (Hsame' Hp). reflexivity.
Qed.

Lemma optimize_geometry_spec (vertex_count : Z) (geom : IntermediateGeometry) :
  ∃ geom', optimize_geometry vertex_count geom = Some geom'
           ∧ same_geometry geom geom'
           ∧ ((vertex_count ≤ Optimize.CACHE_SIZE)%Z → geom' = geom).
Proof.
  unfold optimize_geometry.
  destruct (mapM_spec (optimize_lod vertex_count) same_lod
              (vertex_count ≤ Optimize.CACHE_SIZE)%Z (lod_levels geom)
              (optimize_lod_spec vertex_count))
    as (lods & -> & Hlods & Hsame). cbn.
  eexists. split; [reflexivity|].
  split; [split_and!; [reflexivity..|exact Hlods]|].
  intros Hsmall. rewrite (Hsame Hsmall). destruct geom; reflexivity.
Qed.

(** X23. [optimize_model_indices] returns for every model; it leaves
    the vertices, morphs, bones and bounding box as they are and
    keeps the geometries, their materials, their LOD levels and the
    distances of these, and the triangle list of every LOD level is a
    permutation of the one it had; a model of at most 32 vertices is left
    unchanged.  Of the floats only the fact is used that a sum of at most
    three scores of vertices with an active triangle is above [-2.0]. *)
Theorem optimize_model_indices_permutes_every_lod (model : IntermediateModel) :
  ∃ model',
    optimize_model_indices model = Some model' ∧
    name model' = name model ∧
    model_vertices model' = model_vertices model ∧
    morphs model' = morphs model ∧ bones model' = bones model ∧
    bbox_min model' = bbox_min model ∧ bbox_max model' = bbox_max model ∧
    Forall2 same_geometry (geometries model) (geometries model') ∧
    ((length (model_vertices model) ≤ 32)%nat → model' = model).
Proof.
  unfold optimize_model_indices. cbv zeta.
  set (vertex_count := Z.of_nat (length (model_vertices model))).
  destruct (mapM_spec (optimize_geometry vertex_count) same_geometry
              (vertex_count ≤ Optimize.CACHE_SIZE)%Z (geometries model)
              (optimize_geometry_spec vertex_count))
    as (geoms & -> & Hgeoms & Hsame). cbn.
  eexists. split; [reflexivity|].
  split_and!; [reflexivity..|exact Hgeoms|].
  intros Hsmall. rewrite Hsame; [destruct model; reflexivity|].
  subst vertex_count. unfold Optimize.CACHE_SIZE. lia.
Qed.

End Model.

(** Forty vertices and one geometry whose only LOD level holds
    [Optimize.strip]. *)
Definition dot_at (k : nat) : IntermediateVertex :=
  {| position := (Q2Qc (inject_Z (Z.of_nat k)), 0, 0)%Qc;
     normal := None; uv := None; uv2 := None; tangent := None; color := None;
     bone_weights := None; bone_indices := None; blender_index := None |}.

Definition ribbon : IntermediateModel :=
  {| name := "Ribbon";
     model_vertices := dot_at <$> seq 0 40;
     geometries :=
       [ {| material_name := "m"; material_index := 0;
            lod_levels := [ {| distance := 0; triangles := Optimize.strip |};
                            {| distance := Q2Qc 10; triangles := [] |} ] |} ];
     morphs := []; bones := [];
     bbox_min := (0, 0, 0)%Qc; bbox_max := (Q2Qc 39, 0, 0)%Qc |}.

Lemma optimize_model_indices_permutes_every_lod_witness :
  ∃ model',
    optimize_model_indices Optimize.q_ops remove_dups ribbon = Some model' ∧
    Forall2 same_geometry (geometries ribbon) (geometries model').
Proof.
  destruct (optimize_model_indices_permutes_every_lod
              Optimize.q_ops remove_dups
              Optimize.remove_dups_elements Optimize.q_live_score_above_start
              ribbon)
    as (model' & Hrun & _ & _ & _ & _ & _ & _ & Hgeoms & _).
  exists model'. split; [exact Hrun|exact Hgeoms].
Defined.
End OptimizeFacts.

(** ** materials/technique_map.py: the texture units and the technique path *)

Module TechniqueMapFacts.
Import TechniqueMap.

(** The image that goes to the specular unit: the metallic texture when
    there is one, else the roughness texture. *)
Definition packed_image (props : PBRProperties) : option string :=
  match metallic_texture props, roughness_texture props with
  | Some m, _ => Some (image_name m)
  | None, Some r => Some (image_name r)
  | None, None => None
  end.

Ltac units :=
  repeat first
    [ rewrite lookup_insert_eq
    | rewrite lookup_insert_ne by (intros ?; simplify_eq)
    | rewrite lookup_empty ];
  try reflexivity.

(** X24. [map_material] returns for every mapper and every material, and
    its texture table is this.  The diffuse unit holds the base colour
    texture.  On the PBR path the normal unit holds the normal texture,
    the specular unit (with texture packing on) the metallic texture or
    else the roughness texture, and the emissive unit the emission
    texture or else the ambient-occlusion texture.  On the legacy path
    the normal and specular units are filled only when there is a base
    colour texture, and the emissive unit holds the emission texture
    only.  No other unit is set. *)
Theorem material_texture_units (self : TechniqueMapper) (props : PBRProperties) :
  ∃ r : UrhoMaterialResult,
    map_material self props = Some r ∧
    let pbr := prefer_pbr self && negb (is_unlit props) in
    let diff := bool_decide (is_Some (base_color_texture props)) in
    textures r !! "diffuse" = image_name <$> base_color_texture props ∧
    textures r !! "normal"
    = (if pbr || diff then image_name <$> normal_texture props else None) ∧
    textures r !! "specular"
    = (if pack_textures self && (pbr || diff) then packed_image props
       else None) ∧
    textures r !! "emissive"
    = match emission_texture props with
      | Some e => Some (image_name e)
      | None => if pbr then image_name <$> ao_texture props else None
      end ∧
    ∀ unit : string,
      unit ∉ ["diffuse"; "normal"; "specular"; "emissive"] →
      textures r !! unit = None.
Proof.
  destruct self as [pbr pack].
  destruct props as [bc bca met rough sil ec es al bct mt rt nt et aot tr clip two unlit].
  destruct bc as [[r g] b].
  unfold map_material, _map_pbr, _map_legacy, packed_image.
  cbn [prefer_pbr pack_textures is_unlit base_color_texture metallic_texture
       roughness_texture normal_texture emission_texture ao_texture].
  generalize (pbr && negb unlit). intros path.
  destruct bct, mt, rt, nt, et, aot, pack, path;
    cbn -[insert lookup empty String.append];
    (eexists; split; [reflexivity|]);
    cbn -[insert lookup empty String.append];
    (split_and!; [units..|]);
    intros unit Hunit;
    rewrite !not_elem_of_cons in Hunit;
    destruct Hunit as (? & ? & ? & ? & _);
    rewrite ?lookup_insert_ne by congruence; apply lookup_empty.
Qed.

(** *** The technique path *)

(** [name] with its first 11 and last 4 characters cut off. *)
Definition stem_of (name : string) : string :=
  String.substring 11 (String.length name - 15) name.

(** [s.endswith(suffix)]. *)
Definition ends_with (suffix s : string) : bool :=
  String.prefix (String.rev suffix) (String.rev s).

(** X25. The technique that [map_material] names is always a path
    [Techniques/<stem>.xml]; the stem starts with [PBR/] exactly on the
    PBR path (prefer-PBR on and the material not unlit), ends with
    [Alpha] exactly when the material has transparency, and contains
    [Unlit] exactly when the material is unlit. *)
Theorem technique_path_shape (self : TechniqueMapper) (props : PBRProperties) :
  ∃ r : UrhoMaterialResult,
    map_material self props = Some r ∧
    let stem := stem_of (technique_name r) in
    technique_name r = "Techniques/" +:+ stem +:+ ".xml" ∧
    String.prefix "PBR/" stem = prefer_pbr self && negb (is_unlit props) ∧
    ends_with "Alpha" stem = has_transparency props ∧
    bool_decide (is_Some (String.index 0 "Unlit" stem)) = is_unlit props.
Proof.
  destruct self as [pbr pack].
  destruct props as [bc bca met rough sil ec es al bct mt rt nt et aot tr clip two unlit].
  destruct bc as [[r g] b].
  unfold map_material, _map_pbr, _map_legacy.
  destruct bct, mt, rt, nt, et, aot, pack, pbr, unlit, tr;
    cbn -[insert lookup empty stem_of ends_with String.index];
    (eexists; split; [reflexivity|]);
    cbn [technique_name]; vm_compute; auto.
Qed.
End TechniqueMapFacts.
